(** * Hubble sync core: SyncId, TrieNode / MerkleTrie and SyncEngine

    A shallow embedding of the synchronisation code of the hub
    (syncId.ts, trieNode.ts, syncEngine.ts) and the properties of its
    specification.

    Conventions.
    - A [Uint8Array] / [Buffer] is a [list byte].
    - A JS [Map<number, TrieNode>] is an association list in insertion
      order: the hash of a node depends on the iteration order of the map.
      Its keys are [option byte]: [Some c] for a byte read from a key,
      [None] for [undefined] (what [Uint8Array.prototype.at] returns out of
      range).
    - A method of a [TrieNode] is a function from the receiver to the
      receiver after the call and the completion of the call (a normal
      return or a thrown exception).
    - BLAKE3 comes from the package @noble/hashes; it is a parameter
      ([Blake3]), of which only the digest length (dkLen: 20) is known. *)

From Stdlib Require Import List String Ascii ZArith NArith Arith Lia Bool.
From Stdlib.Strings Require Import Byte.
From Stdlib Require Import Sorted Permutation OrderedTypeEx.
From Stdlib Require Import DecimalString DecimalPos DecimalN.
From Stdlib Require DecimalFacts.
From Stdlib Require Import QArith Qround.
Import ListNotations.

Set Implicit Arguments.

Open Scope Z_scope.

(** ** Bytes, strings and completions *)

Definition Uint8Array := list byte.

(** What a [throw] statement can carry in this code. *)
Inductive Thrown : Type :=
| ThrowString (s : string)
| ThrowHubError (errCode message : string)
| ThrowRangeError (message : string).

Inductive Completion (A : Type) : Type :=
| Normal (a : A)
| Abrupt (e : Thrown).

Arguments Normal {A} a.
Arguments Abrupt {A} e.

(** [Number.prototype.toString] on a non-negative integer. *)
Definition number_toString (n : N) : string :=
  NilZero.string_of_uint (N.to_uint n).

(** [buf.toString('hex')]: two lowercase digits per byte. *)
Definition hex_digit (n : N) : ascii :=
  match n with
  | 0%N => "0" | 1%N => "1" | 2%N => "2" | 3%N => "3" | 4%N => "4"
  | 5%N => "5" | 6%N => "6" | 7%N => "7" | 8%N => "8" | 9%N => "9"
  | 10%N => "a" | 11%N => "b" | 12%N => "c" | 13%N => "d" | 14%N => "e"
  | _ => "f"
  end%char.

Definition byte_toString_hex (b : byte) (tail : string) : string :=
  String (hex_digit (Byte.to_N b / 16)) (String (hex_digit (Byte.to_N b mod 16)) tail).

Fixpoint toString_hex (bs : Uint8Array) : string :=
  match bs with
  | [] => EmptyString
  | b :: bs' => byte_toString_hex b (toString_hex bs')
  end.

Definition hex_value (c : ascii) : option N :=
  let n := N_of_ascii c in
  if ((48 <=? n) && (n <=? 57))%N then Some (n - 48)%N
  else if ((97 <=? n) && (n <=? 102))%N then Some (n - 87)%N
  else if ((65 <=? n) && (n <=? 70))%N then Some (n - 55)%N
  else None.

(** [Buffer.from(s, 'hex')]: decodes pairs of hex digits and stops at the
    first pair that is not one. *)
Fixpoint Buffer_from_hex (s : string) : Uint8Array :=
  match s with
  | String a (String b s') =>
      match hex_value a, hex_value b with
      | Some x, Some y =>
          match Byte.of_N (16 * x + y) with
          | Some v => v :: Buffer_from_hex s'
          | None => []
          end
      | _, _ => []
      end
  | _ => []
  end.

(** [bytesCompare] of @farcaster/utils: lexicographic comparison. *)
Fixpoint bytesCompare (a b : Uint8Array) : Z :=
  match a, b with
  | [], [] => 0
  | [], _ :: _ => -1
  | _ :: _, [] => 1
  | x :: a', y :: b' =>
      match N.compare (Byte.to_N x) (Byte.to_N y) with
      | Lt => -1
      | Gt => 1
      | Eq => bytesCompare a' b'
      end
  end.

(** ** The JS Map of children *)

Definition MapKey := option byte.

Definition MapKey_eqb (a b : MapKey) : bool :=
  match a, b with
  | Some x, Some y => Byte.eqb x y
  | None, None => true
  | _, _ => false
  end.

Arguments MapKey_eqb : simpl never.

(** [String([char, node])]: the elements joined by a comma; [undefined]
    gives the empty string and a node gives [object Object]. *)
Definition key_toString (c : MapKey) : string :=
  (match c with
   | Some b => number_toString (Byte.to_N b)
   | None => EmptyString
   end ++ ",[object Object]")%string.

Section JSMap.
Variable V : Type.

Definition JSMap := list (MapKey * V).

Fixpoint Map_get (m : JSMap) (c : MapKey) : option V :=
  match m with
  | [] => None
  | (c', v) :: m' => if MapKey_eqb c' c then Some v else Map_get m' c
  end.

Definition Map_has (m : JSMap) (c : MapKey) : bool :=
  match Map_get m c with Some _ => true | None => false end.

(** [map.set(c, v)]: an existing key keeps its place, a new one goes last. *)
Fixpoint Map_set (m : JSMap) (c : MapKey) (v : V) : JSMap :=
  match m with
  | [] => [(c, v)]
  | (c', v') :: m' =>
      if MapKey_eqb c' c then (c, v) :: m' else (c', v') :: Map_set m' c v
  end.

Fixpoint Map_delete (m : JSMap) (c : MapKey) : JSMap :=
  match m with
  | [] => []
  | (c', v') :: m' =>
      if MapKey_eqb c' c then m' else (c', v') :: Map_delete m' c
  end.

Definition Map_size (m : JSMap) : Z := Z.of_nat (List.length m).

Definition entry_toString (e : MapKey * V) : string := key_toString (fst e).

(** [Array.prototype.sort()] without a comparator orders the elements by
    their string images (UTF-16 code units); it is stable. Insertion sort
    from left to right, each element placed after those not greater. *)
Fixpoint sort_insert (e : MapKey * V) (l : JSMap) : JSMap :=
  match l with
  | [] => [e]
  | x :: l' =>
      if String.ltb (entry_toString e) (entry_toString x)
      then e :: x :: l'
      else x :: sort_insert e l'
  end.

Definition Array_sort (l : JSMap) : JSMap :=
  fold_left (fun acc e => sort_insert e acc) l [].
End JSMap.

Arguments Map_get {V} m c.
Arguments Map_has {V} m c.
Arguments Map_set {V} m c v.
Arguments Map_delete {V} m c.
Arguments Map_size {V} m.
Arguments entry_toString {V} e.
Arguments sort_insert {V} e l.
Arguments Array_sort {V} l.

(** ** TrieNode (trieNode.ts) *)

Definition TIMESTAMP_LENGTH : nat := 10.
Definition HASH_LENGTH : nat := 20.

(** BLAKE3 with a 20-byte digest, [blake3(msg, { dkLen: 20 })]. Feeding a
    hasher several chunks with [update] hashes their concatenation. *)
Class Blake3 : Type := {
  blake3 : Uint8Array -> Uint8Array;
  blake3_dkLen : forall msg, List.length (blake3 msg) = 20%nat
}.

#[local] Unset Elimination Schemes.
Inductive TrieNode : Type :=
  Build_TrieNode (_hash : string) (_items : Z)
                 (_children : list (MapKey * TrieNode))
                 (_key : option Uint8Array).
#[local] Set Elimination Schemes.

Definition _hash (n : TrieNode) : string :=
  match n with Build_TrieNode h _ _ _ => h end.
Definition _items (n : TrieNode) : Z :=
  match n with Build_TrieNode _ i _ _ => i end.
Definition _children (n : TrieNode) : list (MapKey * TrieNode) :=
  match n with Build_TrieNode _ _ c _ => c end.
Definition _key (n : TrieNode) : option Uint8Array :=
  match n with Build_TrieNode _ _ _ k => k end.

Definition set_hash (n : TrieNode) (h : string) : TrieNode :=
  Build_TrieNode h (_items n) (_children n) (_key n).
Definition set_items (n : TrieNode) (i : Z) : TrieNode :=
  Build_TrieNode (_hash n) i (_children n) (_key n).
Definition set_children (n : TrieNode) (c : list (MapKey * TrieNode)) : TrieNode :=
  Build_TrieNode (_hash n) (_items n) c (_key n).
Definition set_key (n : TrieNode) (k : option Uint8Array) : TrieNode :=
  Build_TrieNode (_hash n) (_items n) (_children n) k.

(** [new TrieNode()] *)
Definition new_TrieNode : TrieNode := Build_TrieNode EmptyString 0 [] None.

(** [get isLeaf] *)
Definition isLeaf (n : TrieNode) : bool :=
  match _children n with [] => true | _ :: _ => false end.

(** [get value] *)
Definition value (n : TrieNode) : option Uint8Array :=
  if isLeaf n then _key n else None.

(** [this._key ?? new Uint8Array()] *)
Definition key_or_empty (n : TrieNode) : Uint8Array :=
  match _key n with Some k => k | None => [] end.

Section Trie.
Context {B3 : Blake3}.

(** Modelled from the spec: [blake3Truncate160] of utils/crypto is not
    among the sources; the hash of a leaf is BLAKE3-160 of its key and an
    absent key hashes the empty string, whose digest is [EMPTY_HASH]. *)
Definition blake3Truncate160 (msg : option Uint8Array) : Uint8Array :=
  match msg with
  | Some m => blake3 m
  | None => blake3 []
  end.

Definition EMPTY_HASH : string := toString_hex (blake3 []).

(** The bytes fed to the hasher by [_updateHash] on an internal node. *)
Definition children_digests (ch : list (MapKey * TrieNode)) : Uint8Array :=
  List.concat (map (fun e => Buffer_from_hex (_hash (snd e))) ch).

Definition _updateHash (this : TrieNode) : TrieNode :=
  let digest :=
    if isLeaf this then blake3Truncate160 (value this)
    else blake3 (children_digests (_children this)) in
  set_hash this (toString_hex digest).

(** The key is copied; a copy is the same list. *)
Definition _setKeyValue (key : option Uint8Array) (this : TrieNode) : TrieNode :=
  _updateHash (set_key this key).

Definition _addChild (char : MapKey) (this : TrieNode) : TrieNode :=
  set_children this (Array_sort (Map_set (_children this) char new_TrieNode)).

(** [this._children.get(char)?.m(...)]: the call mutates the child in
    place, so the child after the call takes the place of the child in the
    map; [None] when there is no such child. *)
Definition call_child {A : Type} (char : MapKey)
    (m : TrieNode -> TrieNode * Completion A) (this : TrieNode)
  : TrieNode * option (Completion A) :=
  match Map_get (_children this) char with
  | None => (this, None)
  | Some child =>
      let (child', r) := m child in
      (set_children this (Map_set (_children this) char child'), Some r)
  end.

(** The end of [insert], from [if (!this._children.has(char))] on: make
    sure there is a child for [char], insert into it and, on success,
    count the item and update the hash. [rec] is the recursive call
    [insert(key, current_index + 1)] on the child. *)
Definition insert_child (rec : TrieNode -> TrieNode * Completion bool)
    (char : MapKey) (this : TrieNode) : TrieNode * Completion bool :=
  let this2 :=
    if Map_has (_children this) char then this else _addChild char this in
  match call_child char rec this2 with
  | (this3, Some (Abrupt e)) => (this3, Abrupt e)
  | (this3, Some (Normal true)) =>
      (_updateHash (set_items this3 (_items this3 + 1)), Normal true)
  | (this3, _) => (this3, Normal false)
  end.

(** [insert] on a receiver that is a [new TrieNode()]. [_splitLeafNode]
    calls [insert] with the resident key on the child it has just created;
    [insert_at_new_TrieNode] below shows that this is [insert] on that
    receiver. [rest] is the part of [key] from [current_index] on. *)
Fixpoint insert_new_at (key rest : Uint8Array) (current_index : nat)
  : TrieNode * Completion bool :=
  match rest with
  | [] => (new_TrieNode, Abrupt (ThrowString "Key length exceeded"))
  | c :: rest' =>
      if (TIMESTAMP_LENGTH <=? current_index)%nat then
        (set_items (_setKeyValue (Some key) new_TrieNode)
                   (_items new_TrieNode + 1), Normal true)
      else
        insert_child (fun _ => insert_new_at key rest' (S current_index))
                     (Some c) new_TrieNode
  end.

(** [_splitLeafNode(current_index)]. The [assert] of this file is
    [console.assert], which writes to the console and throws nothing: the
    console is not modelled and the calls of [assert] are left out. Past
    the end of the key [this._key.at(current_index)] is [undefined], the
    key [None] of the map. *)
Definition _splitLeafNode (current_index : nat) (this : TrieNode)
  : TrieNode * Completion unit :=
  match _key this with
  | None =>
      (this, Abrupt (ThrowHubError "bad_request"
                       "Cannot split a leaf node without a key and value"))
  | Some k =>
      let newChildChar := nth_error k current_index in
      let this1 := _addChild newChildChar this in
      (* the receiver of insert is the node that _addChild has just stored *)
      match call_child newChildChar
              (fun _ => insert_new_at k (skipn (S current_index) k)
                                      (S current_index)) this1 with
      | (this2, Some (Abrupt e)) => (this2, Abrupt e)
      | (this2, _) => (_setKeyValue None this2, Normal tt)
      end
  end.

(** [insert(key, current_index)]; [rest] is the part of [key] from
    [current_index] on, so that [current_index >= key.length] is
    [rest = []] and [key.at(current_index)] is its head. *)
Fixpoint insert_at (key rest : Uint8Array) (current_index : nat)
    (this : TrieNode) {struct rest} : TrieNode * Completion bool :=
  match rest with
  | [] => (this, Abrupt (ThrowString "Key length exceeded"))
  | c :: rest' =>
      if (TIMESTAMP_LENGTH <=? current_index)%nat && isLeaf this
         && match _key this with None => true | Some _ => false end
      then
        (set_items (_setKeyValue (Some key) this) (_items this + 1), Normal true)
      else
        let split : TrieNode * Completion (option bool) :=
          if (TIMESTAMP_LENGTH <=? current_index)%nat && isLeaf this then
            if bytesCompare (key_or_empty this) key =? 0
            then (this, Normal (Some false))
            else
              match _splitLeafNode current_index this with
              | (this1, Normal _) => (this1, Normal None)
              | (this1, Abrupt e) => (this1, Abrupt e)
              end
          else (this, Normal None) in
        match split with
        | (this1, Abrupt e) => (this1, Abrupt e)
        | (this1, Normal (Some b)) => (this1, Normal b)
        | (this1, Normal None) =>
            insert_child (insert_at key rest' (S current_index)) (Some c) this1
        end
  end.

Definition insert (key : Uint8Array) (current_index : nat) (this : TrieNode)
  : TrieNode * Completion bool :=
  insert_at key (skipn current_index key) current_index this.

(** The compaction step of [delete]: a node with one item and one child
    takes the key of that child, if it has one, and drops the child. *)
Definition compact (this : TrieNode) : TrieNode :=
  match _children this with
  | (char, child) :: _ =>
      match _key child with
      | Some k =>
          let this1 := _setKeyValue (Some k) this in
          set_children this1 (Map_delete (_children this1) char)
      | None => this
      end
  | [] => this
  end.

(** The end of [delete] after the child for [char] has deleted the key:
    count, drop the child if it is empty, compact, update the hash. *)
Definition delete_child_done (char : MapKey) (current_index : nat)
    (this1 : TrieNode) : TrieNode :=
  let this2 := set_items this1 (_items this1 - 1) in
  let this3 :=
    match Map_get (_children this2) char with
    | Some child =>
        if _items child =? 0
        then set_children this2 (Map_delete (_children this2) char)
        else this2
    | None => this2
    end in
  let this4 :=
    if (_items this3 =? 1) && (Map_size (_children this3) =? 1)
       && (TIMESTAMP_LENGTH <=? current_index)%nat
    then compact this3 else this3 in
  _updateHash this4.

Fixpoint delete_at (key rest : Uint8Array) (current_index : nat)
    (this : TrieNode) {struct rest} : TrieNode * Completion bool :=
  if isLeaf this then
    if bytesCompare (key_or_empty this) key =? 0
    then (_setKeyValue None (set_items this (_items this - 1)), Normal true)
    else (this, Normal false)
  else
    match rest with
    | [] => (this, Abrupt (ThrowString "Key length exceeded2"))
    | c :: rest' =>
        let char := Some c in
        match call_child char (delete_at key rest' (S current_index)) this with
        | (this1, None) => (this1, Normal false)
        | (this1, Some (Abrupt e)) => (this1, Abrupt e)
        | (this1, Some (Normal false)) => (this1, Normal false)
        | (this1, Some (Normal true)) =>
            (delete_child_done char current_index this1, Normal true)
        end
    end.

Definition delete (key : Uint8Array) (current_index : nat) (this : TrieNode)
  : TrieNode * Completion bool :=
  delete_at key (skipn current_index key) current_index this.

Fixpoint exists_at (key rest : Uint8Array) (current_index : nat)
    (this : TrieNode) {struct rest} : TrieNode * Completion bool :=
  if isLeaf this && (bytesCompare (key_or_empty this) key =? 0) then
    (this, Normal true)
  else
    match rest with
    | [] => (this, Abrupt (ThrowString "Key length exceeded3"))
    | c :: rest' =>
        match call_child (Some c) (exists_at key rest' (S current_index)) this with
        | (this1, None) => (this1, Normal false)
        | (this1, Some (Abrupt e)) => (this1, Abrupt e)
        | (this1, Some (Normal b)) => (this1, Normal (b || false))
        end
    end.

Definition exists_ (key : Uint8Array) (current_index : nat) (this : TrieNode)
  : TrieNode * Completion bool :=
  exists_at key (skipn current_index key) current_index this.

(** A snapshot of the trie ([TrieSnapshot]). *)
Record TrieSnapshot : Type := {
  prefix : Uint8Array;
  excludedHashes : list string;
  numMessages : Z
}.

(** [_excludedHash(char)]: reads the hash and the item count of every
    child whose key is not [char]; returns [(items, hash)]. *)
Definition _excludedHash (char : MapKey) (this : TrieNode) : Z * string :=
  let others :=
    filter (fun e => negb (MapKey_eqb (fst e) char)) (_children this) in
  (fold_left (fun excludedItems e => excludedItems + _items (snd e)) others 0,
   toString_hex (blake3 (children_digests others))).

(** [getSnapshot(prefix, current_index)], with [pre] for the argument
    [prefix]. The recursion follows the children of the receiver. *)
Fixpoint getSnapshot (pre : Uint8Array) (current_index : nat)
    (this : TrieNode) {struct this} : TrieNode * Completion TrieSnapshot :=
  match this with
  | Build_TrieNode h i ch k =>
      let char := nth_error pre current_index in
      if Z.of_nat current_index =? Z.of_nat (List.length pre) - 1 then
        let excludedHash := _excludedHash char (Build_TrieNode h i ch k) in
        (Build_TrieNode h i ch k,
         Normal {| prefix := pre;
                   excludedHashes := [snd excludedHash];
                   numMessages := fst excludedHash |})
      else
        let '(ch', innerSnapshot) :=
          (fix call (l : list (MapKey * TrieNode))
             : list (MapKey * TrieNode) * option (Completion TrieSnapshot) :=
             match l with
             | [] => ([], None)
             | (c, child) :: l' =>
                 if MapKey_eqb c char then
                   let (child', r) := getSnapshot pre (S current_index) child in
                   ((c, child') :: l', Some r)
                 else
                   let (l'', r) := call l' in ((c, child) :: l'', r)
             end) ch in
        let this1 := Build_TrieNode h i ch' k in
        let excludedHash := _excludedHash char this1 in
        match innerSnapshot with
        | Some (Abrupt e) => (this1, Abrupt e)
        | Some (Normal inner) =>
            (this1,
             Normal {| prefix := prefix inner;
                       excludedHashes := snd excludedHash :: excludedHashes inner;
                       numMessages := fst excludedHash + numMessages inner |})
        | None =>
            (this1,
             Normal {| prefix := firstn (S current_index) pre;
                       excludedHashes := [snd excludedHash];
                       numMessages := fst excludedHash + 0 |})
        end
  end.

(** [getNode(prefix)]: the node at the prefix, or [undefined]. *)
Fixpoint getNode (prefix : Uint8Array) (this : TrieNode) {struct prefix}
  : TrieNode * Completion (option TrieNode) :=
  match prefix with
  | [] => (this, Normal (Some this))
  | c :: prefix' =>
      match call_child (Some c) (getNode prefix') this with
      | (this1, None) => (this1, Normal None)
      | (this1, Some r) => (this1, r)
      end
  end.

(** [getAllValues()]: the keys of the leaves below the receiver, in the
    order of the maps. *)
Fixpoint getAllValues (this : TrieNode) {struct this}
  : TrieNode * Completion (list Uint8Array) :=
  match this with
  | Build_TrieNode h i ch k =>
      match ch with
      | [] =>
          (Build_TrieNode h i ch k,
           Normal (match k with Some key => [key] | None => [] end))
      | _ :: _ =>
          let '(ch', r) :=
            (fix each (l : list (MapKey * TrieNode))
               : list (MapKey * TrieNode) * Completion (list Uint8Array) :=
               match l with
               | [] => ([], Normal [])
               | (c, child) :: l' =>
                   match getAllValues child with
                   | (child', Abrupt e) => ((c, child') :: l', Abrupt e)
                   | (child', Normal vs) =>
                       match each l' with
                       | (l'', Abrupt e) => ((c, child') :: l'', Abrupt e)
                       | (l'', Normal values) =>
                           ((c, child') :: l'', Normal (vs ++ values))
                       end
                   end
               end) ch in
          (Build_TrieNode h i ch' k, r)
      end
  end.

(** ** MerkleTrie

    Modelled from the spec: merkleTrie.ts is not among the sources (its
    tests are). The spec describes it as a thin wrapper around the root
    node: [insert], [delete] and [exists] call the root with the bytes of
    the SyncId from index 0, [items] returns [root.items], and [rootHash]
    returns the root's 40-char hex, or the empty string for an empty
    trie: at zero items the visible root hash is the empty string, not
    [EMPTY_HASH]. *)
Record MerkleTrie : Type := { _root : TrieNode }.

Definition new_MerkleTrie : MerkleTrie := {| _root := new_TrieNode |}.


Definition MerkleTrie_delete (id : Uint8Array) (t : MerkleTrie)
  : MerkleTrie * Completion bool :=
  let (r, c) := delete id 0 (_root t) in ({| _root := r |}, c).

Definition MerkleTrie_exists (id : Uint8Array) (t : MerkleTrie)
  : MerkleTrie * Completion bool :=
  let (r, c) := exists_ id 0 (_root t) in ({| _root := r |}, c).

Definition items (t : MerkleTrie) : Z := _items (_root t).

Definition rootHash (t : MerkleTrie) : string :=
  if items t =? 0 then EmptyString else _hash (_root t).
End Trie.


(** ** The rest of trieNode.ts, and the method of the engine that reads the
    trie *)

Section TrieMore.
Context {B3 : Blake3}.

(** [recalculateHash()]: the digest of the node from the keys below it,
    hashing at an internal node the digests that the children return.
    The hash field is written only where it is the empty string. *)
Fixpoint recalculateHash (this : TrieNode) {struct this} : TrieNode * Uint8Array :=
  match this with
  | Build_TrieNode h i ch k =>
      let '(ch', digest) :=
        match ch with
        | [] => ([], blake3Truncate160 k)
        | _ :: _ =>
            let '(ch', fed) :=
              (fix each (l : list (MapKey * TrieNode))
                 : list (MapKey * TrieNode) * Uint8Array :=
                 match l with
                 | [] => ([], [])
                 | (c, child) :: l' =>
                     let (child', d) := recalculateHash child in
                     let (l'', ds) := each l' in
                     ((c, child') :: l'', d ++ ds)
                 end) ch in
            (ch', blake3 fed)
        end in
      (Build_TrieNode (if String.eqb h EmptyString then toString_hex digest else h)
                      i ch' k,
       digest)
  end.

(** [getAllSyncIdsByPrefix(prefix)] of the sync engine (syncEngine.ts):
    [this._trie.root.getNode(prefix)?.getAllValues() ?? []], on the root
    of the trie. [getAllValues] leaves its receiver as it is
    ([getAllValues_keys_of]), so the root after the call is the root
    after [getNode]. *)
Definition SyncEngine_getAllSyncIdsByPrefix (prefix : Uint8Array) (root : TrieNode)
  : TrieNode * Completion (list Uint8Array) :=
  match getNode prefix root with
  | (root1, Normal (Some node)) => (root1, snd (getAllValues node))
  | (root1, Normal None) => (root1, Normal [])
  | (root1, Abrupt e) => (root1, Abrupt e)
  end.
End TrieMore.

(** ** SyncId (syncId.ts) *)

(** Modelled from the spec: [FID_BYTES] of storage/db/types is not among the
    sources; the spec gives the fid four bytes in the store key, and so does
    the comment at its use in [pkFromSyncId]. *)
Definition FID_BYTES : nat := 4.

(** A JS number as [parseInt] returns it: an integer or NaN. *)
Inductive JSNumber : Type :=
| NaN
| Num (z : Z).

Definition is_digit (b : byte) : bool :=
  ((48 <=? Byte.to_N b) && (Byte.to_N b <=? 57))%N.

Definition digit_value (b : byte) : Z := Z.of_N (Byte.to_N b) - 48.

(** The white space that [parseInt] skips at the start of a string, on the
    UTF-8 bytes of the string: TAB, LF, VT, FF, CR, SP, U+00A0, U+1680,
    U+2000 to U+200A, U+2028, U+2029, U+202F, U+205F, U+3000 and U+FEFF. *)
Fixpoint trim_start (bs : Uint8Array) : Uint8Array :=
  match bs with
  | b :: bs1 =>
      if ((9 <=? Byte.to_N b) && (Byte.to_N b <=? 13) || (Byte.to_N b =? 32))%N
      then trim_start bs1
      else
        match Byte.to_N b, bs1 with
        | 194%N, b1 :: bs2 =>
            if (Byte.to_N b1 =? 160)%N then trim_start bs2 else bs
        | 225%N, b1 :: b2 :: bs3 =>
            if ((Byte.to_N b1 =? 154) && (Byte.to_N b2 =? 128))%N
            then trim_start bs3 else bs
        | 226%N, b1 :: b2 :: bs3 =>
            if ((Byte.to_N b1 =? 128)
                && ((128 <=? Byte.to_N b2) && (Byte.to_N b2 <=? 138)
                    || (Byte.to_N b2 =? 168) || (Byte.to_N b2 =? 169)
                    || (Byte.to_N b2 =? 175))
                || (Byte.to_N b1 =? 129) && (Byte.to_N b2 =? 159))%N
            then trim_start bs3 else bs
        | 227%N, b1 :: b2 :: bs3 =>
            if ((Byte.to_N b1 =? 128) && (Byte.to_N b2 =? 128))%N
            then trim_start bs3 else bs
        | 239%N, b1 :: b2 :: bs3 =>
            if ((Byte.to_N b1 =? 187) && (Byte.to_N b2 =? 191))%N
            then trim_start bs3 else bs
        | _, _ => bs
        end
  | [] => []
  end.

(** The longest run of decimal digits at the start, as a number; [None]
    when there is no digit. *)
Fixpoint parse_digits (acc : option Z) (bs : Uint8Array) : option Z :=
  match bs with
  | b :: bs' =>
      if is_digit b
      then parse_digits
             (Some (10 * match acc with Some a => a | None => 0 end + digit_value b))
             bs'
      else acc
  | [] => acc
  end.

(** [parseInt(text, 10)] on the UTF-8 bytes of the text: it skips white
    space, takes a sign and reads decimal digits. A negative zero counts as
    zero. *)
Definition parseInt10 (ts : Uint8Array) : JSNumber :=
  let s := trim_start ts in
  let (negative, s1) :=
    match s with
    | b :: s' =>
        if (Byte.to_N b =? 45)%N then (true, s')
        else if (Byte.to_N b =? 43)%N then (false, s')
        else (false, s)
    | [] => (false, s)
    end in
  match parse_digits None s1 with
  | None => NaN
  | Some v => Num (if negative then - v else v)
  end.

(** The four bytes of [v], most significant first. *)
Definition uint32BE (v : Z) : Uint8Array :=
  map (fun i =>
         match Byte.of_N (Z.to_N ((v / 2 ^ (8 * Z.of_nat (3 - i))) mod 256)) with
         | Some b => b
         | None => x00
         end)
      (seq 0 4).

(** [Buffer.alloc(4)] then [writeUInt32BE(value, 0)]: a value out of the
    range of a uint32 throws ERR_OUT_OF_RANGE (a RangeError); NaN passes
    the check and is written as zero. *)
Definition writeUInt32BE (value : JSNumber) : Completion Uint8Array :=
  match value with
  | NaN => Normal (uint32BE 0)
  | Num v =>
      if (v >? 4294967295) || (v <? 0)
      then Abrupt (ThrowRangeError "ERR_OUT_OF_RANGE")
      else Normal (uint32BE v)
  end.

(** [target.set(source, offset)] of a typed array: a source that does not
    fit throws a RangeError. *)
Definition TypedArray_set (target source : Uint8Array) (offset : nat)
  : Completion Uint8Array :=
  if (List.length target <? List.length source + offset)%nat
  then Abrupt (ThrowRangeError "offset is out of bounds")
  else Normal (firstn offset target ++ source
               ++ skipn (offset + List.length source) target).

(** [bytes.toString()]. The parameter of [pkFromSyncId] has the type
    [Uint8Array], and a value of that type is a plain typed array or a Node
    [Buffer] (what [syncId()] builds with [Buffer.concat]); [slice] keeps
    the class. A [Buffer] gives the text of its bytes as UTF-8; a plain
    typed array joins the decimal images of its bytes with commas, as
    [Array.prototype.join] does. The text is given by its UTF-8 bytes. *)
Definition Uint8Array_toString (isBuffer : bool) (bytes : Uint8Array) : Uint8Array :=
  if isBuffer then bytes
  else list_byte_of_string
         (String.concat "," (map (fun b => number_toString (Byte.to_N b)) bytes)).

(** [pkFromSyncId(syncId)]; [isBuffer] tells whether [syncId] is a
    [Buffer]. *)
Definition pkFromSyncId (isBuffer : bool) (syncId : Uint8Array)
  : Completion Uint8Array :=
  let ts := firstn TIMESTAMP_LENGTH syncId in
  match writeUInt32BE (parseInt10 (Uint8Array_toString isBuffer ts)) with
  | Abrupt e => Abrupt e
  | Normal tsBE =>
      let syncIDpart := skipn TIMESTAMP_LENGTH syncId in
      let ts_offset := (1 + FID_BYTES + 1)%nat in
      let pk := repeat x00 (ts_offset + 4 + HASH_LENGTH) in
      match TypedArray_set pk (firstn ts_offset syncIDpart) 0 with
      | Abrupt e => Abrupt e
      | Normal pk1 =>
          match TypedArray_set pk1 tsBE ts_offset with
          | Abrupt e => Abrupt e
          | Normal pk2 =>
              TypedArray_set pk2 (skipn ts_offset syncIDpart) (ts_offset + 4)
          end
      end
  end.

(** ** The rest of syncId.ts *)

(** [Number.prototype.toString] on an integer (of a magnitude below 10^21,
    up to which all the digits are written). *)
Definition integer_toString (z : Z) : string :=
  match z with
  | Zneg p => String "-" (number_toString (Npos p))
  | _ => number_toString (Z.to_N z)
  end.

(** [s.padStart(targetLength, '0')] *)
Definition padStart_0 (targetLength : nat) (s : string) : string :=
  String.append
    (string_of_list_ascii (repeat "0"%char (targetLength - String.length s))) s.

(** [timestampToPaddedTimestampPrefix(timestamp)], on a finite number:
    [Math.floor(timestamp).toString().padStart(TIMESTAMP_LENGTH, '0')]. *)
Definition timestampToPaddedTimestampPrefix (timestamp : Q) : string :=
  padStart_0 TIMESTAMP_LENGTH (integer_toString (Qfloor timestamp)).

(** [Buffer.from(string)]: the UTF-8 bytes of the string. *)
Definition Buffer_from_string (s : string) : Uint8Array := list_byte_of_string s.

(** The prefix at which the getter [snapshot] of the sync engine
    (syncEngine.ts) takes the snapshot of the trie:
    [Buffer.from(timestampToPaddedTimestampPrefix(snapshotTimestamp / 10))].
    The quotient is the exact one: for a whole number of seconds the
    quotient of the doubles has the same whole part. *)
Definition snapshot_prefix (snapshotTimestamp : Q) : Uint8Array :=
  Buffer_from_string
    (timestampToPaddedTimestampPrefix (Qdiv snapshotTimestamp (inject_Z 10))).

(** ** SyncEngine (syncEngine.ts)

    The engine talks to a peer through an RPC client and to the local
    store through the storage engine. Both are outside this code: they are
    parameters, functions on a state of the world ([World]) that return a
    result and the world after. An [await] is a call in sequence. Every
    call to the outside is recorded, in order, in a log. *)

Module SyncEngine.

Definition HASHES_PER_FETCH : Z := 50.

(** [new HubError(errCode, context)]: the context is a message or the
    error that caused this one. *)
Inductive HubError : Type :=
| HubError_message (errCode : string) (message : string)
| HubError_cause (errCode : string) (cause : HubError).

Definition errCode (e : HubError) : string :=
  match e with
  | HubError_message c _ => c
  | HubError_cause c _ => c
  end.

(** [HubResult<T>], a neverthrow [Result]. *)
Inductive HubResult (A : Type) : Type :=
| Ok (a : A)
| Err (e : HubError).

Arguments Ok {A} a.
Arguments Err {A} e.

Definition isErr {A : Type} (r : HubResult A) : bool :=
  match r with Ok _ => false | Err _ => true end.

Definition isOk {A : Type} (r : HubResult A) : bool := negb (isErr r).

Definition mapErr {A : Type} (f : HubError -> HubError) (r : HubResult A)
  : HubResult A :=
  match r with Ok a => Ok a | Err e => Err (f e) end.

(** The fields of a message that this code reads. *)
Record MessageData : Type := {
  fid : N;
  timestamp : N;
  type_ : N
}.

Record Message : Type := {
  data : option MessageData;
  hash : Uint8Array
}.

(** [NodeMetadata] of merkleTrie.ts, as [fromNodeMetadataResponse] builds
    it; [children] may be [undefined]. *)
#[local] Unset Elimination Schemes.
Inductive NodeMetadata : Type :=
  Build_NodeMetadata (prefix : Uint8Array) (numMessages : Z) (hash : string)
                     (children : option (list (MapKey * NodeMetadata))).

(** [TrieNodeMetadataResponse] of the protocol. *)
Inductive TrieNodeMetadataResponse : Type :=
  Build_TrieNodeMetadataResponse
    (prefix : Uint8Array) (numMessages : Z) (hash : string)
    (children : list TrieNodeMetadataResponse).
#[local] Set Elimination Schemes.

Definition node_prefix (n : NodeMetadata) : Uint8Array :=
  match n with Build_NodeMetadata p _ _ _ => p end.
Definition node_numMessages (n : NodeMetadata) : Z :=
  match n with Build_NodeMetadata _ m _ _ => m end.
Definition node_hash (n : NodeMetadata) : string :=
  match n with Build_NodeMetadata _ _ h _ => h end.
Definition node_children (n : NodeMetadata)
  : option (list (MapKey * NodeMetadata)) :=
  match n with Build_NodeMetadata _ _ _ c => c end.

Definition response_prefix (r : TrieNodeMetadataResponse) : Uint8Array :=
  match r with Build_TrieNodeMetadataResponse p _ _ _ => p end.
Definition response_numMessages (r : TrieNodeMetadataResponse) : Z :=
  match r with Build_TrieNodeMetadataResponse _ m _ _ => m end.
Definition response_hash (r : TrieNodeMetadataResponse) : string :=
  match r with Build_TrieNodeMetadataResponse _ _ h _ => h end.
Definition response_children (r : TrieNodeMetadataResponse)
  : list TrieNodeMetadataResponse :=
  match r with Build_TrieNodeMetadataResponse _ _ _ c => c end.

(** The key of a child is the last byte of its prefix; a child without a
    prefix is left out. *)
Definition fromNodeMetadataResponse (response : TrieNodeMetadataResponse)
  : NodeMetadata :=
  let children :=
    fold_left
      (fun children child =>
         let prefix := response_prefix child in
         if (0 <? List.length prefix)%nat then
           let char := nth_error prefix (List.length prefix - 1) in
           Map_set children char
             (Build_NodeMetadata prefix (response_numMessages child)
                                 (response_hash child) None)
         else children)
      (response_children response) [] in
  Build_NodeMetadata (response_prefix response) (response_numMessages response)
                     (response_hash response) (Some children).

(** [ourNode?.children?.get(char)?.hash] *)
Definition our_child_hash (ourNode : option NodeMetadata) (char : MapKey)
  : option string :=
  match ourNode with
  | Some node =>
      match node_children node with
      | Some children =>
          match Map_get children char with
          | Some child => Some (node_hash child)
          | None => None
          end
      | None => None
      end
  | None => None
  end.

(** [ours !== theirs], where [ours] may be [undefined]. *)
Definition hash_differs (ours : option string) (theirs : string) : bool :=
  match ours with
  | Some h => negb (String.eqb h theirs)
  | None => true
  end.

Section Engine.
(** The state of the peer and of the local store, and the events of the
    ID registry. *)
Variables (World IdRegistryEvent : Type).

(** The RPC client ([HubRpcClient]). *)
Variable getIdRegistryEvent : N -> World -> HubResult IdRegistryEvent * World.
Variable getAllSignerMessagesByFid : N -> World -> HubResult (list Message) * World.
Variable getAllSyncIdsByPrefix :
  Uint8Array -> World -> HubResult (list Uint8Array) * World.
Variable getSyncMetadataByPrefix :
  Uint8Array -> World -> HubResult TrieNodeMetadataResponse * World.

(** The storage engine ([Engine]). *)
Variable mergeIdRegistryEvent : IdRegistryEvent -> World -> HubResult unit * World.
Variable mergeMessages : list Message -> World -> list (HubResult unit) * World.
Variable mergeMessage : Message -> World -> HubResult unit * World.

(** [this._trie.getTrieNodeMetadata(prefix)] on the local trie, which
    does not change during a walk. *)
Variable getTrieNodeMetadata : Uint8Array -> option NodeMetadata.

Inductive Call : Type :=
| Call_getIdRegistryEvent (fid : N)
| Call_mergeIdRegistryEvent (event : IdRegistryEvent)
| Call_getAllSignerMessagesByFid (fid : N)
| Call_mergeMessages (messages : list Message)
| Call_mergeMessage (message : Message)
| Call_getAllSyncIdsByPrefix (prefix : Uint8Array)
| Call_getSyncMetadataByPrefix (prefix : Uint8Array).

(** A computation of the engine: from the world and the log before to a
    result and the world and the log after. *)
Definition M (A : Type) : Type := World * list Call -> A * (World * list Call).

Definition ret {A : Type} (a : A) : M A := fun st => (a, st).

Definition bind {A B : Type} (m : M A) (k : A -> M B) : M B :=
  fun st => let (a, st') := m st in k a st'.

Definition call {A : Type} (c : Call) (op : World -> A * World) : M A :=
  fun st => let (a, w') := op (fst st) in (a, (w', snd st ++ [c])).

Notation "x <- m ;; k" := (bind m (fun x => k))
  (at level 61, m at next level, right associativity).

(** The loop of [fetchMissingHashesByNode] over the children of the
    peer's node; [byPrefix] is [fetchMissingHashesByPrefix]. [None]
    when the walk is cut short. *)
Fixpoint for_each_child (byPrefix : Uint8Array -> M (option (list Uint8Array)))
    (ourNode : option NodeMetadata) (entries : list (MapKey * NodeMetadata))
    (missingHashes : list Uint8Array) : M (option (list Uint8Array)) :=
  match entries with
  | [] => ret (Some missingHashes)
  | (theirChildChar, theirChild) :: entries' =>
      if hash_differs (our_child_hash ourNode theirChildChar)
                      (node_hash theirChild)
      then
        r <- byPrefix (node_prefix theirChild) ;;
        match r with
        | Some ids =>
            for_each_child byPrefix ourNode entries' (missingHashes ++ ids)
        | None => ret None
        end
      else for_each_child byPrefix ourNode entries' missingHashes
  end.

Definition fetchMissingHashesByNode_with
    (byPrefix : Uint8Array -> M (option (list Uint8Array)))
    (theirNode : NodeMetadata) (ourNode : option NodeMetadata)
  : M (option (list Uint8Array)) :=
  if node_numMessages theirNode <=? HASHES_PER_FETCH then
    result <- call (Call_getAllSyncIdsByPrefix (node_prefix theirNode))
                   (getAllSyncIdsByPrefix (node_prefix theirNode)) ;;
    ret (Some (match result with Ok ids => ids | Err _ => [] end))
  else
    match node_children theirNode with
    | Some children => for_each_child byPrefix ourNode children []
    | None => ret (Some [])
    end.

(** The two functions call each other for as long as the peer answers
    with nodes of more than 50 messages: [fuel] bounds the depth of the
    walk, and the result is [None] when it runs out. *)
Fixpoint fetchMissingHashesByPrefix (fuel : nat) (prefix : Uint8Array)
  : M (option (list Uint8Array)) :=
  match fuel with
  | O => ret None
  | S fuel' =>
      let ourNode := getTrieNodeMetadata prefix in
      theirNodeResult <- call (Call_getSyncMetadataByPrefix prefix)
                              (getSyncMetadataByPrefix prefix) ;;
      match theirNodeResult with
      | Ok theirNode =>
          fetchMissingHashesByNode_with (fetchMissingHashesByPrefix fuel')
            (fromNodeMetadataResponse theirNode) ourNode
      | Err _ => ret (Some [])
      end
  end.

Definition fetchMissingHashesByNode (fuel : nat)
    (theirNode : NodeMetadata) (ourNode : option NodeMetadata)
  : M (option (list Uint8Array)) :=
  fetchMissingHashesByNode_with (fetchMissingHashesByPrefix fuel)
                                theirNode ourNode.

(** [message.data?.fid], and [!fid]: no data, or the fid 0. *)
Definition message_fid (message : Message) : option N :=
  match data message with
  | Some d => if (fid d =? 0)%N then None else Some (fid d)
  | None => None
  end.

Definition syncUserAndRetryMessage (message : Message) : M (HubResult unit) :=
  match message_fid message with
  | None => ret (Err (HubError_message "bad_request.invalid_param" "Invalid fid"))
  | Some fid =>
      custodyEventResult <- call (Call_getIdRegistryEvent fid)
                                 (getIdRegistryEvent fid) ;;
      match custodyEventResult with
      | Err _ =>
          ret (Err (HubError_message "unavailable.network_failure"
                                     "Failed to fetch custody event"))
      | Ok custodyEvent =>
          custodyResult <- call (Call_mergeIdRegistryEvent custodyEvent)
                                (mergeIdRegistryEvent custodyEvent) ;;
          match custodyResult with
          | Err _ =>
              ret (Err (HubError_message "unavailable.storage_failure"
                                         "Failed to merge custody event"))
          | Ok _ =>
              signerMessagesResult <-
                call (Call_getAllSignerMessagesByFid fid)
                     (getAllSignerMessagesByFid fid) ;;
              match signerMessagesResult with
              | Err _ =>
                  ret (Err (HubError_message "unavailable.network_failure"
                                             "Failed to fetch signer messages"))
              | Ok messages =>
                  results <- call (Call_mergeMessages messages)
                                  (mergeMessages messages) ;;
                  if forallb isErr results then
                    ret (Err (HubError_message "unavailable.storage_failure"
                                               "Failed to merge signer messages"))
                  else
                    retry <- call (Call_mergeMessage message)
                                  (mergeMessage message) ;;
                    ret (mapErr (HubError_cause "unavailable.storage_failure")
                                retry)
              end
          end
      end
  end.
End Engine.
End SyncEngine.

(** ** The class SyncId (syncId.ts) *)

Module SyncId.
Import SyncEngine.

Record SyncId : Type := {
  _fid : N;
  _hash : Uint8Array;
  _timestamp : N;
  _type : N
}.

(** [new SyncId(message)]: [message.data?.fid || 0] and so on. *)
Definition new_SyncId (message : Message) : SyncId :=
  {| _fid := match data message with Some d => fid d | None => 0%N end;
     _hash := hash message;
     _timestamp := match data message with Some d => timestamp d | None => 0%N end;
     _type := match data message with Some d => type_ d | None => 0%N end |}.

Section Store.
(** [makeMessagePrimaryKey] and [typeToSetPostfix] of storage/db/message
    are not among the sources: they are parameters, which may throw. *)
Variable makeMessagePrimaryKey : N -> N -> Uint8Array -> Completion Uint8Array.
Variable typeToSetPostfix : N -> Completion N.

(** [syncId()]: the timestamp in ten digits, then the key of the
    message in the store, made with the hash in the place of the
    tsHash. *)
Definition syncId (this : SyncId) : Completion Uint8Array :=
  let timestampString :=
    timestampToPaddedTimestampPrefix (inject_Z (Z.of_N (_timestamp this))) in
  match typeToSetPostfix (_type this) with
  | Abrupt e => Abrupt e
  | Normal postfix =>
      match makeMessagePrimaryKey (_fid this) postfix (_hash this) with
      | Abrupt e => Abrupt e
      | Normal buf => Normal (Buffer_from_string timestampString ++ buf)
      end
  end.
End Store.
End SyncId.

(** ** The rest of the sync engine (syncEngine.ts) and the conversion of
    the RPC server (server.ts) *)

Module SyncEngineMerge.
Import SyncEngine.

(** [toTrieNodeMetadataResponse(metadata)] of the RPC server
    (server.ts, in [getSyncMetadataByPrefix]): the node with one level of
    children; [TrieNodeMetadataResponse.create({})] is the response with
    the default of every field. *)
Definition toTrieNodeMetadataResponse (metadata : option NodeMetadata)
  : TrieNodeMetadataResponse :=
  match metadata with
  | None => Build_TrieNodeMetadataResponse [] 0 EmptyString []
  | Some metadata =>
      let childrenTrie :=
        match node_children metadata with
        | Some children =>
            map (fun e =>
                   Build_TrieNodeMetadataResponse
                     (node_prefix (snd e)) (node_numMessages (snd e))
                     (node_hash (snd e)) [])
                children
        | None => []
        end in
      Build_TrieNodeMetadataResponse
        (node_prefix metadata) (node_numMessages metadata) (node_hash metadata)
        childrenTrie
  end.

(** [snapshot.excludedHashes] *)
Definition excludedHashes_of (snapshot : TrieSnapshot) : list string :=
  excludedHashes snapshot.

(** [shouldSync(excludedHashes)]: [_isSyncing] is the flag of the engine
    and [snapshot] the value of the getter [this.snapshot], which reads
    the clock. *)
Definition shouldSync (_isSyncing : bool) (snapshot : HubResult TrieSnapshot)
    (excludedHashes : list string) : HubResult bool :=
  if _isSyncing then Ok false
  else
    match snapshot with
    | Err e => Err e
    | Ok ourSnapshot =>
        let ourExcludedHashes := excludedHashes_of ourSnapshot in
        let excludedHashesMatch :=
          (List.length ourExcludedHashes =? List.length excludedHashes)%nat
          && forallb (fun iv =>
                        match nth_error excludedHashes (fst iv) with
                        | Some h => String.eqb (snd iv) h
                        | None => false
                        end)
                     (combine (seq 0 (List.length ourExcludedHashes))
                              ourExcludedHashes) in
        Ok (negb excludedHashesMatch)
    end.

(** [a.data?.timestamp || 0] *)
Definition message_timestamp (message : Message) : N :=
  match data message with Some d => timestamp d | None => 0%N end.

(** [messages.sort((a, b) => (a.data?.timestamp || 0) - (b.data?.timestamp
    || 0))]: the sort is stable, so it is the insertion of each message
    behind those that are not later. *)
Fixpoint insert_by_timestamp (m : Message) (sorted : list Message) : list Message :=
  match sorted with
  | [] => [m]
  | x :: rest =>
      if (message_timestamp m <? message_timestamp x)%N
      then m :: x :: rest
      else x :: insert_by_timestamp m rest
  end.

Definition sort_by_timestamp (messages : list Message) : list Message :=
  fold_left (fun sorted m => insert_by_timestamp m sorted) messages [].

Section Engine.
Variables (World IdRegistryEvent : Type).
Variable getIdRegistryEvent : N -> World -> HubResult IdRegistryEvent * World.
Variable getAllSignerMessagesByFid : N -> World -> HubResult (list Message) * World.
Variable mergeIdRegistryEvent : IdRegistryEvent -> World -> HubResult unit * World.
Variable mergeMessages_engine : list Message -> World -> list (HubResult unit) * World.
Variable mergeMessage : Message -> World -> HubResult unit * World.

(** [error.message]: the constructor of [HubError] (of @farcaster/utils,
    not among the sources) fills it in. *)
Variable error_message : HubError -> string.

(** The test for an unknown user in [mergeMessages]. *)
Definition unknown_user (result : HubResult unit) : bool :=
  match result with
  | Ok _ => false
  | Err error =>
      String.eqb (errCode error) "bad_request.validation_failure"
      && (String.eqb (error_message error) "invalid signer"
          || String.prefix "unknown fid" (error_message error))
  end.

(** The loop of [mergeMessages] over the sorted messages. *)
Fixpoint merge_each (messages : list Message) (mergeResults : list (HubResult unit))
  : M World IdRegistryEvent (list (HubResult unit)) :=
  match messages with
  | [] => ret mergeResults
  | msg :: messages' =>
      bind (call (Call_mergeMessage _ msg) (mergeMessage msg))
           (fun result =>
              if unknown_user result then
                bind (syncUserAndRetryMessage getIdRegistryEvent
                        getAllSignerMessagesByFid mergeIdRegistryEvent
                        mergeMessages_engine mergeMessage msg)
                     (fun result' => merge_each messages' (mergeResults ++ [result']))
              else merge_each messages' (mergeResults ++ [result]))
  end.

(** [mergeMessages(messages, rpcClient)] of the sync engine. *)
Definition mergeMessages (messages : list Message)
  : M World IdRegistryEvent (list (HubResult unit)) :=
  merge_each (sort_by_timestamp messages) [].
End Engine.
End SyncEngineMerge.

(** * Vocabulary of the specification

    The notions in which the properties of the program are stated: the keys
    of a trie, the order of the children, the tries in canonical form, the
    tries that the operations build. *)

(** The order in which [sort()] leaves the keys of a map: the order of
    their string images. *)
Definition key_lt (a b : MapKey) : Prop :=
  String.ltb (key_toString a) (key_toString b) = true.

(** The keys below a node, in the order of the maps: what [getAllValues]
    returns ([getAllValues_keys_of]). *)
Fixpoint keys_of (n : TrieNode) : list Uint8Array :=
  match n with
  | Build_TrieNode _ _ ch k =>
      match ch with
      | [] => match k with Some key => [key] | None => [] end
      | _ :: _ => flat_map (fun e => keys_of (snd e)) ch
      end
  end.

Definition sum_items (ch : list (MapKey * TrieNode)) : Z :=
  fold_right (fun e acc => _items (snd e) + acc) 0 ch.

(** [k] starts with the bytes [pre]. *)
Definition starts_with (pre k : Uint8Array) : bool :=
  bytesCompare (firstn (List.length pre) k) pre =? 0.

(** The number that ten decimal digits denote. *)
Definition decimal_value (ds : Uint8Array) : Z :=
  fold_left (fun acc d => 10 * acc + digit_value d) ds 0.

Section Specification.
Context {B3 : Blake3}.

(** A leaf with its key, an internal node over its children, and the node
    that is left when the last key has been deleted. *)
Definition leaf_node (k : Uint8Array) : TrieNode :=
  Build_TrieNode (toString_hex (blake3 k)) 1 [] (Some k).

Definition internal_node (ch : list (MapKey * TrieNode)) : TrieNode :=
  Build_TrieNode (toString_hex (blake3 (children_digests ch)))
                 (sum_items ch) ch None.

Definition empty_node : TrieNode := Build_TrieNode EMPTY_HASH 0 [] None.

(** [Canon L p n]: [n] is the node at the end of the path [p] in a trie
    whose keys have [L] bytes. Below the timestamp prefix a subtree with a
    single key is a leaf; no node is empty; the children are in the order
    of the sort and the hashes and counts are up to date. *)
Inductive Canon (L : nat) : Uint8Array -> TrieNode -> Prop :=
| Canon_leaf p k :
    (TIMESTAMP_LENGTH <= List.length p)%nat ->
    (List.length p < L)%nat ->
    List.length k = L ->
    firstn (List.length p) k = p ->
    Canon L p (leaf_node k)
| Canon_internal p ch :
    ch <> [] ->
    StronglySorted key_lt (map fst ch) ->
    (forall n, ~ In (None, n) ch) ->
    (forall b n, In (Some b, n) ch -> Canon L (p ++ [b]) n) ->
    ((TIMESTAMP_LENGTH <= List.length p)%nat -> 2 <= sum_items ch) ->
    Canon L p (internal_node ch).

(** The nodes of a trie. *)
Inductive Subnode : TrieNode -> TrieNode -> Prop :=
| Subnode_refl n : Subnode n n
| Subnode_child n c m T :
    In (c, m) (_children T) -> Subnode n m -> Subnode n T.

(** Children in ascending numeric order of their bytes. *)
Definition ascending_bytes (keys : list MapKey) : Prop :=
  StronglySorted
    (fun a b => match a, b with
                | Some x, Some y => (Byte.to_N x < Byte.to_N y)%N
                | _, _ => False
                end) keys.

(** [syncIds.forEach((id) => trie.insert(id))] on the root; an exception
    ends the loop. *)
Fixpoint insert_forEach (syncIds : list Uint8Array) (root : TrieNode)
    : TrieNode * Completion unit :=
  match syncIds with
  | [] => (root, Normal tt)
  | id :: more =>
      match insert id 0 root with
      | (root', Normal _) => insert_forEach more root'
      | (root', Abrupt e) => (root', Abrupt e)
      end
  end.

Variable L : nat.

(** What [insert] of a key [s] of [L] bytes does to a canonical node [n]:
    - [true]: the node after is canonical, has one more item, and deleting
      [s] from it gives [n] back;
    - [false]: nothing has changed and [s] was there;
    - an exception: the string 'Key length exceeded', and some other key
      of [n] agrees with [s] on all bytes but the last. *)
Definition insert_outcome (s : Uint8Array) (rest : Uint8Array) (idx : nat)
    (p : Uint8Array) (n n' : TrieNode) (r : Completion bool) : Prop :=
  match r with
  | Normal true =>
      Canon L p n' /\ _items n' = _items n + 1
      /\ delete_at s rest idx n' = (n, Normal true)
      /\ (forall k, In k (keys_of n') <-> k = s \/ In k (keys_of n))
  | Normal false => n' = n /\ In s (keys_of n)
  | Abrupt e =>
      e = ThrowString "Key length exceeded"
      /\ exists k, In k (keys_of n) /\ k <> s
                   /\ firstn (L - 1) k = firstn (L - 1) s
  end.

(** What [delete] of a key [s] of [L] bytes does to a canonical node [n]:
    it returns, with [false] and no change, or with [true], one item
    less, and a node that is canonical again or empty. *)
Definition delete_outcome (p : Uint8Array) (n n' : TrieNode)
    (r : Completion bool) : Prop :=
  match r with
  | Normal true =>
      _items n' = _items n - 1 /\ (Canon L p n' \/ n' = empty_node)
  | Normal false => n' = n
  | Abrupt _ => False
  end.

(** The roots that [insert(key)] and [delete(key)] of keys of [L] bytes
    build from a new node, each call returning normally. *)
Inductive Reachable : TrieNode -> Prop :=
| Reachable_new : Reachable new_TrieNode
| Reachable_insert T key T' b :
    Reachable T -> List.length key = L ->
    insert key 0 T = (T', Normal b) -> Reachable T'
| Reachable_delete T key T' b :
    Reachable T -> List.length key = L ->
    delete key 0 T = (T', Normal b) -> Reachable T'.

(** The root of a trie: never touched, emptied by deletions, or
    canonical. *)
Definition RootInv (T : TrieNode) : Prop :=
  T = new_TrieNode \/ T = empty_node \/ Canon L [] T.

(** No two different keys of the list agree on all bytes but the last. *)
Definition no_clash (l : list Uint8Array) : Prop :=
  forall k1 k2, In k1 l -> In k2 l ->
                firstn (L - 1) k1 = firstn (L - 1) k2 -> k1 = k2.

End Specification.

Module SyncEngineSpec.
Import SyncEngine.

(** A call that reads from the peer, and the call that merges a message
    into the store. *)
Definition peer_read {IdRegistryEvent : Type} (c : Call IdRegistryEvent) : bool :=
  match c with
  | Call_getAllSyncIdsByPrefix _ _ | Call_getSyncMetadataByPrefix _ _ => true
  | _ => false
  end.


(** A computation that only adds calls of one kind to the log. *)
Definition only_calls {World IdRegistryEvent A : Type}
    (kind : Call IdRegistryEvent -> bool) (m : M World IdRegistryEvent A) : Prop :=
  forall w log, exists calls,
    snd (snd (m (w, log))) = log ++ calls /\ forallb kind calls = true.

(** The metadata of a node as the trie gives it: one level of children,
    each under the last byte of its prefix. *)
Definition one_level (metadata : NodeMetadata) : Prop :=
  exists children,
    node_children metadata = Some children
    /\ NoDup (map fst children)
    /\ forall c child, In (c, child) children ->
         node_children child = None
         /\ node_prefix child <> []
         /\ c = nth_error (node_prefix child) (List.length (node_prefix child) - 1).

Section Walk.
Variables (World IdRegistryEvent : Type).
Variable getAllSyncIdsByPrefix :
  Uint8Array -> World -> HubResult (list Uint8Array) * World.
Variable getSyncMetadataByPrefix :
  Uint8Array -> World -> HubResult TrieNodeMetadataResponse * World.
Variable getTrieNodeMetadata : Uint8Array -> option NodeMetadata.

(** Calling [fetchMissingHashesByPrefix] on a list of prefixes, one
    after the other, and collecting what they return. *)
Fixpoint visit (fuel : nat) (prefixes : list Uint8Array)
    (missingHashes : list Uint8Array)
  : M World IdRegistryEvent (option (list Uint8Array)) :=
  match prefixes with
  | [] => ret (Some missingHashes)
  | p :: prefixes' =>
      bind (fetchMissingHashesByPrefix getAllSyncIdsByPrefix getSyncMetadataByPrefix
                                       getTrieNodeMetadata fuel p)
           (fun r => match r with
                     | Some ids => visit fuel prefixes' (missingHashes ++ ids)
                     | None => ret None
                     end)
  end.

(** The children of the peer's node into which the walk goes: those
    whose hash is not the hash of the local child with the same key. *)
Definition to_visit (ourNode : option NodeMetadata)
    (children : list (MapKey * NodeMetadata)) : list (MapKey * NodeMetadata) :=
  filter (fun e => hash_differs (our_child_hash ourNode (fst e))
                                (node_hash (snd e))) children.
End Walk.
End SyncEngineSpec.

(** ** Example data

    BLAKE3 itself is not modelled. To run the code on examples, a 20-byte
    checksum stands for it; nothing but the length of a digest is used of
    it. *)

Definition checksum160 (msg : Uint8Array) : Uint8Array :=
  let sum :=
    fold_left (fun acc b => ((acc * 257 + Byte.to_N b + 1) mod 2 ^ 160)%N) msg 7%N in
  map (fun i =>
         match Byte.of_N ((sum / 2 ^ (8 * N.of_nat i)) mod 256)%N with
         | Some b => b
         | None => x00
         end)
      (seq 0 20).

Definition Checksum160 : Blake3.
Proof.
  refine {| blake3 := checksum160 |}.
  intro msg. unfold checksum160. now rewrite length_map, length_seq.
Defined.

(** Keys of 36 bytes: the timestamp 1665182332 in ten digits, the family
    prefix, a fid of four bytes, the set postfix and a hash of twenty
    bytes. [key_b] differs from [key_a] in the last byte only, [key_c] in
    the first byte of the hash (byte 16): 10 where [key_a] has 9. *)
Definition key_head : Uint8Array :=
  ["1"; "6"; "6"; "5"; "1"; "8"; "2"; "3"; "3"; "2";
   x01; x00; x00; x00; x07; x02]%byte.

Definition key_a : Uint8Array := key_head ++ repeat x09 20.
Definition key_b : Uint8Array := key_head ++ repeat x09 19 ++ [x0a].
Definition key_c : Uint8Array := key_head ++ [x0a] ++ repeat x09 19.

(** The tries in which [key_a], then [key_c], have been inserted, and the
    trie from which [key_a] has been deleted again. *)
Section ExampleTries.
#[local] Existing Instance Checksum160.

Definition trie_a : TrieNode := fst (insert key_a 0 new_TrieNode).
Definition trie_ac : TrieNode := fst (insert key_c 0 trie_a).
Definition trie_emptied : TrieNode := fst (delete key_a 0 trie_a).


(** The node of [trie_ac] below the sixteen bytes that the two keys share:
    its children are the bytes 10 and 9, in this order. *)
Definition node_16 : TrieNode :=
  match snd (getNode key_head trie_ac) with
  | Normal (Some n) => n
  | _ => new_TrieNode
  end.

(** The two keys inserted in the other order. *)
Definition trie_ca : TrieNode :=
  fst (insert key_a 0 (fst (insert key_c 0 new_TrieNode))).
End ExampleTries.

Module SyncEngineExamples.
Import SyncEngine.

(** A peer and a store that always give the same answers. *)

Definition example_message : Message :=
  {| data := Some {| fid := 7; timestamp := 1665182332; type_ := 1 |};
     hash := repeat x09 20 |}.

Definition example_signer : Message :=
  {| data := Some {| fid := 7; timestamp := 1665182300; type_ := 9 |};
     hash := repeat x0a 20 |}.

Definition invalid_signer : HubError :=
  HubError_message "bad_request.validation_failure" "invalid signer".

Definition peer_getIdRegistryEvent (f : N) (w : unit) : HubResult unit * unit :=
  (Ok tt, w).
Definition peer_getAllSignerMessagesByFid (f : N) (w : unit)
  : HubResult (list Message) * unit := (Ok [example_signer], w).
Definition peer_no_signers (f : N) (w : unit) : HubResult (list Message) * unit :=
  (Ok [], w).
Definition peer_getAllSyncIdsByPrefix (p : Uint8Array) (w : unit)
  : HubResult (list Uint8Array) * unit := (Ok [key_a], w).
Definition peer_getSyncMetadataByPrefix (p : Uint8Array) (w : unit)
  : HubResult TrieNodeMetadataResponse * unit :=
  (Ok (Build_TrieNodeMetadataResponse p 1 EmptyString []), w).
Definition store_mergeIdRegistryEvent (e : unit) (w : unit) : HubResult unit * unit :=
  (Ok tt, w).
Definition store_mergeMessages (ms : list Message) (w : unit)
  : list (HubResult unit) * unit := (map (fun _ => Ok tt) ms, w).
Definition store_mergeMessage_fails (m : Message) (w : unit) : HubResult unit * unit :=
  (Err invalid_signer, w).
Definition local_getTrieNodeMetadata (p : Uint8Array) : option NodeMetadata := None.

Definition peer_unreachable (f : N) (w : unit) : HubResult unit * unit :=
  (Err (HubError_message "unavailable.network_failure" "connection refused"), w).
Definition store_mergeIdRegistryEvent_fails (e : unit) (w : unit)
  : HubResult unit * unit :=
  (Err (HubError_message "bad_request.conflict" "event conflicts"), w).

Definition small_node : NodeMetadata := Build_NodeMetadata key_head 3 EmptyString None.

(** A node of the peer with two children, 9 and 10, of which the local
    node has the first, with the same hash. *)
Definition child_9 : NodeMetadata :=
  Build_NodeMetadata (key_head ++ [x09]) 30 "09" None.
Definition child_10 : NodeMetadata :=
  Build_NodeMetadata (key_head ++ [x0a]) 21 "0a" None.
Definition large_children : list (MapKey * NodeMetadata) :=
  [(Some x0a, child_10); (Some x09, child_9)].
Definition large_node : NodeMetadata :=
  Build_NodeMetadata key_head 51 "aa" (Some large_children).
Definition local_node : NodeMetadata :=
  Build_NodeMetadata key_head 30 "bb" (Some [(Some x09, child_9)]).

(** A store key of 26 bytes: the prefix of the user data, the fid in four
    bytes, the set and the hash. *)
Definition example_makeMessagePrimaryKey (fid set : N) (hash : Uint8Array)
  : Completion Uint8Array :=
  Normal ([x01] ++ uint32BE (Z.of_N fid) ++ skipn 3 (uint32BE (Z.of_N set)) ++ hash).
Definition example_typeToSetPostfix (type : N) : Completion N := Normal 2%N.

Definition example_snapshot : TrieSnapshot :=
  {| prefix := firstn 10 key_a; excludedHashes := ["aa"; "bb"]%string;
     numMessages := 3 |}.

Definition store_mergeMessage_ok (m : Message) (w : unit) : HubResult unit * unit :=
  (Ok tt, w).
Definition example_error_message (e : HubError) : string :=
  match e with
  | HubError_message _ message => message
  | HubError_cause _ _ => EmptyString
  end.
Definition later_message : Message :=
  {| data := Some {| fid := 7; timestamp := 1665182400; type_ := 1 |};
     hash := repeat x0b 20 |}.
End SyncEngineExamples.
(** * Properties *)

(** ** Bytes, hex strings and the order of the sort *)

Lemma MapKey_eqb_eq (a b : MapKey) : MapKey_eqb a b = true <-> a = b.
Proof.
  destruct a as [x|], b as [y|]; unfold MapKey_eqb; split; intro E;
    try discriminate; try reflexivity.
  - apply Byte.byte_dec_bl in E. now subst.
  - injection E as ->. now apply Byte.byte_dec_lb.
Qed.

Lemma MapKey_eqb_refl (a : MapKey) : MapKey_eqb a a = true.
Proof. now apply MapKey_eqb_eq. Qed.

Lemma MapKey_eqb_neq (a b : MapKey) : MapKey_eqb a b = false <-> a <> b.
Proof.
  split.
  - intros E F. apply MapKey_eqb_eq in F. congruence.
  - intro F. destruct (MapKey_eqb a b) eqn:E; [|reflexivity].
    apply MapKey_eqb_eq in E. contradiction.
Qed.

Lemma MapKey_eqb_sym (a b : MapKey) : MapKey_eqb a b = MapKey_eqb b a.
Proof.
  destruct (MapKey_eqb b a) eqn:E.
  - apply MapKey_eqb_eq in E. subst. apply MapKey_eqb_refl.
  - apply MapKey_eqb_neq in E. apply MapKey_eqb_neq. congruence.
Qed.

Lemma to_N_inj (x y : byte) : Byte.to_N x = Byte.to_N y -> x = y.
Proof.
  intro E. assert (F : Some x = Some y).
  { rewrite <- (Byte.of_to_N x), <- (Byte.of_to_N y). now rewrite E. }
  now injection F.
Qed.

Lemma bytesCompare_eq (a b : Uint8Array) : bytesCompare a b = 0 <-> a = b.
Proof.
  revert b. induction a as [|x a IH]; intros [|y b]; simpl;
    try (split; [discriminate | discriminate]); try tauto.
  destruct (N.compare (Byte.to_N x) (Byte.to_N y)) eqn:E.
  - apply N.compare_eq in E. apply to_N_inj in E. subst y.
    rewrite IH. split; congruence.
  - split; [discriminate|]. intros [= -> _]. rewrite N.compare_refl in E.
    discriminate.
  - split; [discriminate|]. intros [= -> _]. rewrite N.compare_refl in E.
    discriminate.
Qed.

Lemma bytesCompare_refl (a : Uint8Array) : (bytesCompare a a =? 0) = true.
Proof. apply Z.eqb_eq. now apply bytesCompare_eq. Qed.

Lemma bytesCompare_neq (a b : Uint8Array) :
  a <> b -> (bytesCompare a b =? 0) = false.
Proof. intro N. apply Z.eqb_neq. now rewrite bytesCompare_eq. Qed.

Lemma Buffer_from_hex_byte (b : byte) (s : string) :
  Buffer_from_hex (byte_toString_hex b s) = b :: Buffer_from_hex s.
Proof. destruct b; reflexivity. Qed.

(** Decoding the hex image of a buffer gives the buffer back. *)
Lemma Buffer_from_hex_toString (bs : Uint8Array) :
  Buffer_from_hex (toString_hex bs) = bs.
Proof.
  induction bs as [|b bs IH]; [reflexivity|].
  cbn [toString_hex]. now rewrite Buffer_from_hex_byte, IH.
Qed.

Lemma toString_hex_length (bs : Uint8Array) :
  String.length (toString_hex bs) = (2 * List.length bs)%nat.
Proof.
  induction bs as [|b bs IH]; [reflexivity|].
  cbn [toString_hex byte_toString_hex String.length List.length]. lia.
Qed.

Lemma digest_hex_nonempty `{Blake3} (msg : Uint8Array) :
  (toString_hex (blake3 msg)) <> EmptyString.
Proof.
  intro E. apply (f_equal String.length) in E.
  rewrite toString_hex_length, blake3_dkLen in E. discriminate.
Qed.

Lemma string_length_append (a b : string) :
  String.length (a ++ b) = (String.length a + String.length b)%nat.
Proof. induction a as [|x a IH]; simpl; [reflexivity | now rewrite IH]. Qed.

Lemma string_append_cancel_r (a b s : string) :
  (a ++ s)%string = (b ++ s)%string -> a = b.
Proof.
  revert b. induction a as [|x a IH]; intros [|y b] E; simpl in E.
  - reflexivity.
  - apply (f_equal String.length) in E. simpl in E.
    rewrite string_length_append in E. lia.
  - apply (f_equal String.length) in E. simpl in E.
    rewrite string_length_append in E. lia.
  - injection E as -> E. f_equal. now apply IH.
Qed.

Lemma number_toString_inj (n m : N) :
  number_toString n = number_toString m -> n = m.
Proof.
  unfold number_toString. intro E.
  assert (Hn : forall k, N.to_uint k <> Decimal.Nil).
  { intros [|p]; [discriminate|]. apply DecimalPos.Unsigned.to_uint_nonnil. }
  apply (f_equal NilZero.uint_of_string) in E.
  rewrite !NilZero.usu in E by apply Hn.
  injection E as E. now apply DecimalN.Unsigned.to_uint_inj.
Qed.

Lemma number_toString_nonempty (n : N) : number_toString n <> EmptyString.
Proof.
  unfold number_toString. intro E.
  assert (Hn : N.to_uint n <> Decimal.Nil).
  { destruct n as [|p]; [discriminate|]. apply DecimalPos.Unsigned.to_uint_nonnil. }
  apply (f_equal NilZero.uint_of_string) in E.
  rewrite NilZero.usu in E by exact Hn. discriminate.
Qed.

Lemma key_toString_inj (a b : MapKey) : key_toString a = key_toString b -> a = b.
Proof.
  unfold key_toString. intro E. apply string_append_cancel_r in E.
  destruct a as [x|], b as [y|].
  - apply number_toString_inj, to_N_inj in E. now subst.
  - now apply number_toString_nonempty in E.
  - symmetry in E. now apply number_toString_nonempty in E.
  - reflexivity.
Qed.

Lemma ltb_lt (s t : string) : String.ltb s t = true <-> String_as_OT.lt s t.
Proof.
  unfold String.ltb. rewrite <- String_as_OT.cmp_lt. unfold String_as_OT.cmp.
  destruct (String.compare s t); split; congruence.
Qed.

Lemma key_lt_trans (a b c : MapKey) : key_lt a b -> key_lt b c -> key_lt a c.
Proof.
  unfold key_lt. rewrite !ltb_lt. apply String_as_OT.lt_trans.
Qed.

Lemma key_lt_irrefl (a : MapKey) : ~ key_lt a a.
Proof.
  unfold key_lt. rewrite ltb_lt. intro L.
  apply String_as_OT.lt_not_eq in L. apply L. reflexivity.
Qed.

Lemma key_lt_total (a b : MapKey) : a <> b -> key_lt a b \/ key_lt b a.
Proof.
  intro N. unfold key_lt, String.ltb.
  rewrite (String.compare_antisym (key_toString b) (key_toString a)).
  destruct (String.compare (key_toString a) (key_toString b)) eqn:E;
    simpl; auto.
  apply String.compare_eq_iff, key_toString_inj in E. contradiction.
Qed.

Lemma key_lt_asym (a b : MapKey) : key_lt a b -> ~ key_lt b a.
Proof. intros L1 L2. exact (key_lt_irrefl (key_lt_trans L1 L2)). Qed.

(** ** The map of children as a list *)

Section MapFacts.
Variable V : Type.
Implicit Types (m acc l : list (MapKey * V)) (c k : MapKey) (v w : V)
  (e x : MapKey * V).

Lemma Map_get_In m c v : Map_get m c = Some v -> In (c, v) m.
Proof.
  induction m as [|[c' v'] m IH]; simpl; [discriminate|].
  destruct (MapKey_eqb c' c) eqn:E.
  - apply MapKey_eqb_eq in E. intros [= ->]. subst. now left.
  - intro G. right. now apply IH.
Qed.

Lemma Map_get_head m c v : Map_get ((c, v) :: m) c = Some v.
Proof. simpl. now rewrite MapKey_eqb_refl. Qed.

Lemma Map_set_nonempty m c v : Map_set m c v <> [].
Proof.
  destruct m as [|[c' v'] m]; simpl; [discriminate|].
  destruct (MapKey_eqb c' c); discriminate.
Qed.

Lemma sort_insert_nonempty e m : sort_insert e m <> [].
Proof.
  destruct m as [|y m]; simpl; [discriminate|].
  destruct (String.ltb _ _); discriminate.
Qed.

Lemma Map_get_None m c : Map_get m c = None <-> ~ In c (map fst m).
Proof.
  induction m as [|[c' v'] m IH]; simpl; [tauto|].
  destruct (MapKey_eqb c' c) eqn:E.
  - apply MapKey_eqb_eq in E. split; [discriminate|]. intro N. exfalso. auto.
  - apply MapKey_eqb_neq in E. rewrite IH. tauto.
Qed.

Lemma Map_get_set_same m c v : Map_get (Map_set m c v) c = Some v.
Proof.
  induction m as [|[c' v'] m IH]; simpl.
  - now rewrite MapKey_eqb_refl.
  - destruct (MapKey_eqb c' c) eqn:E; simpl.
    + now rewrite MapKey_eqb_refl.
    + now rewrite E.
Qed.

(** Writing back the child that was read leaves the map as it was. *)
Lemma Map_set_same m c v : Map_get m c = Some v -> Map_set m c v = m.
Proof.
  induction m as [|[c' v'] m IH]; simpl; [discriminate|].
  destruct (MapKey_eqb c' c) eqn:E.
  - apply MapKey_eqb_eq in E. intros [= ->]. now subst.
  - intro G. now rewrite IH.
Qed.

Lemma Map_set_set m c v w : Map_set (Map_set m c v) c w = Map_set m c w.
Proof.
  induction m as [|[c' v'] m IH]; simpl.
  - now rewrite MapKey_eqb_refl.
  - destruct (MapKey_eqb c' c) eqn:E; simpl.
    + now rewrite MapKey_eqb_refl.
    + now rewrite E, IH.
Qed.

Lemma Map_set_keys m c v w :
  Map_get m c = Some w -> map fst (Map_set m c v) = map fst m.
Proof.
  induction m as [|[c' v'] m IH]; simpl; [discriminate|].
  destruct (MapKey_eqb c' c) eqn:E; simpl.
  - apply MapKey_eqb_eq in E. now subst.
  - intro G. now rewrite IH.
Qed.

Lemma Map_set_new m c v : Map_get m c = None -> Map_set m c v = m ++ [(c, v)].
Proof.
  induction m as [|[c' v'] m IH]; simpl; [reflexivity|].
  destruct (MapKey_eqb c' c) eqn:E; [discriminate|].
  intro G. now rewrite IH.
Qed.

Lemma Map_set_In m c v k w :
  In (k, w) (Map_set m c v) -> (k = c /\ w = v) \/ In (k, w) m.
Proof.
  induction m as [|[c' v'] m IH]; simpl.
  - intros [[= -> ->]|[]]. now left.
  - destruct (MapKey_eqb c' c) eqn:E; simpl.
    + intros [[= -> ->]|I]; auto.
    + intros [I|I]; auto. destruct (IH I); auto.
Qed.

Lemma Map_delete_set m c v : Map_delete (Map_set m c v) c = Map_delete m c.
Proof.
  induction m as [|[c' v'] m IH]; simpl.
  - now rewrite MapKey_eqb_refl.
  - destruct (MapKey_eqb c' c) eqn:E; simpl.
    + now rewrite MapKey_eqb_refl.
    + now rewrite E, IH.
Qed.

Lemma Map_delete_In m c e : In e (Map_delete m c) -> In e m.
Proof.
  induction m as [|[c' v'] m IH]; simpl; [tauto|].
  destruct (MapKey_eqb c' c); simpl; intuition.
Qed.

Lemma Map_delete_sorted (R : MapKey -> MapKey -> Prop) m c :
  StronglySorted R (map fst m) -> StronglySorted R (map fst (Map_delete m c)).
Proof.
  induction m as [|[c' v'] m IH]; simpl; [auto|].
  intro S. apply StronglySorted_inv in S as [S F].
  destruct (MapKey_eqb c' c); simpl; [assumption|].
  constructor; [now apply IH|].
  rewrite Forall_forall in *. intros x I. apply F.
  apply in_map_iff in I as [e [<- I]]. apply in_map.
  eapply Map_delete_In; eassumption.
Qed.

Lemma sort_insert_In e x m : In e (sort_insert x m) <-> e = x \/ In e m.
Proof.
  induction m as [|y m IH]; simpl; [intuition|].
  destruct (String.ltb (entry_toString x) (entry_toString y)); simpl;
    [intuition|]. rewrite IH. intuition.
Qed.

Lemma sort_insert_get m c v :
  Map_get m c = None -> Map_get (sort_insert (c, v) m) c = Some v.
Proof.
  induction m as [|[c' v'] m IH]; simpl.
  - now rewrite MapKey_eqb_refl.
  - destruct (MapKey_eqb c' c) eqn:E; [discriminate|]. intro G.
    destruct (String.ltb _ _); simpl.
    + now rewrite MapKey_eqb_refl.
    + now rewrite E, IH.
Qed.

Lemma sort_insert_set m c v w :
  Map_get m c = None ->
  Map_set (sort_insert (c, v) m) c w = sort_insert (c, w) m.
Proof.
  induction m as [|[c' v'] m IH]; simpl.
  - now rewrite MapKey_eqb_refl.
  - destruct (MapKey_eqb c' c) eqn:E; [discriminate|]. intro G.
    unfold entry_toString; simpl.
    destruct (String.ltb _ _); simpl.
    + now rewrite MapKey_eqb_refl.
    + rewrite E. f_equal. now apply IH.
Qed.

Lemma sort_insert_delete m c v :
  Map_get m c = None -> Map_delete (sort_insert (c, v) m) c = m.
Proof.
  induction m as [|[c' v'] m IH]; simpl.
  - now rewrite MapKey_eqb_refl.
  - destruct (MapKey_eqb c' c) eqn:E; [discriminate|]. intro G.
    destruct (String.ltb _ _); simpl.
    + now rewrite MapKey_eqb_refl.
    + rewrite E. f_equal. now apply IH.
Qed.

Lemma sort_insert_sorted m c v :
  StronglySorted key_lt (map fst m) -> ~ In c (map fst m) ->
  StronglySorted key_lt (map fst (sort_insert (c, v) m)).
Proof.
  induction m as [|[c' v'] m IH]; simpl; intros S N.
  - constructor; constructor.
  - apply StronglySorted_inv in S as [S F].
    unfold entry_toString; simpl.
    destruct (String.ltb (key_toString c) (key_toString c')) eqn:L; simpl.
    + constructor; [constructor; assumption|].
      constructor; [exact L|].
      rewrite Forall_forall in *. intros x I.
      eapply key_lt_trans; [exact L | now apply F].
    + assert (L' : key_lt c' c).
      { destruct (@key_lt_total c' c) as [K|K]; [intuition | exact K |].
        unfold key_lt in K. congruence. }
      constructor; [apply IH; intuition|].
      rewrite Forall_forall in *. intros x I.
      apply in_map_iff in I as [e [<- I]].
      apply sort_insert_In in I as [->|I]; [exact L'|].
      apply F. now apply in_map.
Qed.

Lemma sort_insert_last e acc :
  Forall (fun x => key_lt (fst x) (fst e)) acc ->
  sort_insert e acc = acc ++ [e].
Proof.
  induction acc as [|y acc IH]; simpl; [reflexivity|].
  intro F. apply Forall_cons_iff in F as [L F].
  destruct (String.ltb (entry_toString e) (entry_toString y)) eqn:G.
  - exfalso. exact (key_lt_asym L G).
  - now rewrite IH.
Qed.

Lemma sort_fold_sorted l acc :
  StronglySorted key_lt (map fst (acc ++ l)) ->
  fold_left (fun a e => sort_insert e a) l acc = acc ++ l.
Proof.
  revert acc. induction l as [|x l IH]; intros acc S; simpl.
  - now rewrite app_nil_r.
  - assert (E : sort_insert x acc = acc ++ [x]).
    { apply sort_insert_last. rewrite map_app in S. simpl in S.
      clear IH. induction acc as [|y acc IHa]; [constructor|].
      simpl in S. apply StronglySorted_inv in S as [S F].
      constructor; [|now apply IHa].
      rewrite Forall_forall in F. apply F. apply in_or_app. right. now left. }
    rewrite E, IH; rewrite <- app_assoc; [reflexivity | exact S].
Qed.

(** Sorting a sorted map does nothing, and sorting a sorted map with one
    more entry at its end puts that entry in its place. *)
Lemma Array_sort_sorted m :
  StronglySorted key_lt (map fst m) -> Array_sort m = m.
Proof. intro S. unfold Array_sort. now rewrite sort_fold_sorted. Qed.

Lemma Array_sort_snoc m e :
  StronglySorted key_lt (map fst m) ->
  Array_sort (m ++ [e]) = sort_insert e m.
Proof.
  intro S. unfold Array_sort. rewrite fold_left_app. simpl.
  now rewrite sort_fold_sorted.
Qed.

(** In a map sorted by its keys a key occurs once. *)
Lemma Map_get_sorted m c v :
  StronglySorted key_lt (map fst m) -> In (c, v) m -> Map_get m c = Some v.
Proof.
  induction m as [|[c' v'] m IH]; simpl; intros S I; [contradiction|].
  apply StronglySorted_inv in S as [S F].
  destruct (MapKey_eqb c' c) eqn:E.
  - apply MapKey_eqb_eq in E. subst c'. destruct I as [[= ->]|I]; [reflexivity|].
    exfalso. rewrite Forall_forall in F.
    apply (@key_lt_irrefl c). apply F. apply in_map_iff. now exists (c, v).
  - apply MapKey_eqb_neq in E. destruct I as [[= -> ->]|I]; [congruence|].
    now apply IH.
Qed.

Lemma Map_set_In_iff m c v old e :
  StronglySorted key_lt (map fst m) -> Map_get m c = Some old ->
  (In e (Map_set m c v) <-> e = (c, v) \/ (In e m /\ fst e <> c)).
Proof.
  induction m as [|[c' v'] m IH]; simpl; intros S G; [discriminate|].
  apply StronglySorted_inv in S as [S F].
  destruct (MapKey_eqb c' c) eqn:E.
  - apply MapKey_eqb_eq in E. subst c'. simpl. split.
    + intros [<-|I]; [now left|]. right. split; [now right|].
      intros Ec. rewrite Forall_forall in F. apply (@key_lt_irrefl c).
      apply F. rewrite <- Ec. now apply in_map.
    + intros [->|[[<-|I] N]]; [now left | now contradiction N|].
      now right.
  - apply MapKey_eqb_neq in E. simpl. rewrite (IH S G). split.
    + intros [<-|[->|[I N]]]; [right; split; [now left | exact E] | now left |].
      right. split; [now right | exact N].
    + intros [->|[[<-|I] N]]; [right; now left | now left |].
      right. right. now split.
Qed.
End MapFacts.

(** ** Canonical tries *)

Lemma TrieNode_induction (P : TrieNode -> Prop) :
  (forall h i ch k, Forall (fun e => P (snd e)) ch -> P (Build_TrieNode h i ch k)) ->
  forall n, P n.
Proof.
  intro H. fix IH 1. intros [h i ch k]. apply H.
  induction ch as [|[c n] ch IHch]; constructor; [apply IH | exact IHch].
Qed.

Section Canonical.
Context {B3 : Blake3}.

Lemma sum_items_ge ch :
  (forall e, In e ch -> 1 <= _items (snd e)) ->
  Z.of_nat (List.length ch) <= sum_items ch.
Proof.
  induction ch as [|e ch IH]; intro H; [simpl; lia|].
  cbn [sum_items fold_right List.length]. fold (sum_items ch).
  specialize (H e (or_introl eq_refl)) as H1.
  assert (Z.of_nat (List.length ch) <= sum_items ch) by (apply IH; intros; apply H; now right).
  lia.
Qed.

Lemma sum_items_set ch c v old :
  Map_get ch c = Some old ->
  sum_items (Map_set ch c v) = sum_items ch - _items old + _items v.
Proof.
  induction ch as [|[c' v'] ch IH]; simpl; [discriminate|].
  destruct (MapKey_eqb c' c); simpl.
  - intros [= ->]. lia.
  - intro G. fold (sum_items (Map_set ch c v)). fold (sum_items ch).
    rewrite IH by exact G. lia.
Qed.

Lemma sum_items_delete ch c old :
  Map_get ch c = Some old ->
  sum_items (Map_delete ch c) = sum_items ch - _items old.
Proof.
  induction ch as [|[c' v'] ch IH]; simpl; [discriminate|].
  destruct (MapKey_eqb c' c); simpl.
  - intros [= ->]. fold (sum_items ch). lia.
  - intro G. fold (sum_items (Map_delete ch c)). fold (sum_items ch).
    rewrite IH by exact G. lia.
Qed.

Lemma sum_items_sort_insert e ch :
  sum_items (sort_insert e ch) = _items (snd e) + sum_items ch.
Proof.
  induction ch as [|x ch IH]; simpl; [reflexivity|].
  destruct (String.ltb _ _); simpl; [reflexivity|].
  fold (sum_items (sort_insert e ch)). fold (sum_items ch). rewrite IH. lia.
Qed.

Lemma Canon_items_pos L p n : Canon L p n -> 1 <= _items n.
Proof.
  induction 1 as [p k _ _ _ _ | p ch Hne _ Hnone Hc IH _]; simpl; [lia|].
  assert (G : Z.of_nat (List.length ch) <= sum_items ch).
  { apply sum_items_ge. intros [[b|] n] I; simpl; [eauto|].
    exfalso. eapply Hnone; eauto. }
  destruct ch; [congruence|]. simpl List.length in G. lia.
Qed.

Lemma Canon_children_pos L p ch :
  (forall n, ~ In (None, n) ch) ->
  (forall b n, In (Some b, n) ch -> Canon L (p ++ [b]) n) ->
  forall e, In e ch -> 1 <= _items (snd e).
Proof.
  intros Hnone Hc [[b|] n] I; simpl.
  - eapply Canon_items_pos; eauto.
  - exfalso. eapply Hnone; eauto.
Qed.

Lemma Canon_depth L p n : Canon L p n -> (List.length p < L)%nat.
Proof.
  induction 1 as [p k _ ? _ _ | p ch Hne _ Hnone Hc IH _]; [assumption|].
  destruct ch as [|[[b|] n] ch]; [congruence| |].
  - specialize (IH b n (or_introl eq_refl)).
    rewrite length_app in IH. simpl in IH. lia.
  - exfalso. apply (Hnone n). now left.
Qed.

Lemma Canon_hash L p n : Canon L p n -> _hash n <> EmptyString.
Proof. destruct 1; simpl; apply digest_hex_nonempty. Qed.

Lemma Canon_isLeaf_key L p n :
  Canon L p n -> isLeaf n = true -> exists k, n = leaf_node k.
Proof.
  destruct 1 as [p k | p ch Hne]; intro E; [eauto|].
  destruct ch; [congruence | discriminate].
Qed.

(** Below the timestamp prefix a node with one item is a leaf. *)
Lemma Canon_single L p n :
  Canon L p n -> (TIMESTAMP_LENGTH <= List.length p)%nat -> _items n = 1 ->
  exists k, n = leaf_node k /\ List.length k = L /\ firstn (List.length p) k = p.
Proof.
  destruct 1 as [p k | p ch Hne ? ? ? H2]; intros D I; [eauto|].
  simpl in I. specialize (H2 D). lia.
Qed.

Lemma keys_of_leaf k : keys_of (leaf_node k) = [k].
Proof. reflexivity. Qed.

Lemma keys_of_internal ch :
  ch <> [] -> keys_of (internal_node ch) = flat_map (fun e => keys_of (snd e)) ch.
Proof. destruct ch; [congruence | reflexivity]. Qed.

Lemma In_keys_of_internal ch k :
  ch <> [] ->
  (In k (keys_of (internal_node ch)) <->
   exists e, In e ch /\ In k (keys_of (snd e))).
Proof. intro N. rewrite keys_of_internal by exact N. apply in_flat_map. Qed.

Lemma keys_of_child ch c child k :
  In (c, child) ch -> In k (keys_of child) -> In k (keys_of (internal_node ch)).
Proof.
  intros I K. rewrite keys_of_internal by (intros ->; contradiction).
  apply in_flat_map. exists (c, child). auto.
Qed.

(** Every key below a canonical node has [L] bytes and starts with the
    path of the node. *)
Lemma Canon_keys L p n :
  Canon L p n ->
  forall k, In k (keys_of n) ->
  List.length k = L /\ firstn (List.length p) k = p.
Proof.
  induction 1 as [p k0 _ _ HL Hp | p ch Hne _ Hnone Hc IH _]; intros k I.
  - rewrite keys_of_leaf in I. destruct I as [<-|[]]. auto.
  - rewrite keys_of_internal in I by assumption.
    apply in_flat_map in I as [[[b|] n] [I K]]; simpl in K.
    + destruct (IH b n I k K) as [HL Hp]. split; [assumption|].
      rewrite length_app in Hp. simpl in Hp.
      apply (f_equal (firstn (List.length p))) in Hp.
      rewrite firstn_firstn in Hp.
      rewrite Nat.min_l in Hp by lia.
      rewrite firstn_app, firstn_all, Nat.sub_diag in Hp. simpl in Hp.
      now rewrite app_nil_r in Hp.
    + exfalso. eapply Hnone; eauto.
Qed.
End Canonical.

(** ** One step of the methods *)

Section Steps.
Context {B3 : Blake3}.

Lemma updateHash_internal h i ch k :
  ch <> [] ->
  _updateHash (Build_TrieNode h i ch k) =
  Build_TrieNode (toString_hex (blake3 (children_digests ch))) i ch k.
Proof. destruct ch; [congruence | reflexivity]. Qed.

Lemma updateHash_leaf h i k :
  _updateHash (Build_TrieNode h i [] k) =
  Build_TrieNode (toString_hex (blake3Truncate160 k)) i [] k.
Proof. reflexivity. Qed.

Lemma insert_child_has rec char this child :
  Map_get (_children this) char = Some child ->
  insert_child rec char this =
  let (child', r) := rec child in
  let this3 := set_children this (Map_set (_children this) char child') in
  match r with
  | Abrupt e => (this3, Abrupt e)
  | Normal true => (_updateHash (set_items this3 (_items this + 1)), Normal true)
  | Normal false => (this3, Normal false)
  end.
Proof.
  intro G. unfold insert_child, Map_has. rewrite G. cbv beta iota.
  unfold call_child. rewrite G.
  destruct (rec child) as [child' [[|]|e]]; reflexivity.
Qed.

Lemma addChild_new char this :
  Map_get (_children this) char = None ->
  StronglySorted key_lt (map fst (_children this)) ->
  _addChild char this =
  set_children this (sort_insert (char, new_TrieNode) (_children this)).
Proof.
  intros G S. unfold _addChild.
  now rewrite Map_set_new, Array_sort_snoc.
Qed.

Lemma insert_child_new rec char this :
  Map_get (_children this) char = None ->
  StronglySorted key_lt (map fst (_children this)) ->
  insert_child rec char this =
  let (child', r) := rec new_TrieNode in
  let this3 := set_children this (sort_insert (char, child') (_children this)) in
  match r with
  | Abrupt e => (this3, Abrupt e)
  | Normal true => (_updateHash (set_items this3 (_items this + 1)), Normal true)
  | Normal false => (this3, Normal false)
  end.
Proof.
  intros G S. unfold insert_child, Map_has. rewrite G. cbv beta iota.
  rewrite addChild_new by assumption. unfold call_child.
  destruct this as [h i ch k]; simpl in *.
  rewrite sort_insert_get by assumption.
  destruct (rec new_TrieNode) as [child' r].
  rewrite sort_insert_set by assumption.
  destruct r as [[|]|e]; reflexivity.
Qed.

(** [insert] where the receiver is not a leaf, or above the end of the
    timestamp prefix: no key is set and no leaf is split. *)
Lemma insert_at_descend key c rest idx this :
  ((TIMESTAMP_LENGTH <=? idx)%nat && isLeaf this = false) ->
  insert_at key (c :: rest) idx this =
  insert_child (insert_at key rest (S idx)) (Some c) this.
Proof. intro E. cbn [insert_at]. now rewrite E. Qed.

Lemma insert_at_new_TrieNode key rest idx :
  insert_at key rest idx new_TrieNode = insert_new_at key rest idx.
Proof.
  revert idx. induction rest as [|c rest IH]; intro idx; [reflexivity|].
  cbn [insert_at insert_new_at].
  destruct (TIMESTAMP_LENGTH <=? idx)%nat eqn:E; [reflexivity|].
  cbn [andb]. rewrite !insert_child_new by (try reflexivity; constructor).
  now rewrite IH.
Qed.

(** On a leaf, the child on which [_splitLeafNode] calls [insert] is the
    [new TrieNode()] that [_addChild] has just stored, and the call is the
    one of the source, [this._children.get(newChildChar)?.insert(this._key,
    current_index + 1)]. *)
Lemma splitLeafNode_receiver idx this k :
  isLeaf this = true -> _key this = Some k ->
  Map_get (_children (_addChild (nth_error k idx) this)) (nth_error k idx)
  = Some new_TrieNode
  /\ _splitLeafNode idx this =
     match call_child (nth_error k idx) (insert k (S idx))
                      (_addChild (nth_error k idx) this) with
     | (this2, Some (Abrupt e)) => (this2, Abrupt e)
     | (this2, _) => (_setKeyValue None this2, Normal tt)
     end.
Proof.
  destruct this as [h i [|e ch] key]; [|discriminate]. intros _ K.
  simpl in K. subst key.
  unfold _splitLeafNode, _addChild, call_child, set_children, insert.
  cbn [_children _key _hash _items Map_set Array_sort fold_left sort_insert Map_get].
  rewrite MapKey_eqb_refl, insert_at_new_TrieNode. split; reflexivity.
Qed.
(** [insert] in the general form of the source, at an index within the
    key. *)
Lemma insert_unfold key idx this c rest :
  skipn idx key = c :: rest ->
  insert key idx this = insert_at key (c :: rest) idx this
  /\ skipn (S idx) key = rest /\ nth_error key idx = Some c.
Proof.
  intro E. unfold insert. rewrite E. split; [reflexivity|].
  split.
  - replace (S idx) with (1 + idx)%nat by reflexivity.
    rewrite <- skipn_skipn, E. reflexivity.
  - rewrite <- (firstn_skipn idx key) at 1.
    assert (Hl : (idx <= List.length key)%nat).
    { destruct (Nat.le_gt_cases idx (List.length key)) as [?|G]; [assumption|].
      rewrite skipn_all2 in E by lia. discriminate. }
    rewrite nth_error_app2; rewrite firstn_length_le by exact Hl; [|lia].
    rewrite Nat.sub_diag, E. reflexivity.
Qed.

Lemma delete_at_leaf key rest idx this :
  isLeaf this = true ->
  delete_at key rest idx this =
  if bytesCompare (key_or_empty this) key =? 0
  then (_setKeyValue None (set_items this (_items this - 1)), Normal true)
  else (this, Normal false).
Proof. intro E. destruct rest; cbn [delete_at]; now rewrite E. Qed.

Lemma delete_at_internal key c rest idx this child :
  isLeaf this = false ->
  Map_get (_children this) (Some c) = Some child ->
  delete_at key (c :: rest) idx this =
  let (child', r) := delete_at key rest (S idx) child in
  let this1 := set_children this (Map_set (_children this) (Some c) child') in
  match r with
  | Abrupt e => (this1, Abrupt e)
  | Normal false => (this1, Normal false)
  | Normal true => (delete_child_done (Some c) idx this1, Normal true)
  end.
Proof.
  intros E G. cbn [delete_at]. rewrite E. unfold call_child. rewrite G.
  destruct (delete_at key rest (S idx) child) as [child' [[|]|e]]; reflexivity.
Qed.

Lemma delete_at_internal_none key c rest idx this :
  isLeaf this = false ->
  Map_get (_children this) (Some c) = None ->
  delete_at key (c :: rest) idx this = (this, Normal false).
Proof.
  intros E G. cbn [delete_at]. rewrite E. unfold call_child. now rewrite G.
Qed.

Lemma delete_leaf_node k rest idx :
  delete_at k rest idx (leaf_node k) = (empty_node, Normal true).
Proof.
  rewrite delete_at_leaf by reflexivity.
  cbn [key_or_empty _key leaf_node]. now rewrite bytesCompare_refl.
Qed.

Lemma delete_child_done_eq char idx h i ch k child' :
  Map_get ch char = Some child' ->
  delete_child_done char idx (Build_TrieNode h i ch k) =
  let ch3 := if _items child' =? 0 then Map_delete ch char else ch in
  let this3 := Build_TrieNode h (i - 1) ch3 k in
  _updateHash
    (if (i - 1 =? 1) && (Map_size ch3 =? 1) && (TIMESTAMP_LENGTH <=? idx)%nat
     then compact this3 else this3).
Proof.
  intro G. unfold delete_child_done, set_items, set_children.
  cbn [_hash _items _children _key]. rewrite G.
  destruct (_items child' =? 0); reflexivity.
Qed.

Lemma compact_single h i c0 child0 k k0 :
  _key child0 = Some k0 ->
  _updateHash (compact (Build_TrieNode h i [(c0, child0)] k)) = 
  Build_TrieNode (toString_hex (blake3 k0)) i [] (Some k0).
Proof.
  intro G. unfold compact. cbn [_children]. rewrite G.
  unfold _setKeyValue, set_key, set_children.
  cbn [_hash _items _children _key].
  rewrite (@updateHash_internal h i [(c0, child0)] (Some k0)) by discriminate.
  cbn [_hash _items _children _key Map_delete].
  now rewrite MapKey_eqb_refl.
Qed.

Lemma internal_node_eq h i ch :
  ch <> [] -> i = sum_items ch ->
  _updateHash (Build_TrieNode h i ch None) = internal_node ch.
Proof. intros N ->. now rewrite updateHash_internal. Qed.

(** The three ways [delete] leaves a node whose child has deleted the
    key: still internal, compacted into a leaf, or empty. *)
Lemma delete_child_done_keep char idx h i ch child' ch3 :
  Map_get ch char = Some child' ->
  ch3 = (if _items child' =? 0 then Map_delete ch char else ch) ->
  ch3 <> [] ->
  ((TIMESTAMP_LENGTH <= idx)%nat -> i - 1 <> 1) ->
  i - 1 = sum_items ch3 ->
  delete_child_done char idx (Build_TrieNode h i ch None) = internal_node ch3.
Proof.
  intros G E N C S. rewrite delete_child_done_eq with (child' := child') by exact G.
  cbv zeta. rewrite <- E.
  assert (F : (i - 1 =? 1) && (Map_size ch3 =? 1)
              && (TIMESTAMP_LENGTH <=? idx)%nat = false).
  { destruct (TIMESTAMP_LENGTH <=? idx)%nat eqn:D.
    - apply Nat.leb_le in D. apply C in D. apply Z.eqb_neq in D.
      now rewrite D.
    - apply andb_false_r. }
  rewrite F. now apply internal_node_eq.
Qed.

Lemma delete_child_done_compact char idx h i ch child' c0 k0 :
  Map_get ch char = Some child' ->
  (if _items child' =? 0 then Map_delete ch char else ch) = [(c0, leaf_node k0)] ->
  (TIMESTAMP_LENGTH <= idx)%nat ->
  i - 1 = 1 ->
  delete_child_done char idx (Build_TrieNode h i ch None) = leaf_node k0.
Proof.
  intros G E D I. rewrite delete_child_done_eq with (child' := child') by exact G.
  cbv zeta. rewrite E, I. apply Nat.leb_le in D. rewrite D.
  cbn [Z.eqb Pos.eqb Map_size List.length Z.of_nat Pos.of_succ_nat andb].
  now rewrite compact_single with (k0 := k0).
Qed.

Lemma delete_child_done_empty char idx h i ch child' :
  Map_get ch char = Some child' ->
  (if _items child' =? 0 then Map_delete ch char else ch) = [] ->
  i - 1 = 0 ->
  delete_child_done char idx (Build_TrieNode h i ch None) = empty_node.
Proof.
  intros G E I. rewrite delete_child_done_eq with (child' := child') by exact G.
  cbv zeta. rewrite E, I. reflexivity.
Qed.

(** Splitting a leaf below the timestamp prefix: the resident key moves to
    a new child, unless the leaf sits on the last byte of its key, where
    the insertion into the new child runs past the end of the key. *)
Lemma splitLeafNode_leaf p kc ksuf :
  (TIMESTAMP_LENGTH <= List.length p)%nat -> ksuf <> [] ->
  let k := p ++ kc :: ksuf in
  _splitLeafNode (List.length p) (leaf_node k) =
  (Build_TrieNode (toString_hex (blake3 (children_digests [(Some kc, leaf_node k)])))
                  1 [(Some kc, leaf_node k)] None,
   Normal tt).
Proof.
  intros D N k. unfold _splitLeafNode. cbn [_key leaf_node].
  assert (E1 : nth_error k (List.length p) = Some kc).
  { unfold k. rewrite nth_error_app2 by lia. now rewrite Nat.sub_diag. }
  assert (E2 : skipn (S (List.length p)) k = ksuf).
  { unfold k. rewrite skipn_app, skipn_all2 by lia.
    replace (S (List.length p) - List.length p)%nat with 1%nat by lia.
    reflexivity. }
  rewrite E1, E2.
  rewrite addChild_new by (try reflexivity; constructor).
  unfold call_child, set_children, leaf_node.
  cbn [_children _hash _items _key sort_insert]. rewrite Map_get_head.
  destruct ksuf as [|x ksuf]; [congruence|]. cbn [insert_new_at].
  apply Nat.leb_le in D.
  assert (D' : (TIMESTAMP_LENGTH <=? S (List.length p))%nat = true).
  { apply Nat.leb_le. apply Nat.leb_le in D. lia. }
  rewrite D'. cbn [Map_set]. rewrite MapKey_eqb_refl. reflexivity.
Qed.

Lemma splitLeafNode_last p kc :
  let k := p ++ [kc] in
  snd (_splitLeafNode (List.length p) (leaf_node k)) =
  Abrupt (ThrowString "Key length exceeded").
Proof.
  intro k. unfold _splitLeafNode. cbn [_key leaf_node].
  assert (E1 : nth_error k (List.length p) = Some kc).
  { unfold k. rewrite nth_error_app2 by lia. now rewrite Nat.sub_diag. }
  assert (E2 : skipn (S (List.length p)) k = []).
  { apply skipn_all2. unfold k. rewrite length_app. simpl. lia. }
  rewrite E1, E2.
  rewrite addChild_new by (try reflexivity; constructor).
  unfold call_child, set_children, leaf_node.
  cbn [_children _hash _items _key sort_insert]. rewrite Map_get_head. reflexivity.
Qed.
End Steps.

Section InsertNew.
Context {B3 : Blake3}.
Variable L : nat.
Hypothesis L_timestamp : (TIMESTAMP_LENGTH < L)%nat.

Lemma firstn_app_exact (p r : Uint8Array) : firstn (List.length p) (p ++ r) = p.
Proof.
  rewrite firstn_app, firstn_all, Nat.sub_diag. simpl. apply app_nil_r.
Qed.

(** Inserting a key into a new node gives the canonical node for that
    key alone, and deleting the key from it leaves the empty node. *)
Lemma insert_new_at_Canon rest :
  forall p, rest <> [] -> List.length (p ++ rest) = L ->
  exists n',
    insert_new_at (p ++ rest) rest (List.length p) = (n', Normal true)
    /\ Canon L p n' /\ _items n' = 1 /\ keys_of n' = [p ++ rest]
    /\ delete_at (p ++ rest) rest (List.length p) n' = (empty_node, Normal true).
Proof.
  induction rest as [|c rest IH]; intros p Hne HL; [congruence|].
  cbn [insert_new_at].
  destruct (TIMESTAMP_LENGTH <=? List.length p)%nat eqn:E.
  - apply Nat.leb_le in E. exists (leaf_node (p ++ c :: rest)).
    split; [reflexivity|]. split.
    { constructor; try assumption.
      - rewrite length_app in HL. simpl in HL. lia.
      - apply firstn_app_exact. }
    split; [reflexivity|]. split; [reflexivity|].
    apply delete_leaf_node.
  - apply Nat.leb_gt in E.
    assert (Hrest : rest <> []).
    { intros ->. rewrite length_app in HL. simpl in HL. unfold TIMESTAMP_LENGTH in *. lia. }
    assert (Hk : p ++ c :: rest = (p ++ [c]) ++ rest) by now rewrite <- app_assoc.
    assert (Hi : S (List.length p) = List.length (p ++ [c])).
    { rewrite length_app. simpl. lia. }
    destruct (IH (p ++ [c]) Hrest) as (ch' & Hins & HC & Hit & Hk' & Hdel).
    { now rewrite <- Hk. }
    rewrite insert_child_new by (try reflexivity; constructor).
    rewrite Hk, Hi, Hins.
    exists (internal_node [(Some c, ch')]).
    split.
    { unfold internal_node, set_items, set_children, new_TrieNode.
      cbn [_hash _items _children _key sort_insert sum_items fold_right snd].
      rewrite updateHash_internal by discriminate. rewrite Hit. reflexivity. }
    split.
    { constructor.
      - discriminate.
      - repeat constructor.
      - intros n [[=]|[]].
      - intros b n [[= <- <-]|[]]. exact HC.
      - intro. unfold TIMESTAMP_LENGTH in *. lia. }
    split. { simpl. lia. }
    split. { simpl. rewrite Hk'. reflexivity. }
    rewrite <- Hk. rewrite (@delete_at_internal _ _ _ _ _ _ ch');
      [|reflexivity| simpl; now rewrite MapKey_eqb_refl].
    rewrite Hk, Hi, Hdel.
    unfold internal_node, set_children.
    cbn [_hash _items _children _key Map_set sum_items fold_right snd].
    rewrite MapKey_eqb_refl.
    rewrite (@delete_child_done_eq _ _ _ _ _ _ _ empty_node)
      by (simpl; now rewrite MapKey_eqb_refl).
    rewrite Hit.
    change (_items empty_node =? 0) with true. cbv beta iota zeta.
    cbn [Map_delete]. rewrite MapKey_eqb_refl. reflexivity.
Qed.

Lemma insert_new_Canon s p rest idx :
  s = p ++ rest -> idx = List.length p -> rest <> [] -> List.length s = L ->
  exists n',
    insert_new_at s rest idx = (n', Normal true)
    /\ Canon L p n' /\ _items n' = 1 /\ keys_of n' = [s]
    /\ delete_at s rest idx n' = (empty_node, Normal true).
Proof. intros -> -> Hne HL. now apply insert_new_at_Canon. Qed.
End InsertNew.

(** ** Insertion into a canonical trie *)

Section InsertCanon.
Context {B3 : Blake3}.
Variable L : nat.
Hypothesis L_timestamp : (TIMESTAMP_LENGTH < L)%nat.

Lemma prefix_split (k p : Uint8Array) :
  firstn (List.length p) k = p -> (List.length p < List.length k)%nat ->
  exists kc ksuf, k = p ++ kc :: ksuf.
Proof.
  intros F D. rewrite <- (firstn_skipn (List.length p) k), F.
  destruct (skipn (List.length p) k) as [|kc ksuf] eqn:E.
  - apply (f_equal (@List.length _)) in E. rewrite length_skipn in E.
    simpl in E. lia.
  - eauto.
Qed.

Lemma insert_at_Canon s (Hs : List.length s = L) rest :
  forall p idx n,
    Canon L p n -> idx = List.length p -> s = p ++ rest ->
    exists n' r,
      insert_at s rest idx n = (n', r) /\ insert_outcome L s rest idx p n n' r.
Proof.
  induction rest as [|c rest IH]; intros p idx n HC -> Hsp.
  { apply Canon_depth in HC. rewrite Hsp, length_app in Hs. simpl in Hs. lia. }
  assert (Hk : s = (p ++ [c]) ++ rest) by now rewrite <- app_assoc.
  assert (Hi : S (List.length p) = List.length (p ++ [c])).
  { rewrite length_app. simpl. lia. }
  assert (HLp : (List.length p + S (List.length rest))%nat = L).
  { rewrite <- Hs, Hsp, length_app. reflexivity. }
  destruct HC as [p k D DL Lk Fk | p ch Hne Hsort Hnone Hch H2].
  - (* a leaf with the key k *)
    cbn [insert_at]. apply Nat.leb_le in D as D'. rewrite D'.
    cbn [isLeaf leaf_node _children _key andb key_or_empty].
    destruct (list_eq_dec Byte.byte_eq_dec k s) as [->|Hneq].
    { rewrite bytesCompare_refl. eexists _, _. split; [reflexivity|].
      simpl. auto. }
    rewrite bytesCompare_neq by assumption.
    destruct (@prefix_split k p Fk) as (kc & ksuf & Ek); [lia|].
    destruct ksuf as [|x ksuf].
    { (* the leaf sits on the last byte of its key *)
      pose proof (splitLeafNode_last p kc) as Sp. cbv zeta in Sp.
      rewrite <- Ek in Sp. change (Build_TrieNode (toString_hex (blake3 k)) 1 [] (Some k)) with (leaf_node k).
      destruct (_splitLeafNode (List.length p) (leaf_node k)) as [t1 r1].
      simpl in Sp. subst r1. eexists _, _. split; [reflexivity|].
      split; [reflexivity|]. exists k. split; [now left|]. split; [exact Hneq|].
      assert (E : (L - 1)%nat = List.length p).
      { rewrite <- Lk, Ek, length_app. simpl. lia. }
      rewrite E, Fk, Hsp. symmetry. apply firstn_app_exact. }
    pose proof (@splitLeafNode_leaf _ p kc (x :: ksuf) D) as Sp.
    cbv zeta in Sp. rewrite <- Ek in Sp.
    change (Build_TrieNode (toString_hex (blake3 k)) 1 [] (Some k))
      with (leaf_node k).
    rewrite Sp by discriminate. clear Sp.
    assert (DL' : (List.length (p ++ [c]) < L)%nat).
    { rewrite <- Hi, <- Lk, Ek, length_app. simpl. lia. }
    assert (Hrest : rest <> []).
    { intros ->. rewrite <- Hi in DL'. simpl in HLp. lia. }
    destruct (Byte.byte_eq_dec kc c) as [->|Hc].
    + (* the new key goes on below the resident key *)
      rewrite insert_child_has with (child := leaf_node k)
        by apply Map_get_head.
      assert (HCk : Canon L (p ++ [c]) (leaf_node k)).
      { constructor; try assumption.
        - rewrite <- Hi. unfold TIMESTAMP_LENGTH in *. lia.
        - rewrite Ek. replace (p ++ c :: x :: ksuf) with ((p ++ [c]) ++ x :: ksuf)
            by now rewrite <- app_assoc.
          apply firstn_app_exact. }
      destruct (IH (p ++ [c]) (S (List.length p)) (leaf_node k) HCk Hi Hk)
        as (child' & r & Hins & Hout).
      rewrite Hins. destruct r as [[|]|e]; cbn [insert_outcome] in Hout.
      * destruct Hout as (HC' & Hit & Hdel & Hkeys).
        exists (internal_node [(Some c, child')]), (Normal true).
        split.
        { cbv zeta. f_equal. unfold set_items, set_children.
          cbn [_hash _items _children _key Map_set]. rewrite MapKey_eqb_refl.
          apply internal_node_eq; [discriminate|].
          cbn [sum_items fold_right snd]. rewrite Hit. reflexivity. }
        cbn [insert_outcome]. split.
        { constructor.
          - discriminate.
          - repeat constructor.
          - intros n [[=]|[]].
          - intros b n [[= <- <-]|[]]. exact HC'.
          - intros _. cbn [sum_items fold_right snd]. rewrite Hit.
            cbn [leaf_node _items]. lia. }
        split. { cbn [internal_node _items sum_items fold_right snd leaf_node].
                 rewrite Hit. cbn [leaf_node _items]. lia. }
        split.
        2:{ intro k'. rewrite <- Hkeys. simpl. now rewrite app_nil_r. }
        { rewrite delete_at_internal with (child := child');
            [|reflexivity|apply Map_get_head].
          rewrite Hdel. unfold internal_node, set_children.
          cbn [_hash _items _children _key Map_set]. rewrite MapKey_eqb_refl.
          f_equal.
          apply delete_child_done_compact with (child' := leaf_node k) (c0 := Some c);
            [apply Map_get_head | reflexivity | exact D |].
          cbn [sum_items fold_right snd]. rewrite Hit. reflexivity. }
      * destruct Hout as [_ Hin]. rewrite keys_of_leaf in Hin.
        destruct Hin as [E|[]]. congruence.
      * destruct Hout as (-> & k' & Hin & Hne' & Hpre).
        eexists _, _. split; [reflexivity|]. cbn [insert_outcome].
        split; [reflexivity|]. exists k'. auto.
    + (* the two keys part here *)
      assert (Hget : Map_get [(Some kc, leaf_node k)] (Some c) = None).
      { apply Map_get_None. simpl. intros [[=]|[]]. congruence. }
      assert (Hsorted : StronglySorted key_lt (map fst [(Some kc, leaf_node k)])).
      { repeat constructor. }
      rewrite insert_child_new by assumption.
      rewrite insert_at_new_TrieNode.
      destruct (@insert_new_Canon _ L L_timestamp s (p ++ [c]) rest
                  (S (List.length p)) Hk Hi Hrest Hs)
        as (child' & Hins & HC' & Hit & Hkeys & Hdel).
      rewrite Hins.
      exists (internal_node (sort_insert (Some c, child') [(Some kc, leaf_node k)])),
             (Normal true).
      assert (HCk : Canon L (p ++ [kc]) (leaf_node k)).
      { constructor; try assumption.
        - rewrite length_app. simpl. unfold TIMESTAMP_LENGTH in *. lia.
        - rewrite length_app. simpl. rewrite <- Lk, Ek, length_app. simpl. lia.
        - rewrite Ek. replace (p ++ kc :: x :: ksuf) with ((p ++ [kc]) ++ x :: ksuf)
            by now rewrite <- app_assoc.
          apply firstn_app_exact. }
      split.
      { cbv zeta. f_equal. unfold set_items, set_children.
        cbn [_hash _items _children _key].
        apply internal_node_eq; [apply sort_insert_nonempty|].
        rewrite sum_items_sort_insert. cbn [sum_items fold_right snd].
        rewrite Hit. reflexivity. }
      cbn [insert_outcome]. split.
      { constructor.
        - apply sort_insert_nonempty.
        - apply sort_insert_sorted; [assumption|].
          simpl. intros [[=]|[]]. congruence.
        - intros n I. apply sort_insert_In in I as [[=]|[[=]|[]]].
        - intros b n I. apply sort_insert_In in I as [[= <- <-]|[[= <- <-]|[]]];
            assumption.
        - intros _. rewrite sum_items_sort_insert. cbn [sum_items fold_right snd].
          rewrite Hit. cbn [leaf_node _items]. lia. }
      split.
      { cbn [internal_node _items]. rewrite sum_items_sort_insert.
        cbn [sum_items fold_right snd]. rewrite Hit. cbn [leaf_node _items]. lia. }
      split.
      2:{ intro k'. rewrite In_keys_of_internal by apply sort_insert_nonempty.
          rewrite keys_of_leaf. split.
          - intros [e [I K]]. apply sort_insert_In in I as [->|[<-|[]]]; simpl in K.
            + rewrite Hkeys in K. destruct K as [<-|[]]. now left.
            + destruct K as [<-|[]]. right. now left.
          - intros [->|[<-|[]]].
            + exists (Some c, child'). split; [apply sort_insert_In; now left|].
              simpl. rewrite Hkeys. now left.
            + exists (Some kc, leaf_node k).
              split; [apply sort_insert_In; right; now left|]. now left. }
      { rewrite delete_at_internal with (child := child');
          [| |apply sort_insert_get; assumption].
        2:{ unfold isLeaf, internal_node. cbn [_children].
            destruct (sort_insert (Some c, child') [(Some kc, leaf_node k)]) eqn:E;
              [|reflexivity]. now apply sort_insert_nonempty in E. }
        rewrite Hdel. unfold internal_node, set_children.
        cbn [_hash _items _children _key].
        rewrite sort_insert_set by assumption. f_equal.
        apply delete_child_done_compact with (child' := empty_node) (c0 := Some kc);
          [apply sort_insert_get; assumption | | exact D |].
        - cbn [empty_node _items Z.eqb]. now apply sort_insert_delete.
        - rewrite sum_items_sort_insert. cbn [sum_items fold_right snd].
          rewrite Hit. reflexivity. }
  - (* an internal node *)
    assert (Hleaf : isLeaf (internal_node ch) = false).
    { destruct ch; [congruence | reflexivity]. }
    rewrite insert_at_descend by (rewrite Hleaf; apply andb_false_r).
    assert (Hpos : forall e, In e ch -> 1 <= _items (snd e)).
    { eapply Canon_children_pos; eassumption. }
    assert (Hrest : rest <> []).
    { destruct ch as [|[[b|] n0] ch']; [congruence| |].
      - specialize (Hch b n0 (or_introl eq_refl)). apply Canon_depth in Hch.
        rewrite length_app in Hch. simpl in Hch.
        intros ->. simpl in HLp. lia.
      - exfalso. apply (Hnone n0). now left. }
    destruct (Map_get ch (Some c)) as [child|] eqn:Hget.
    + (* there is a child for the byte *)
      apply Map_get_In in Hget as Hin.
      rewrite insert_child_has with (child := child) by exact Hget.
      destruct (IH (p ++ [c]) (S (List.length p)) child (Hch c child Hin) Hi Hk)
        as (child' & r & Hins & Hout).
      rewrite Hins. destruct r as [[|]|e]; cbn [insert_outcome] in Hout.
      * destruct Hout as (HC' & Hit & Hdel & Hkeys).
        exists (internal_node (Map_set ch (Some c) child')), (Normal true).
        assert (Hsum : sum_items (Map_set ch (Some c) child') = sum_items ch + 1).
        { rewrite sum_items_set with (old := child) by exact Hget. lia. }
        split.
        { cbv zeta. f_equal. unfold set_items, set_children, internal_node.
          cbn [_hash _items _children _key].
          apply internal_node_eq; [apply Map_set_nonempty|]. now rewrite Hsum. }
        cbn [insert_outcome]. split.
        { constructor.
          - apply Map_set_nonempty.
          - now rewrite Map_set_keys with (w := child).
          - intros n I. apply Map_set_In in I as [[[=] _]|I]. eapply Hnone; eauto.
          - intros b n I. apply Map_set_In in I as [[[= ->] ->]|I]; auto.
          - intro D. rewrite Hsum. specialize (H2 D). lia. }
        split. { cbn [internal_node _items]. exact Hsum. }
        split.
        2:{ intro k'. rewrite !In_keys_of_internal by (try apply Map_set_nonempty; assumption).
            split.
            - intros [e [I K]].
              apply (@Map_set_In_iff _ _ _ child' _ e Hsort Hget) in I as [->|[I N]].
              + simpl in K. apply Hkeys in K as [->|K]; [now left|].
                right. now exists (Some c, child).
              + right. now exists e.
            - intros [->|[e [I K]]].
              + exists (Some c, child'). split.
                * apply (@Map_set_In_iff _ _ _ child' _ _ Hsort Hget). now left.
                * simpl. apply Hkeys. now left.
              + destruct (MapKey_eqb (fst e) (Some c)) eqn:E.
                * apply MapKey_eqb_eq in E. destruct e as [c0 n0]. simpl in E.
                  subst c0. apply (@Map_get_sorted _ _ _ _ Hsort) in I.
                  rewrite Hget in I. injection I as <-.
                  exists (Some c, child'). split.
                  -- apply (@Map_set_In_iff _ _ _ child' _ _ Hsort Hget). now left.
                  -- simpl. apply Hkeys. now right.
                * apply MapKey_eqb_neq in E. exists e. split; [|exact K].
                  apply (@Map_set_In_iff _ _ _ child' _ _ Hsort Hget). right. now split. }
        { rewrite delete_at_internal with (child := child');
            [| |apply Map_get_set_same].
          2:{ unfold isLeaf, internal_node. cbn [_children].
              destruct (Map_set ch (Some c) child') eqn:E; [|reflexivity].
              now apply Map_set_nonempty in E. }
          rewrite Hdel. unfold internal_node at 1 2, set_children.
          cbn [_hash _items _children _key].
          rewrite Map_set_set, (Map_set_same _ _ Hget). f_equal.
          assert (Hnz : (_items child =? 0) = false).
          { apply Z.eqb_neq. specialize (Hpos _ Hin). simpl in Hpos. lia. }
          apply delete_child_done_keep with (child' := child);
            [exact Hget | now rewrite Hnz | exact Hne | | lia].
          intro D. specialize (H2 D). lia. }
      * destruct Hout as [-> Hin']. eexists _, _. split; [reflexivity|].
        cbn [insert_outcome]. split.
        { unfold set_children, internal_node. cbn [_hash _items _children _key].
          now rewrite Map_set_same. }
        eapply keys_of_child; eassumption.
      * destruct Hout as (-> & k' & Hin' & Hne' & Hpre).
        eexists _, _. split; [reflexivity|]. cbn [insert_outcome].
        split; [reflexivity|]. exists k'. split; [|now split].
        eapply keys_of_child; eassumption.
    + (* a new child *)
      rewrite insert_child_new by assumption.
      rewrite insert_at_new_TrieNode.
      destruct (@insert_new_Canon _ L L_timestamp s (p ++ [c]) rest
                  (S (List.length p)) Hk Hi Hrest Hs)
        as (child' & Hins & HC' & Hit & Hkeys & Hdel).
      rewrite Hins.
      exists (internal_node (sort_insert (Some c, child') ch)), (Normal true).
      assert (Hsum : sum_items (sort_insert (Some c, child') ch) = sum_items ch + 1).
      { rewrite sum_items_sort_insert. simpl. lia. }
      split.
      { cbv zeta. f_equal. unfold set_items, set_children, internal_node.
        cbn [_hash _items _children _key].
        apply internal_node_eq; [apply sort_insert_nonempty|]. now rewrite Hsum. }
      cbn [insert_outcome]. split.
      { constructor.
        - apply sort_insert_nonempty.
        - apply sort_insert_sorted; [assumption|]. now apply Map_get_None.
        - intros n I. apply sort_insert_In in I as [[=]|I]. eapply Hnone; eauto.
        - intros b n I. apply sort_insert_In in I as [[= <- <-]|I]; auto.
        - intro D. rewrite Hsum. specialize (H2 D). lia. }
      split. { cbn [internal_node _items]. exact Hsum. }
      split.
      2:{ intro k'.
          rewrite !In_keys_of_internal by (try apply sort_insert_nonempty; assumption).
          split.
          - intros [e [I K]]. apply sort_insert_In in I as [->|I].
            + simpl in K. rewrite Hkeys in K. destruct K as [<-|[]]. now left.
            + right. now exists e.
          - intros [->|[e [I K]]].
            + exists (Some c, child'). split; [apply sort_insert_In; now left|].
              simpl. rewrite Hkeys. now left.
            + exists e. split; [apply sort_insert_In; now right | exact K]. }
      { rewrite delete_at_internal with (child := child');
          [| |apply sort_insert_get; assumption].
        2:{ unfold isLeaf, internal_node. cbn [_children].
            destruct (sort_insert (Some c, child') ch) eqn:E; [|reflexivity].
            now apply sort_insert_nonempty in E. }
        rewrite Hdel. unfold internal_node at 1 2, set_children.
        cbn [_hash _items _children _key].
        rewrite sort_insert_set by assumption. f_equal.
        apply delete_child_done_keep with (child' := empty_node);
          [apply sort_insert_get; assumption | | exact Hne | | ].
        - cbn [empty_node _items Z.eqb]. symmetry. now apply sort_insert_delete.
        - intro D. specialize (H2 D). lia.
        - lia. }
Qed.
End InsertCanon.

(** ** Deletion from a canonical trie *)

Section DeleteCanon.
Context {B3 : Blake3}.
Variable L : nat.
Hypothesis L_timestamp : (TIMESTAMP_LENGTH < L)%nat.

Lemma firstn_snoc_inv (k p : Uint8Array) (b : byte) :
  firstn (List.length (p ++ [b])) k = p ++ [b] ->
  firstn (List.length p) k = p.
Proof.
  intro Hp. rewrite length_app in Hp. simpl in Hp.
  apply (f_equal (firstn (List.length p))) in Hp.
  rewrite firstn_firstn in Hp.
  rewrite Nat.min_l in Hp by lia.
  now rewrite firstn_app_exact in Hp.
Qed.

(** The node that [delete] leaves above a child that has deleted the
    key, when children remain. *)
Lemma delete_child_done_Canon p idx h i ch char child' ch3 :
  idx = List.length p -> (List.length p < L)%nat ->
  Map_get ch char = Some child' ->
  ch3 = (if _items child' =? 0 then Map_delete ch char else ch) ->
  ch3 <> [] ->
  StronglySorted key_lt (map fst ch3) ->
  (forall n, ~ In (None, n) ch3) ->
  (forall b n, In (Some b, n) ch3 -> Canon L (p ++ [b]) n) ->
  i - 1 = sum_items ch3 ->
  let n' := delete_child_done char idx (Build_TrieNode h i ch None) in
  Canon L p n' /\ _items n' = i - 1.
Proof.
  intros -> DL G E Hne Hsort Hnone Hch Hsum n'.
  assert (Hpos : forall e, In e ch3 -> 1 <= _items (snd e)).
  { eapply Canon_children_pos; eassumption. }
  pose proof (sum_items_ge ch3 Hpos) as Hge.
  destruct (Nat.le_gt_cases TIMESTAMP_LENGTH (List.length p)) as [D|D].
  - destruct (Z.eq_dec (i - 1) 1) as [I1|I1].
    + (* one key is left: the node becomes a leaf again *)
      destruct ch3 as [|[c0 child0] [|e ch3']]; [congruence| |].
      2:{ simpl List.length in Hge. lia. }
      destruct c0 as [b0|]; [|exfalso; apply (Hnone child0); now left].
      specialize (Hch b0 child0 (or_introl eq_refl)).
      destruct (@Canon_single _ L (p ++ [b0]) child0 Hch) as (k0 & -> & Lk & Fk).
      { rewrite length_app. simpl. lia. }
      { simpl in Hsum. lia. }
      subst n'. rewrite delete_child_done_compact
        with (child' := child') (c0 := Some b0) (k0 := k0); auto.
      split; [|simpl; lia].
      constructor; try assumption. now apply firstn_snoc_inv with (b := b0).
    + subst n'. rewrite delete_child_done_keep
        with (child' := child') (ch3 := ch3); auto.
      split; [|simpl; lia].
      constructor; try assumption.
      intros _. destruct ch3; [congruence|]. simpl List.length in Hge. lia.
  - subst n'. rewrite delete_child_done_keep
      with (child' := child') (ch3 := ch3); auto; [|lia].
    split; [|simpl; lia].
    constructor; try assumption. lia.
Qed.

Lemma delete_at_Canon s (Hs : List.length s = L) rest :
  forall p idx n,
    Canon L p n -> idx = List.length p -> s = p ++ rest ->
    exists n' r,
      delete_at s rest idx n = (n', r) /\ delete_outcome L p n n' r.
Proof.
  induction rest as [|c rest IH]; intros p idx n HC -> Hsp.
  { apply Canon_depth in HC. rewrite Hsp, length_app in Hs. simpl in Hs. lia. }
  assert (Hk : s = (p ++ [c]) ++ rest) by now rewrite <- app_assoc.
  assert (Hi : S (List.length p) = List.length (p ++ [c])).
  { rewrite length_app. simpl. lia. }
  pose proof (Canon_depth HC) as DL.
  destruct HC as [p k D _ Lk Fk | p ch Hne Hsort Hnone Hch H2].
  - rewrite delete_at_leaf by reflexivity.
    cbn [key_or_empty leaf_node _key].
    destruct (list_eq_dec Byte.byte_eq_dec k s) as [->|Hneq].
    + rewrite bytesCompare_refl. eexists _, _. split; [reflexivity|].
      simpl. split; [reflexivity|]. now right.
    + rewrite bytesCompare_neq by assumption.
      eexists _, _. split; reflexivity.
  - assert (Hleaf : isLeaf (internal_node ch) = false).
    { destruct ch; [congruence | reflexivity]. }
    destruct (Map_get ch (Some c)) as [child|] eqn:Hget.
    2:{ rewrite delete_at_internal_none by assumption.
        eexists _, _. split; reflexivity. }
    apply Map_get_In in Hget as Hin.
    rewrite delete_at_internal with (child := child) by assumption.
    destruct (IH (p ++ [c]) (S (List.length p)) child (Hch c child Hin) Hi Hk)
      as (child' & r & Hdel & Hout).
    rewrite Hdel. destruct r as [[|]|e]; cbn [delete_outcome] in Hout.
    + destruct Hout as [Hit Hc'].
      unfold internal_node at 1, set_children.
      cbn [_hash _items _children _key].
      set (ch1 := Map_set ch (Some c) child').
      assert (G1 : Map_get ch1 (Some c) = Some child') by apply Map_get_set_same.
      assert (Hsum1 : sum_items ch1 = sum_items ch - 1).
      { unfold ch1. rewrite sum_items_set with (old := child) by exact Hget. lia. }
      assert (Hsort1 : StronglySorted key_lt (map fst ch1)).
      { unfold ch1. now rewrite Map_set_keys with (w := child). }
      assert (Hnone1 : forall n, ~ In (None, n) ch1).
      { intros n I. apply Map_set_In in I as [[[=] _]|I]. eapply Hnone; eauto. }
      eexists _, (Normal true). split; [reflexivity|]. cbn [delete_outcome].
      destruct Hc' as [HC'| ->].
      * (* the child still has keys *)
        assert (Hnz : (_items child' =? 0) = false).
        { apply Z.eqb_neq. apply Canon_items_pos in HC'. lia. }
        destruct (@delete_child_done_Canon p (List.length p)
                    (toString_hex (blake3 (children_digests ch))) (sum_items ch)
                    ch1 (Some c) child' ch1) as [H1 H3]; auto.
        { now rewrite Hnz. }
        { apply Map_set_nonempty. }
        { intros b n I. apply Map_set_In in I as [[[= ->] ->]|I]; auto. }
      * (* the child is empty: it is dropped *)
        assert (Hdr : Map_delete ch1 (Some c) = Map_delete ch (Some c)).
        { apply Map_delete_set. }
        assert (Hsum3 : sum_items (Map_delete ch (Some c)) = sum_items ch - 1).
        { rewrite sum_items_delete with (old := child) by exact Hget.
          simpl in Hit. lia. }
        destruct (Map_delete ch (Some c)) as [|e0 ch3] eqn:E3.
        -- rewrite delete_child_done_empty with (child' := empty_node); auto.
        -- destruct (@delete_child_done_Canon p (List.length p)
                    (toString_hex (blake3 (children_digests ch))) (sum_items ch)
                    ch1 (Some c) empty_node (e0 :: ch3)) as [H1 H3]; auto.
           ++ discriminate.
           ++ rewrite <- E3. now apply Map_delete_sorted.
           ++ intros n I. rewrite <- E3 in I. apply Map_delete_In in I.
              eapply Hnone; eauto.
           ++ intros b n I. rewrite <- E3 in I. apply Map_delete_In in I. auto.
    + subst child'. eexists _, _. split; [reflexivity|]. cbn [delete_outcome].
      unfold set_children, internal_node. cbn [_hash _items _children _key].
      now rewrite Map_set_same.
    + contradiction.
Qed.
End DeleteCanon.

(** ** The read operations *)

Section ReadOperations.
Context {B3 : Blake3}.

Lemma call_child_frame {A : Type} char (m : TrieNode -> TrieNode * Completion A) this :
  (forall child, In (char, child) (_children this) -> fst (m child) = child) ->
  fst (call_child char m this) = this.
Proof.
  intro F. unfold call_child.
  destruct (Map_get (_children this) char) as [child|] eqn:G; [|reflexivity].
  specialize (F child (Map_get_In _ _ G)).
  destruct (m child) as [child' r]. simpl in F. subst child'. simpl.
  rewrite Map_set_same by exact G. now destruct this.
Qed.

Lemma exists_at_frame key rest :
  forall idx this, fst (exists_at key rest idx this) = this.
Proof.
  induction rest as [|c rest IH]; intros idx this; cbn [exists_at];
    destruct (isLeaf this && (bytesCompare (key_or_empty this) key =? 0));
    try reflexivity.
  pose proof (@call_child_frame bool (Some c) (exists_at key rest (S idx)) this
                (fun child _ => IH (S idx) child)) as F.
  destruct (call_child (Some c) (exists_at key rest (S idx)) this)
    as [this1 [[b|e]|]]; exact F.
Qed.

Lemma getNode_frame pre : forall this, fst (getNode pre this) = this.
Proof.
  induction pre as [|c pre IH]; intro this; cbn [getNode]; [reflexivity|].
  pose proof (@call_child_frame _ (Some c) (getNode pre) this
                (fun child _ => IH child)) as F.
  destruct (call_child (Some c) (getNode pre) this) as [this1 [r|]]; exact F.
Qed.

Lemma getSnapshot_frame this : forall pre idx, fst (getSnapshot pre idx this) = this.
Proof.
  induction this as [h i ch k IH] using TrieNode_induction. intros pre idx.
  cbn [getSnapshot].
  destruct (Z.of_nat idx =? Z.of_nat (List.length pre) - 1); [reflexivity|].
  match goal with
  | |- fst (let '(ch', innerSnapshot) := ?call ch in _) = _ =>
      assert (F : fst (call ch) = ch)
  end.
  { induction ch as [|[c child] ch IHch]; [reflexivity|].
    apply Forall_cons_iff in IH as [IH1 IH2]. simpl in IH1.
    destruct (MapKey_eqb c (nth_error pre idx)).
    - specialize (IH1 pre (S idx)).
      destruct (getSnapshot pre (S idx) child) as [child' r]. simpl in *.
      now subst.
    - specialize (IHch IH2).
      match goal with
      | |- fst (let (l'', r) := ?X in _) = _ => destruct X as [l'' r]
      end.
      simpl in *. now subst. }
  match goal with
  | |- fst (let '(ch', innerSnapshot) := ?X in _) = _ =>
      destruct X as [ch' [[inner|e]|]]
  end; simpl in F; subst ch'; reflexivity.
Qed.

(** [getAllValues] returns the keys below the node and leaves it as it
    was. *)
Lemma getAllValues_keys_of this : getAllValues this = (this, Normal (keys_of this)).
Proof.
  induction this as [h i ch k IH] using TrieNode_induction.
  cbn [getAllValues keys_of].
  match goal with
  | |- match ch with [] => _ | _ :: _ => (let '(ch', r) := ?each ch in _) end = _ =>
      assert (F : each ch = (ch, Normal (flat_map (fun e => keys_of (snd e)) ch)))
  end.
  { induction ch as [|[c child] ch IHch]; [reflexivity|].
    apply Forall_cons_iff in IH as [IH1 IH2]. simpl in IH1.
    rewrite IH1, (IHch IH2). reflexivity. }
  destruct ch as [|e0 ch0]; [reflexivity|]. rewrite F. reflexivity.
Qed.
End ReadOperations.

(** ** Tries built by the operations *)

Section Reachable.
Context {B3 : Blake3}.
Variable L : nat.
Hypothesis L_timestamp : (TIMESTAMP_LENGTH < L)%nat.

Lemma key_nonempty (s : Uint8Array) :
  List.length s = L -> exists c rest, s = c :: rest /\ rest <> [].
Proof.
  intro Hs. destruct s as [|c [|x rest]]; simpl in Hs;
    unfold TIMESTAMP_LENGTH in *; try lia.
  exists c, (x :: rest). split; [reflexivity | discriminate].
Qed.

(** Inserting into a root without children. *)
Lemma insert_blank_root h s :
  List.length s = L ->
  exists T',
    insert s 0 (Build_TrieNode h 0 [] None) = (T', Normal true)
    /\ Canon L [] T'
    /\ delete s 0 T' = (empty_node, Normal true)
    /\ keys_of T' = [s].
Proof.
  intro Hs. destruct (key_nonempty s Hs) as (c & rest & -> & Hrest).
  unfold insert, delete. cbn [skipn].
  rewrite insert_at_descend by reflexivity.
  rewrite insert_child_new by (try reflexivity; constructor).
  rewrite insert_at_new_TrieNode.
  destruct (@insert_new_Canon _ L L_timestamp (c :: rest) [c] rest 1%nat)
    as (child' & Hins & HC' & Hit & Hkeys & Hdel); auto.
  rewrite Hins. exists (internal_node [(Some c, child')]).
  split.
  { cbv zeta. f_equal. unfold set_items, set_children.
    cbn [_hash _items _children _key sort_insert].
    apply internal_node_eq; [discriminate|].
    cbn [sum_items fold_right snd]. rewrite Hit. reflexivity. }
  split.
  { constructor.
    - discriminate.
    - repeat constructor.
    - intros n [[=]|[]].
    - intros b n [[= <- <-]|[]]. exact HC'.
    - simpl. unfold TIMESTAMP_LENGTH. lia. }
  split.
  2:{ rewrite keys_of_internal by discriminate.
      cbn [flat_map snd]. rewrite Hkeys. reflexivity. }
  rewrite delete_at_internal with (child := child');
    [|reflexivity|apply Map_get_head].
  rewrite Hdel. unfold internal_node, set_children.
  cbn [_hash _items _children _key Map_set]. rewrite MapKey_eqb_refl.
  f_equal.
  apply delete_child_done_empty with (child' := empty_node).
  - apply Map_get_head.
  - cbn [empty_node _items Z.eqb Map_delete]. now rewrite MapKey_eqb_refl.
  - cbn [sum_items fold_right snd]. rewrite Hit. reflexivity.
Qed.

Lemma delete_blank_root h s :
  List.length s = L ->
  delete s 0 (Build_TrieNode h 0 [] None) = (Build_TrieNode h 0 [] None, Normal false).
Proof.
  intro Hs. destruct (key_nonempty s Hs) as (c & rest & -> & Hrest).
  unfold delete. rewrite delete_at_leaf by reflexivity. reflexivity.
Qed.

Lemma insert_RootInv T s T' b :
  RootInv L T -> List.length s = L ->
  insert s 0 T = (T', Normal b) -> RootInv L T'.
Proof.
  intros [->|[->|HC]] Hs Hins.
  - destruct (insert_blank_root EmptyString s Hs) as (T1 & E & HC & _).
    unfold new_TrieNode in Hins. rewrite E in Hins.
    injection Hins as <- _. right. now right.
  - destruct (insert_blank_root EMPTY_HASH s Hs) as (T1 & E & HC & _).
    unfold empty_node in Hins. rewrite E in Hins.
    injection Hins as <- _. right. now right.
  - destruct (@insert_at_Canon _ L L_timestamp s Hs s [] 0%nat T HC eq_refl eq_refl)
      as (n' & r & E & Hout).
    unfold insert in Hins. cbn [skipn] in Hins. rewrite E in Hins.
    injection Hins as <- ->. right. right.
    destruct b; cbn [insert_outcome] in Hout.
    + apply Hout.
    + destruct Hout as [-> _]. exact HC.
Qed.

Lemma delete_RootInv T s T' b :
  RootInv L T -> List.length s = L ->
  delete s 0 T = (T', Normal b) -> RootInv L T'.
Proof.
  intros [->|[->|HC]] Hs Hdel.
  - unfold new_TrieNode in Hdel. rewrite delete_blank_root in Hdel by exact Hs.
    injection Hdel as <- _. now left.
  - unfold empty_node in Hdel. rewrite delete_blank_root in Hdel by exact Hs.
    injection Hdel as <- _. right. now left.
  - destruct (@delete_at_Canon _ L L_timestamp s Hs s [] 0%nat T HC eq_refl eq_refl)
      as (n' & r & E & Hout).
    unfold delete in Hdel. cbn [skipn] in Hdel. rewrite E in Hdel.
    injection Hdel as <- ->.
    destruct b; cbn [delete_outcome] in Hout.
    + destruct Hout as [_ [H|H]]; [right; now right | right; now left].
    + subst n'. right. now right.
Qed.

(** Every root built by the operations is of one of the three kinds. *)
Lemma Reachable_RootInv T : Reachable L T -> RootInv L T.
Proof.
  induction 1 as [| T key T' b _ IH Hk Hop | T key T' b _ IH Hk Hop].
  - now left.
  - eapply insert_RootInv; eassumption.
  - eapply delete_RootInv; eassumption.
Qed.

Lemma Canon_Subnode p T n :
  Canon L p T -> Subnode n T -> exists p', Canon L p' n.
Proof.
  intros HC HS. revert p HC.
  induction HS as [n | n c m T Hin _ IH]; intros p HC; [eauto|].
  destruct HC as [p k | p ch Hne Hsort Hnone Hch H2]; [contradiction|].
  simpl in Hin. destruct c as [b|]; [|exfalso; eapply Hnone; eauto].
  eapply IH. eauto.
Qed.
End Reachable.

(** ** A canonical trie is determined by its keys *)

Section Unique.
Context {B3 : Blake3}.
Variable L : nat.
Hypothesis L_timestamp : (TIMESTAMP_LENGTH < L)%nat.

Lemma sorted_keys_unique (l1 l2 : list MapKey) :
  StronglySorted key_lt l1 -> StronglySorted key_lt l2 ->
  (forall x, In x l1 <-> In x l2) -> l1 = l2.
Proof.
  revert l2. induction l1 as [|a l1 IH]; intros [|b l2] S1 S2 E.
  - reflexivity.
  - exfalso. apply (proj2 (E b)). now left.
  - exfalso. apply (proj1 (E a)). now left.
  - apply StronglySorted_inv in S1 as [S1 F1].
    apply StronglySorted_inv in S2 as [S2 F2].
    rewrite Forall_forall in F1, F2.
    assert (Eab : a = b).
    { destruct (proj1 (E a) (or_introl eq_refl)) as [Eq|I2]; [now symmetry|].
      destruct (proj2 (E b) (or_introl eq_refl)) as [Eq|I1]; [assumption|].
      exfalso. exact (key_lt_asym (F1 _ I1) (F2 _ I2)). }
    subst b. f_equal. apply IH; try assumption.
    intro x. split; intro I.
    + destruct (proj1 (E x) (or_intror I)) as [<-|I2]; [|exact I2].
      exfalso. exact (key_lt_irrefl (F1 _ I)).
    + destruct (proj2 (E x) (or_intror I)) as [<-|I1]; [|exact I1].
      exfalso. exact (key_lt_irrefl (F2 _ I)).
Qed.

Lemma children_eq (ch1 ch2 : list (MapKey * TrieNode)) :
  map fst ch1 = map fst ch2 ->
  (forall c m1 m2, In (c, m1) ch1 -> In (c, m2) ch2 -> m1 = m2) ->
  ch1 = ch2.
Proof.
  revert ch2. induction ch1 as [|[c1 m1] ch1 IH]; intros [|[c2 m2] ch2] E H;
    try discriminate; [reflexivity|].
  simpl in E. injection E as -> E.
  rewrite (H c2 m1 m2) by now left.
  f_equal. apply IH; [exact E|]. intros c n1 n2 I1 I2.
  apply (H c); now right.
Qed.

Lemma Canon_nonempty p n : Canon L p n -> exists k, In k (keys_of n).
Proof.
  induction 1 as [p k | p ch Hne _ Hnone Hch IH _].
  - exists k. now left.
  - destruct ch as [|[[b|] m] ch]; [congruence| |].
    + destruct (IH b m (or_introl eq_refl)) as [k K].
      exists k. eapply keys_of_child; [now left | exact K].
    + exfalso. apply (Hnone m). now left.
Qed.

(** The byte of a key below a child is the key of the child. *)
Lemma child_byte p b1 b2 (k : Uint8Array) :
  firstn (List.length (p ++ [b1])) k = p ++ [b1] ->
  firstn (List.length (p ++ [b2])) k = p ++ [b2] ->
  b1 = b2.
Proof.
  intros F1 F2. rewrite !length_app in *. simpl in *. rewrite F1 in F2.
  apply app_inv_head in F2. now injection F2.
Qed.

(** Below the timestamp prefix an internal node has two keys. *)
Lemma Canon_two_keys p n :
  Canon L p n -> (TIMESTAMP_LENGTH <= List.length p)%nat -> isLeaf n = false ->
  exists k1 k2, In k1 (keys_of n) /\ In k2 (keys_of n) /\ k1 <> k2.
Proof.
  induction 1 as [p k | p ch Hne Hsort Hnone Hch IH H2]; intros D Hl;
    [discriminate|].
  specialize (H2 D).
  destruct ch as [|[c1 m1] [|[c2 m2] ch]]; [congruence| |].
  - destruct c1 as [b1|]; [|exfalso; apply (Hnone m1); now left].
    pose proof (Hch b1 m1 (or_introl eq_refl)) as HC1.
    destruct (IH b1 m1 (or_introl eq_refl)) as (k1 & k2 & I1 & I2 & N).
    { rewrite length_app. simpl. lia. }
    { destruct HC1 as [p' k' | p' ch' Hne' ]; [simpl in H2; lia|].
      destruct ch'; [congruence | reflexivity]. }
    exists k1, k2. repeat split; try assumption;
      eapply keys_of_child; try eassumption; now left.
  - destruct c1 as [b1|]; [|exfalso; apply (Hnone m1); now left].
    destruct c2 as [b2|]; [|exfalso; apply (Hnone m2); right; now left].
    pose proof (Hch b1 m1 (or_introl eq_refl)) as HC1.
    pose proof (Hch b2 m2 (or_intror (or_introl eq_refl))) as HC2.
    destruct (Canon_nonempty HC1) as [k1 K1].
    destruct (Canon_nonempty HC2) as [k2 K2].
    exists k1, k2. split; [eapply keys_of_child; [now left | exact K1]|].
    split; [eapply keys_of_child; [right; now left | exact K2]|].
    intros ->.
    destruct (Canon_keys HC1 _ K1) as [_ F1].
    destruct (Canon_keys HC2 _ K2) as [_ F2].
    pose proof (child_byte _ _ _ _ F1 F2) as Eb. subst b2.
    simpl in Hsort. apply StronglySorted_inv in Hsort as [_ F].
    apply Forall_inv in F. exact (key_lt_irrefl F).
Qed.

(** The child in which a key of an internal node lies. *)
Lemma key_in_child p ch b m k :
  StronglySorted key_lt (map fst ch) ->
  (forall n, ~ In (None, n) ch) ->
  (forall b n, In (Some b, n) ch -> Canon L (p ++ [b]) n) ->
  In (Some b, m) ch ->
  firstn (List.length (p ++ [b])) k = p ++ [b] ->
  forall e, In e ch -> In k (keys_of (snd e)) -> e = (Some b, m).
Proof.
  intros Hsort Hnone Hch I F [[b'|] m'] I' K; [|exfalso; eapply Hnone; eauto].
  simpl in K. destruct (Canon_keys (Hch _ _ I') _ K) as [_ F'].
  pose proof (child_byte _ _ _ _ F F') as <-.
  pose proof (@Map_get_sorted _ _ _ _ Hsort I) as G.
  pose proof (@Map_get_sorted _ _ _ _ Hsort I') as G'.
  rewrite G in G'. now injection G' as ->.
Qed.

Lemma Canon_unique p n1 :
  Canon L p n1 ->
  forall n2, Canon L p n2 ->
             (forall k, In k (keys_of n1) <-> In k (keys_of n2)) ->
             n1 = n2.
Proof.
  induction 1 as [p k D DL Lk Fk | p ch Hne Hsort Hnone Hch IH H2];
    intros n2 HC2 E.
  - destruct HC2 as [p k2 | p ch2 Hne2 Hsort2 Hnone2 Hch2 H22].
    + destruct (proj1 (E k) (or_introl eq_refl)) as [<-|[]]. reflexivity.
    + exfalso.
      destruct (@Canon_two_keys p (internal_node ch2)) as (k1 & k2 & I1 & I2 & N);
        [now constructor | exact D | destruct ch2; [congruence | reflexivity] |].
      apply E in I1, I2. destruct I1 as [<-|[]], I2 as [<-|[]]. now apply N.
  - pose proof (@Canon_internal _ L p ch Hne Hsort Hnone Hch H2) as HC1.
    destruct HC2 as [p k2 D2 | p ch2 Hne2 Hsort2 Hnone2 Hch2 H22].
    + exfalso.
      destruct (@Canon_two_keys p (internal_node ch)) as (k1 & k3 & I1 & I2 & N);
        [exact HC1 | exact D2 | destruct ch; [congruence | reflexivity] |].
      apply E in I1, I2. destruct I1 as [<-|[]], I2 as [<-|[]]. now apply N.
    + f_equal.
      assert (Hsub : forall cha chb,
                 StronglySorted key_lt (map fst chb) ->
                 (forall n, ~ In (None, n) cha) -> (forall n, ~ In (None, n) chb) ->
                 (forall b n, In (Some b, n) cha -> Canon L (p ++ [b]) n) ->
                 (forall b n, In (Some b, n) chb -> Canon L (p ++ [b]) n) ->
                 cha <> [] -> chb <> [] ->
                 (forall k, In k (keys_of (internal_node cha)) ->
                            In k (keys_of (internal_node chb))) ->
                 forall b m, In (Some b, m) cha ->
                 exists m', In (Some b, m') chb
                            /\ forall k, In k (keys_of m) -> In k (keys_of m')).
      { intros cha chb Sb Na Nb Ca Cb Nea Neb Sub b m I.
        destruct (Canon_nonempty (Ca _ _ I)) as [k0 K0].
        assert (K0' : In k0 (keys_of (internal_node chb))).
        { apply Sub. eapply keys_of_child; eassumption. }
        apply (proj1 (@In_keys_of_internal _ chb k0 Neb)) in K0' as [[[b'|] m'] [I' K']];
          [|exfalso; eapply Nb; eauto].
        simpl in K'.
        destruct (Canon_keys (Ca _ _ I) _ K0) as [_ F].
        destruct (Canon_keys (Cb _ _ I') _ K') as [_ F'].
        pose proof (child_byte _ _ _ _ F F') as <-.
        exists m'. split; [exact I'|]. intros k K.
        assert (K2 : In k (keys_of (internal_node chb))).
        { apply Sub. eapply keys_of_child; eassumption. }
        apply (proj1 (@In_keys_of_internal _ chb k Neb)) in K2 as [e [Ie Ke]].
        destruct (Canon_keys (Ca _ _ I) _ K) as [_ Fk].
        rewrite (@key_in_child p chb b m' k Sb Nb Cb I' Fk e Ie Ke) in Ke.
        exact Ke. }
      apply children_eq.
      * apply sorted_keys_unique; try assumption.
        intros [b|]; split; intro I; apply in_map_iff in I as [[c m] [Ec I]];
          simpl in Ec; subst c;
          try (exfalso; eapply Hnone; eassumption);
          try (exfalso; eapply Hnone2; eassumption).
        -- destruct (Hsub ch ch2 Hsort2 Hnone Hnone2 Hch Hch2 Hne Hne2
                      (fun k => proj1 (E k)) b m I) as (m' & I' & _).
           apply in_map_iff. now exists (Some b, m').
        -- destruct (Hsub ch2 ch Hsort Hnone2 Hnone Hch2 Hch Hne2 Hne
                      (fun k => proj2 (E k)) b m I) as (m' & I' & _).
           apply in_map_iff. now exists (Some b, m').
      * intros [b|] m1 m2 I1 I2; [|exfalso; eapply Hnone; eassumption].
        apply (IH b m1 I1 m2 (Hch2 _ _ I2)).
        intro k. split; intro K.
        -- destruct (Hsub ch ch2 Hsort2 Hnone Hnone2 Hch Hch2 Hne Hne2
                      (fun k => proj1 (E k)) b m1 I1) as (m' & I' & Sub).
           pose proof (@Map_get_sorted _ _ _ _ Hsort2 I') as G'.
           pose proof (@Map_get_sorted _ _ _ _ Hsort2 I2) as G2.
           rewrite G2 in G'. injection G' as <-. now apply Sub.
        -- destruct (Hsub ch2 ch Hsort Hnone2 Hnone Hch2 Hch Hne2 Hne
                      (fun k => proj2 (E k)) b m2 I2) as (m' & I' & Sub).
           pose proof (@Map_get_sorted _ _ _ _ Hsort I') as G'.
           pose proof (@Map_get_sorted _ _ _ _ Hsort I1) as G1.
           rewrite G1 in G'. injection G' as <-. now apply Sub.
Qed.

(** No two keys of a canonical trie agree on all bytes but the last. *)
Lemma Canon_no_clash p n :
  Canon L p n ->
  forall k1 k2, In k1 (keys_of n) -> In k2 (keys_of n) ->
                firstn (L - 1) k1 = firstn (L - 1) k2 -> k1 = k2.
Proof.
  induction 1 as [p k | p ch Hne Hsort Hnone Hch IH H2]; intros k1 k2 I1 I2 F.
  - destruct I1 as [<-|[]], I2 as [<-|[]]. reflexivity.
  - apply (proj1 (@In_keys_of_internal _ ch k1 Hne)) in I1 as [[[b1|] m1] [J1 K1]];
      [|exfalso; eapply Hnone; eauto].
    apply (proj1 (@In_keys_of_internal _ ch k2 Hne)) in I2 as [[[b2|] m2] [J2 K2]];
      [|exfalso; eapply Hnone; eauto].
    simpl in K1, K2.
    destruct (Canon_keys (Hch _ _ J1) _ K1) as [_ F1].
    destruct (Canon_keys (Hch _ _ J2) _ K2) as [_ F2].
    pose proof (Canon_depth (Hch _ _ J1)) as D1.
    assert (Eb : b1 = b2).
    { rewrite length_app in *. simpl in *.
      assert (G : forall k : list byte, firstn (List.length p + 1) k
                            = firstn (List.length p + 1) (firstn (L - 1) k)).
      { intro k. rewrite firstn_firstn. f_equal. lia. }
      rewrite G in F1, F2. rewrite F, F2 in F1.
      apply app_inv_head in F1. now injection F1. }
    subst b2.
    pose proof (@Map_get_sorted _ _ _ _ Hsort J1) as G1.
    pose proof (@Map_get_sorted _ _ _ _ Hsort J2) as G2.
    rewrite G1 in G2. injection G2 as <-.
    eapply IH; eassumption.
Qed.
End Unique.
(** ** Inserting a list of keys *)

Section InsertOrder.
Context {B3 : Blake3}.
Variable L : nat.
Hypothesis L_timestamp : (TIMESTAMP_LENGTH < L)%nat.

Lemma keys_of_blank h : keys_of (Build_TrieNode h 0 [] None) = [].
Proof. reflexivity. Qed.

(** X8. A key that agrees with another key of the trie on all bytes but the
    last cannot be inserted: [insert] throws. *)
Lemma insert_clash_throws T s k :
  Reachable L T -> List.length s = L ->
  In k (keys_of T) -> k <> s -> firstn (L - 1) k = firstn (L - 1) s ->
  exists T', insert s 0 T = (T', Abrupt (ThrowString "Key length exceeded")).
Proof.
  intros HR Hs Ik Hne F.
  destruct (Reachable_RootInv L_timestamp HR) as [->|[->|HC]];
    [contradiction | contradiction |].
  destruct (@insert_at_Canon _ L L_timestamp s Hs s [] 0%nat T HC eq_refl eq_refl)
    as (n' & r & E & Hout).
  unfold insert. cbn [skipn]. rewrite E. exists n'. f_equal.
  destruct r as [[|]|e]; cbn [insert_outcome] in Hout.
  - exfalso. destruct Hout as (HC' & _ & _ & Hk). apply Hne.
    apply (Canon_no_clash L_timestamp HC'); [apply Hk; now right | apply Hk; now left | exact F].
  - exfalso. destruct Hout as [_ Is]. apply Hne.
    now apply (Canon_no_clash L_timestamp HC).
  - destruct Hout as [-> _]. reflexivity.
Qed.

(** One insert into a root that holds the keys [acc], none of which
    clashes with [s]. *)
Lemma insert_root_keys T s acc :
  (T = new_TrieNode /\ acc = [] \/
   Canon L [] T /\ forall k, In k (keys_of T) <-> In k acc) ->
  List.length s = L -> no_clash L (s :: acc) ->
  exists T' b,
    insert s 0 T = (T', Normal b)
    /\ Canon L [] T' /\ forall k, In k (keys_of T') <-> In k (s :: acc).
Proof.
  intros [[-> ->]|[HC Hk]] Hs NC.
  - destruct (insert_blank_root L_timestamp EmptyString s Hs) as (T' & E & HC & _ & K).
    exists T', true. split; [exact E|]. split; [exact HC|].
    intro k. rewrite K. reflexivity.
  - destruct (@insert_at_Canon _ L L_timestamp s Hs s [] 0%nat T HC eq_refl eq_refl)
      as (n' & r & E & Hout).
    unfold insert. cbn [skipn]. rewrite E.
    destruct r as [[|]|e]; cbn [insert_outcome] in Hout.
    + destruct Hout as (HC' & _ & _ & Hk').
      exists n', true. split; [reflexivity|]. split; [exact HC'|].
      intro k. rewrite Hk', Hk. simpl. intuition.
    + destruct Hout as [-> Is].
      exists T, false. split; [reflexivity|]. split; [exact HC|].
      intro k. rewrite Hk. simpl. split; [now right|].
      intros [<-|I]; [now apply Hk | exact I].
    + exfalso. destruct Hout as (_ & k & Ik & Hne & F). apply Hne.
      apply NC; [right; now apply Hk | now left | exact F].
Qed.

Lemma insert_forEach_keys l :
  forall T acc,
    (T = new_TrieNode /\ acc = [] \/
     Canon L [] T /\ forall k, In k (keys_of T) <-> In k acc) ->
    Forall (fun k => List.length k = L) l -> no_clash L (l ++ acc) ->
    exists T',
      insert_forEach l T = (T', Normal tt)
      /\ (T' = new_TrieNode /\ l ++ acc = [] \/
          Canon L [] T' /\ forall k, In k (keys_of T') <-> In k (l ++ acc)).
Proof.
  induction l as [|s l IH]; intros T acc HT HL NC.
  - exists T. split; [reflexivity | exact HT].
  - apply Forall_cons_iff in HL as [Hs HL].
    destruct (@insert_root_keys T s acc HT Hs) as (T1 & b & E & HC1 & K1).
    { intros k1 k2 I1 I2. apply NC; simpl in *; rewrite in_app_iff; intuition. }
    cbn [insert_forEach]. rewrite E.
    destruct (IH T1 (s :: acc)) as (T' & E' & [[_ Hnil]|[HC' K']]).
    + right. split; [exact HC1 | exact K1].
    + exact HL.
    + intros k1 k2 I1 I2. apply NC; simpl in *; rewrite in_app_iff in *;
        simpl in *; intuition.
    + now destruct l.
    + exists T'. split; [exact E'|]. right. split; [exact HC'|].
      intro k. rewrite K'. simpl. rewrite !in_app_iff. simpl. intuition.
Qed.

(** X9. Keys of which no two agree on all bytes but the last build the same
    trie in every order of insertion. *)
Lemma insert_order_independent (l1 l2 : list Uint8Array) :
  Permutation l1 l2 ->
  Forall (fun k => List.length k = L) l1 -> no_clash L l1 ->
  exists T,
    insert_forEach l1 new_TrieNode = (T, Normal tt)
    /\ insert_forEach l2 new_TrieNode = (T, Normal tt).
Proof.
  intros P HL NC.
  assert (HL2 : Forall (fun k => List.length k = L) l2).
  { rewrite Forall_forall in *. intros k I. apply HL.
    eapply Permutation_in; [symmetry|]; eassumption. }
  assert (NC2 : no_clash L l2).
  { intros k1 k2 I1 I2. apply NC; (eapply Permutation_in; [symmetry|]; eassumption). }
  destruct (@insert_forEach_keys l1 new_TrieNode []) as (T1 & E1 & H1);
    [now left | exact HL | now rewrite app_nil_r |].
  destruct (@insert_forEach_keys l2 new_TrieNode []) as (T2 & E2 & H2);
    [now left | exact HL2 | now rewrite app_nil_r |].
  rewrite app_nil_r in H1, H2.
  exists T1. split; [exact E1|]. rewrite E2. f_equal.
  destruct H1 as [[-> N1]|[HC1 K1]], H2 as [[-> N2]|[HC2 K2]].
  - reflexivity.
  - subst l1. apply Permutation_nil in P. subst l2.
    cbn in E2. now injection E2.
  - subst l2. apply Permutation_sym, Permutation_nil in P. subst l1.
    cbn in E1. now injection E1.
  - symmetry. apply (Canon_unique L_timestamp HC1 HC2).
    intro k. rewrite K1, K2. split; apply Permutation_in; [|symmetry]; exact P.
Qed.
End InsertOrder.

(** * The claims on the trie *)

Section TrieClaims.
Context {B3 : Blake3}.

Lemma getNode_Subnode pre :
  forall T n, snd (getNode pre T) = Normal (Some n) -> Subnode n T.
Proof.
  induction pre as [|c pre IH]; intros T n E; cbn [getNode] in E.
  - injection E as <-. constructor.
  - unfold call_child in E.
    destruct (Map_get (_children T) (Some c)) as [child|] eqn:G; [|discriminate].
    pose proof (getNode_frame pre child) as F.
    destruct (getNode pre child) as [child' r] eqn:E'. simpl in F, E. subst.
    econstructor; [eapply Map_get_In; eassumption|]. apply IH.
    now rewrite E'.
Qed.

(** C1, as amended. In every trie built by [insert] and [delete] of keys
    of one length, the children map of every node is in the order of
    [sort()] without a comparator, the order of the decimal images of the
    bytes as strings ([key_lt]: 10 before 100 before 9), and the hash of
    an internal node is the hex image of BLAKE3-160 of the concatenation
    of the raw 20-byte digests of its children in the order of the map. *)
Theorem children_sorted_and_hashed (L : nat) (T n : TrieNode) :
  (TIMESTAMP_LENGTH < L)%nat ->
  Reachable L T -> Subnode n T ->
  StronglySorted key_lt (map fst (_children n))
  /\ (_children n <> [] ->
      _hash n =
      toString_hex
        (blake3 (List.concat
                   (map (fun e => Buffer_from_hex (_hash (snd e))) (_children n))))
      /\ Forall (fun e => List.length (Buffer_from_hex (_hash (snd e))) = 20%nat)
                (_children n)).
Proof.
  intros HL HR HS. apply (Reachable_RootInv HL) in HR.
  assert (HC : n = new_TrieNode \/ n = empty_node \/ exists p, Canon L p n).
  { destruct HR as [E|[E|HC]].
    - left. rewrite E in HS. inversion HS; subst; [reflexivity | contradiction].
    - right. left. rewrite E in HS.
      inversion HS; subst; [reflexivity | contradiction].
    - right. right. eapply Canon_Subnode; eassumption. }
  destruct HC as [->|[->|[p HC]]].
  - split; [constructor | intro N; now contradiction N].
  - split; [constructor | intro N; now contradiction N].
  - destruct HC as [p k | p ch Hne Hsort Hnone Hch H2].
    + split; [constructor | intro N; now contradiction N].
    + split; [exact Hsort|]. intros _. split; [reflexivity|].
      apply Forall_forall. intros [[b|] m] I; [|exfalso; eapply Hnone; eauto].
      specialize (Hch b m I). simpl.
      destruct Hch; simpl; now rewrite Buffer_from_hex_toString, blake3_dkLen.
Qed.

(** C2, as amended. For every trie built by [insert] and [delete] of keys
    of one length, other than the new trie on which nothing has been done,
    and every key of that length that differs from every key of the trie
    before its last byte: inserting the key returns [true] and deleting
    it again returns [true] and the trie as it was, hashes included. The
    keys of the trie are those that [getAllValues] returns. *)
Theorem delete_inverts_insert (L : nat) (T : TrieNode) (s : Uint8Array) :
  (TIMESTAMP_LENGTH < L)%nat ->
  Reachable L T -> T <> new_TrieNode -> List.length s = L ->
  (forall k, In k (keys_of T) -> firstn (L - 1) k <> firstn (L - 1) s) ->
  exists T',
    insert s 0 T = (T', Normal true) /\ delete s 0 T' = (T, Normal true).
Proof.
  intros HL HR Hnew Hs Hclash. apply (Reachable_RootInv HL) in HR.
  destruct HR as [->|[->|HC]].
  - now contradiction Hnew.
  - destruct (insert_blank_root HL EMPTY_HASH s Hs) as (T' & E & _ & D & _).
    exists T'. now split.
  - destruct (@insert_at_Canon _ L HL s Hs s [] 0%nat T HC eq_refl eq_refl)
      as (n' & r & E & Hout).
    unfold insert, delete. cbn [skipn]. rewrite E.
    destruct r as [[|]|e]; cbn [insert_outcome] in Hout.
    + destruct Hout as (_ & _ & D). exists n'. now split.
    + destruct Hout as [_ I]. now contradiction (Hclash s I).
    + destruct Hout as (_ & k & I & F). now contradiction (Hclash k I).
Qed.




(** C10. The read operations leave the trie as it was: the node after
    [exists], [getSnapshot], [getNode] or [getAllValues] is the node
    before, with its hash, its item count and all that is below it. *)
Theorem read_operations_frame (T : TrieNode) (key pre : Uint8Array) (idx : nat) :
  fst (exists_ key idx T) = T
  /\ fst (getSnapshot pre idx T) = T
  /\ fst (getNode pre T) = T
  /\ fst (getAllValues T) = T.
Proof.
  repeat split.
  - apply exists_at_frame.
  - apply getSnapshot_frame.
  - apply getNode_frame.
  - now rewrite getAllValues_keys_of.
Qed.
End TrieClaims.

(** ** Exceptions of the traversal *)

Section Exceptions.
Context {B3 : Blake3}.

Lemma insert_child_abrupt rec char this e :
  snd (insert_child rec char this) = Abrupt e ->
  exists child, snd (rec child) = Abrupt e.
Proof.
  unfold insert_child, call_child.
  destruct (Map_get _ char) as [child|]; [|discriminate].
  destruct (rec child) as [child' [[|]|e']] eqn:E; simpl; try discriminate.
  intros [= ->]. exists child. now rewrite E.
Qed.

Lemma insert_new_at_abrupt key rest :
  forall idx e, snd (insert_new_at key rest idx) = Abrupt e ->
                e = ThrowString "Key length exceeded".
Proof.
  induction rest as [|c rest IH]; intros idx e; cbn [insert_new_at].
  - now intros [= <-].
  - destruct (TIMESTAMP_LENGTH <=? idx)%nat; [discriminate|].
    intro E. apply insert_child_abrupt in E as [_ E]. eauto.
Qed.

Lemma splitLeafNode_abrupt idx this k e :
  _key this = Some k ->
  snd (_splitLeafNode idx this) = Abrupt e ->
  e = ThrowString "Key length exceeded".
Proof.
  intro K. unfold _splitLeafNode, call_child. rewrite K.
  destruct (Map_get _ _) as [child|]; [|discriminate].
  destruct (insert_new_at k (skipn (S idx) k) (S idx)) as [child' [b|e']] eqn:E;
    simpl; [discriminate|].
  intros [= <-]. eapply insert_new_at_abrupt. now rewrite E.
Qed.

Lemma insert_at_abrupt key rest :
  forall idx this e, snd (insert_at key rest idx this) = Abrupt e ->
                     e = ThrowString "Key length exceeded".
Proof.
  induction rest as [|c rest IH]; intros idx this e; cbn [insert_at].
  - now intros [= <-].
  - destruct (TIMESTAMP_LENGTH <=? idx)%nat; cbn [andb].
    2:{ intro E. apply insert_child_abrupt in E as [child E]. eauto. }
    destruct (isLeaf this); cbn [andb].
    2:{ intro E. apply insert_child_abrupt in E as [child E]. eauto. }
    destruct (_key this) as [k|] eqn:K; [|discriminate].
    destruct (bytesCompare (key_or_empty this) key =? 0); [discriminate|].
    pose proof (@splitLeafNode_abrupt idx this k) as S.
    destruct (_splitLeafNode idx this) as [this1 [u|e']]; simpl in *.
    + intro E. apply insert_child_abrupt in E as [child E]. eauto.
    + intros [= <-]. now apply S.
Qed.

Lemma delete_at_abrupt key rest :
  forall idx this e, snd (delete_at key rest idx this) = Abrupt e ->
                     e = ThrowString "Key length exceeded2".
Proof.
  induction rest as [|c rest IH]; intros idx this e; cbn [delete_at];
    destruct (isLeaf this);
    try (destruct (bytesCompare (key_or_empty this) key =? 0); discriminate).
  - now intros [= <-].
  - unfold call_child. destruct (Map_get _ _) as [child|]; [|discriminate].
    destruct (delete_at key rest (S idx) child) as [child' [[|]|e']] eqn:E;
      simpl; try discriminate.
    intros [= <-]. eapply IH. now rewrite E.
Qed.

Lemma exists_at_abrupt key rest :
  forall idx this e, snd (exists_at key rest idx this) = Abrupt e ->
                     e = ThrowString "Key length exceeded3".
Proof.
  induction rest as [|c rest IH]; intros idx this e; cbn [exists_at];
    destruct (isLeaf this && (bytesCompare (key_or_empty this) key =? 0));
    try discriminate.
  - now intros [= <-].
  - unfold call_child. destruct (Map_get _ _) as [child|]; [|discriminate].
    destruct (exists_at key rest (S idx) child) as [child' [b|e']] eqn:E;
      simpl; try discriminate.
    intros [= <-]. eapply IH. now rewrite E.
Qed.

(** C7, as amended. When the index has reached the length of the key,
    [insert] throws the string 'Key length exceeded' and leaves the node as
    it is; [delete] on a node that is not a leaf throws 'Key length
    exceeded2', and [exists] on a node that is not a leaf with that key
    throws 'Key length exceeded3'. Whatever the three operations throw, at
    any depth of the traversal, is the string of the operation: never a
    HubError, and so no [bad_request]. *)
Theorem key_length_exceeded_throws (key : Uint8Array) (idx : nat) (this : TrieNode) :
  ((List.length key <= idx)%nat ->
   insert key idx this = (this, Abrupt (ThrowString "Key length exceeded"))
   /\ (isLeaf this = false ->
       delete key idx this = (this, Abrupt (ThrowString "Key length exceeded2")))
   /\ (isLeaf this && (bytesCompare (key_or_empty this) key =? 0) = false ->
       exists_ key idx this = (this, Abrupt (ThrowString "Key length exceeded3"))))
  /\ (forall e, snd (insert key idx this) = Abrupt e ->
                e = ThrowString "Key length exceeded")
  /\ (forall e, snd (delete key idx this) = Abrupt e ->
                e = ThrowString "Key length exceeded2")
  /\ (forall e, snd (exists_ key idx this) = Abrupt e ->
                e = ThrowString "Key length exceeded3").
Proof.
  split; [|split; [|split]].
  - intro H. unfold insert, delete, exists_.
    rewrite skipn_all2 by exact H. cbn [insert_at delete_at exists_at].
    split; [reflexivity|]. split; intro E; now rewrite E.
  - apply insert_at_abrupt.
  - apply delete_at_abrupt.
  - apply exists_at_abrupt.
Qed.
End Exceptions.

(** * Examples, witnesses and counterexamples on the trie *)

Section TrieExamples.
#[local] Existing Instance Checksum160.

Lemma Reachable_trie_a : Reachable 36 trie_a.
Proof.
  apply Reachable_insert with (T := new_TrieNode) (key := key_a) (b := true);
    [constructor | reflexivity | vm_compute; reflexivity].
Qed.

Lemma Reachable_trie_ac : Reachable 36 trie_ac.
Proof.
  apply Reachable_insert with (T := trie_a) (key := key_c) (b := true);
    [apply Reachable_trie_a | reflexivity | vm_compute; reflexivity].
Qed.

Lemma Reachable_trie_emptied : Reachable 36 trie_emptied.
Proof.
  apply Reachable_delete with (T := trie_a) (key := key_a) (b := true);
    [apply Reachable_trie_a | reflexivity | vm_compute; reflexivity].
Qed.

Lemma node_16_children :
  map fst (_children node_16) = [Some x0a; Some x09].
Proof. vm_compute. reflexivity. Qed.

Lemma Subnode_node_16 : Subnode node_16 trie_ac.
Proof.
  apply getNode_Subnode with (pre := key_head). vm_compute. reflexivity.
Qed.

Lemma children_sorted_and_hashed_witness :
  StronglySorted key_lt (map fst (_children node_16))
  /\ (_children node_16 <> [] ->
      _hash node_16 =
      toString_hex
        (blake3 (List.concat
                   (map (fun e => Buffer_from_hex (_hash (snd e)))
                        (_children node_16))))
      /\ Forall (fun e => List.length (Buffer_from_hex (_hash (snd e))) = 20%nat)
                (_children node_16)).
Proof.
  apply (@children_sorted_and_hashed Checksum160 36 trie_ac node_16).
  - unfold TIMESTAMP_LENGTH. lia.
  - exact Reachable_trie_ac.
  - exact Subnode_node_16.
Defined.

(** C1 as stated fails: the children of [node_16] are not in ascending
    numeric order. *)
Lemma children_numeric_order_counterexample :
  ~ (forall T n, Reachable 36 T -> Subnode n T ->
                 ascending_bytes (map fst (_children n))).
Proof.
  intro H. specialize (H trie_ac node_16 Reachable_trie_ac Subnode_node_16).
  rewrite node_16_children in H. unfold ascending_bytes in H.
  apply StronglySorted_inv in H as [_ H].
  apply Forall_inv in H. vm_compute in H. discriminate.
Qed.

Lemma delete_inverts_insert_witness :
  exists T',
    insert key_c 0 trie_a = (T', Normal true)
    /\ delete key_c 0 T' = (trie_a, Normal true).
Proof.
  apply (@delete_inverts_insert Checksum160 36 trie_a key_c).
  - unfold TIMESTAMP_LENGTH. lia.
  - exact Reachable_trie_a.
  - vm_compute. discriminate.
  - reflexivity.
  - intros k I. vm_compute in I. destruct I as [<-|[]]. vm_compute. discriminate.
Defined.

(** C2 as stated fails on the new trie: inserting a key and deleting it
    leaves a root whose hash is [EMPTY_HASH], not the empty string. *)
Lemma delete_insert_new_trie_counterexample :
  ~ (forall T s T1 T2,
        Reachable 36 T -> List.length s = 36%nat -> ~ In s (keys_of T) ->
        insert s 0 T = (T1, Normal true) ->
        delete s 0 T1 = (T2, Normal true) ->
        T2 = T).
Proof.
  intro H.
  specialize (H new_TrieNode key_a trie_a trie_emptied).
  assert (E : trie_emptied = new_TrieNode).
  { apply H.
    - constructor.
    - reflexivity.
    - simpl. tauto.
    - vm_compute. reflexivity.
    - vm_compute. reflexivity. }
  vm_compute in E. discriminate.
Qed.


(** The trie in which [key_a] has been inserted and deleted has no items:
    its visible root hash is the empty string, while the hash kept by its
    root node is [EMPTY_HASH]. The test of the wrapper, 'delete an item
    from the trie', expects [rootHash] to equal [EMPTY_HASH] there. *)
Lemma emptied_trie_rootHash :
  items (Build_MerkleTrie trie_emptied) = 0
  /\ rootHash (Build_MerkleTrie trie_emptied) = EmptyString
  /\ _hash trie_emptied = EMPTY_HASH.
Proof. vm_compute. repeat split. Qed.

(** C4 fails on [key_a] and [key_b], which differ in their last byte
    only: whichever is inserted second, [insert] throws, and the roots
    that are left have different hashes. *)
Lemma insert_last_byte_throws :
  snd (insert key_b 0 (fst (insert key_a 0 new_TrieNode)))
  = Abrupt (ThrowString "Key length exceeded")
  /\ snd (insert key_a 0 (fst (insert key_b 0 new_TrieNode)))
     = Abrupt (ThrowString "Key length exceeded")
  /\ _hash (fst (insert key_b 0 (fst (insert key_a 0 new_TrieNode))))
     <> _hash (fst (insert key_a 0 (fst (insert key_b 0 new_TrieNode)))).
Proof.
  split; [vm_compute; reflexivity|]. split; [vm_compute; reflexivity|].
  vm_compute. discriminate.
Qed.

Lemma key_length_exceeded_throws_witness :
  insert [] 0 new_TrieNode
  = (new_TrieNode, Abrupt (ThrowString "Key length exceeded")).
Proof.
  apply (proj1 (key_length_exceeded_throws [] 0 new_TrieNode)).
  simpl. lia.
Defined.

(** C7 as stated fails: what [insert] throws past the end of the key is a
    string, not a HubError with the code [bad_request]. *)
Lemma key_length_exceeded_counterexample :
  ~ (forall key idx this,
        (List.length key <= idx)%nat ->
        exists message,
          snd (insert key idx this) = Abrupt (ThrowHubError "bad_request" message)).
Proof.
  intro H. destruct (H [] 0%nat new_TrieNode) as [m E]; [simpl; lia|].
  vm_compute in E. discriminate.
Qed.
End TrieExamples.

(** * The claim on the SyncId *)

Lemma trim_start_digit (b : byte) (bs : Uint8Array) :
  is_digit b = true -> trim_start (b :: bs) = b :: bs.
Proof. destruct b; intro H; try discriminate H; reflexivity. Qed.

Lemma is_digit_range (b : byte) :
  is_digit b = true -> (48 <= Byte.to_N b <= 57)%N.
Proof.
  unfold is_digit. intro H. apply andb_true_iff in H as [H1 H2].
  apply N.leb_le in H1, H2. lia.
Qed.

Lemma parse_digits_all (ds : Uint8Array) :
  forall acc, forallb is_digit ds = true ->
  parse_digits (Some acc) ds =
  Some (fold_left (fun a d => 10 * a + digit_value d) ds acc).
Proof.
  induction ds as [|d ds IH]; intros acc H; [reflexivity|].
  simpl in H. apply andb_true_iff in H as [Hd Hds].
  cbn [parse_digits fold_left]. rewrite Hd. now apply IH.
Qed.

Lemma fold_digits_nonneg (ds : Uint8Array) :
  forall acc, forallb is_digit ds = true -> 0 <= acc ->
  0 <= fold_left (fun a d => 10 * a + digit_value d) ds acc.
Proof.
  induction ds as [|d ds IH]; intros acc H A; [exact A|].
  simpl in H. apply andb_true_iff in H as [Hd Hds].
  cbn [fold_left]. apply IH; [exact Hds|].
  apply is_digit_range in Hd. unfold digit_value. lia.
Qed.

Lemma parseInt10_digits (ds : Uint8Array) :
  ds <> [] -> forallb is_digit ds = true ->
  parseInt10 ds = Num (decimal_value ds).
Proof.
  destruct ds as [|d ds]; [congruence|]. intros _ H.
  unfold parseInt10. simpl in H. apply andb_true_iff in H as [Hd Hds].
  rewrite trim_start_digit by exact Hd.
  pose proof (is_digit_range d Hd) as R.
  assert (E1 : (Byte.to_N d =? 45)%N = false) by (apply N.eqb_neq; lia).
  assert (E2 : (Byte.to_N d =? 43)%N = false) by (apply N.eqb_neq; lia).
  rewrite E1, E2. cbn [parse_digits]. rewrite Hd.
  rewrite parse_digits_all by exact Hds. reflexivity.
Qed.

Lemma uint32BE_length (v : Z) : List.length (uint32BE v) = 4%nat.
Proof. unfold uint32BE. now rewrite length_map, length_seq. Qed.

(** C5, as amended. A SyncId has 36 bytes: ten for the timestamp, one for
    the family prefix, four for the fid, one for the set postfix and twenty
    for the hash. For every SyncId of 36 bytes, held in a [Buffer], whose
    first ten bytes are decimal digits of a number that fits 32 bits,
    [pkFromSyncId] returns the store key of 30 bytes: bytes 10 to 15 of the
    SyncId, the four bytes of the timestamp with the most significant
    first, and bytes 16 to 35, the hash. *)
Theorem pkFromSyncId_layout (syncId : Uint8Array) :
  List.length syncId = 36%nat ->
  forallb is_digit (firstn 10 syncId) = true ->
  decimal_value (firstn 10 syncId) <= 4294967295 ->
  let pk := firstn 6 (skipn 10 syncId)
            ++ uint32BE (decimal_value (firstn 10 syncId))
            ++ skipn 16 syncId in
  pkFromSyncId true syncId = Normal pk /\ List.length pk = 30%nat.
Proof.
  intros HL Hd Hv pk.
  assert (Hn : 0 <= decimal_value (firstn 10 syncId)).
  { apply fold_digits_nonneg; [exact Hd | lia]. }
  unfold pkFromSyncId, Uint8Array_toString, TIMESTAMP_LENGTH, FID_BYTES, HASH_LENGTH.
  rewrite parseInt10_digits; [|intro E; apply (f_equal (@List.length _)) in E;
                                rewrite length_firstn, HL in E; discriminate
                              |exact Hd].
  unfold writeUInt32BE.
  replace (decimal_value (firstn 10 syncId) >? 4294967295) with false
    by (symmetry; rewrite Z.gtb_ltb; apply Z.ltb_ge; lia).
  replace (decimal_value (firstn 10 syncId) <? 0) with false
    by (symmetry; apply Z.ltb_ge; lia).
  cbn [orb]. subst pk.
  pose proof (uint32BE_length (decimal_value (firstn 10 syncId))) as H4.
  destruct (uint32BE (decimal_value (firstn 10 syncId)))
    as [|t0 [|t1 [|t2 [|t3 [|t4 tl]]]]]; try discriminate H4.
  do 37 (destruct syncId as [|? syncId]; try discriminate HL).
  split; reflexivity.
Qed.

Section SyncIdExamples.
Lemma pkFromSyncId_layout_witness :
  pkFromSyncId true key_a
  = Normal (firstn 6 (skipn 10 key_a)
            ++ uint32BE (decimal_value (firstn 10 key_a)) ++ skipn 16 key_a)
  /\ List.length (firstn 6 (skipn 10 key_a)
                  ++ uint32BE (decimal_value (firstn 10 key_a))
                  ++ skipn 16 key_a) = 30%nat.
Proof.
  apply (pkFromSyncId_layout key_a).
  - reflexivity.
  - reflexivity.
  - vm_compute. discriminate.
Defined.

(** C5 as stated fails: on 40 bytes the last [set] of [pkFromSyncId] has
    24 bytes to put where 20 are left, and throws. *)
Lemma pkFromSyncId_40_bytes_counterexample :
  ~ (forall isBuffer syncId,
        List.length syncId = 40%nat ->
        exists pk, pkFromSyncId isBuffer syncId = Normal pk
                   /\ List.length pk = 30%nat).
Proof.
  intro H. destruct (H true (key_a ++ [x01; x02; x03; x04])) as (pk & E & _);
    [reflexivity|].
  vm_compute in E. discriminate.
Qed.

(** On 40 bytes [pkFromSyncId] throws whatever the bytes are. *)
Lemma pkFromSyncId_40_bytes_throws (isBuffer : bool) (syncId : Uint8Array) :
  List.length syncId = 40%nat ->
  exists e, pkFromSyncId isBuffer syncId = Abrupt e.
Proof.
  intro HL. unfold pkFromSyncId, TIMESTAMP_LENGTH, FID_BYTES, HASH_LENGTH.
  destruct (writeUInt32BE _) as [tsBE|e] eqn:W; [|eauto].
  assert (H4 : List.length tsBE = 4%nat).
  { unfold writeUInt32BE in W. destruct (parseInt10 _) as [|v].
    - injection W as <-. apply uint32BE_length.
    - destruct ((v >? 4294967295) || (v <? 0)); [discriminate|].
      injection W as <-. apply uint32BE_length. }
  destruct tsBE as [|t0 [|t1 [|t2 [|t3 [|t4 tl]]]]]; try discriminate H4.
  do 41 (destruct syncId as [|? syncId]; try discriminate HL).
  eexists. reflexivity.
Qed.

(** A plain typed array is not read as the text of its bytes: the
    timestamp written for [key_a] is 49, the code of its first digit. *)
Lemma pkFromSyncId_plain_array :
  pkFromSyncId false key_a
  = Normal (firstn 6 (skipn 10 key_a) ++ uint32BE 49 ++ skipn 16 key_a).
Proof. vm_compute. reflexivity. Qed.
End SyncIdExamples.

(** * The claims on the sync engine *)

Module SyncEngineFacts.
Import SyncEngine SyncEngineSpec SyncEngineExamples.

Section Facts.
Variables (World IdRegistryEvent : Type).
Variable getIdRegistryEvent : N -> World -> HubResult IdRegistryEvent * World.
Variable getAllSignerMessagesByFid : N -> World -> HubResult (list Message) * World.
Variable getAllSyncIdsByPrefix :
  Uint8Array -> World -> HubResult (list Uint8Array) * World.
Variable getSyncMetadataByPrefix :
  Uint8Array -> World -> HubResult TrieNodeMetadataResponse * World.
Variable mergeIdRegistryEvent : IdRegistryEvent -> World -> HubResult unit * World.
Variable mergeMessages : list Message -> World -> list (HubResult unit) * World.
Variable mergeMessage : Message -> World -> HubResult unit * World.
Variable getTrieNodeMetadata : Uint8Array -> option NodeMetadata.

Abbreviation byNode :=
  (fetchMissingHashesByNode getAllSyncIdsByPrefix getSyncMetadataByPrefix
                            getTrieNodeMetadata).
Abbreviation byPrefix :=
  (fetchMissingHashesByPrefix getAllSyncIdsByPrefix getSyncMetadataByPrefix
                              getTrieNodeMetadata).
Abbreviation walk :=
  (@visit World IdRegistryEvent getAllSyncIdsByPrefix getSyncMetadataByPrefix
          getTrieNodeMetadata).
Abbreviation syncUser :=
  (syncUserAndRetryMessage getIdRegistryEvent getAllSignerMessagesByFid
                           mergeIdRegistryEvent mergeMessages mergeMessage).

Lemma for_each_child_visit fuel ourNode entries :
  forall missingHashes st,
    for_each_child (byPrefix fuel) ourNode entries missingHashes st =
    walk fuel (map (fun e => node_prefix (snd e)) (to_visit ourNode entries))
          missingHashes st.
Proof.
  induction entries as [|[c child] entries IH]; intros acc st; [reflexivity|].
  cbn [for_each_child to_visit filter fst snd].
  destruct (hash_differs (our_child_hash ourNode c) (node_hash child)).
  - cbn [map visit snd]. unfold bind.
    destruct (byPrefix fuel (node_prefix child) st) as [[ids|] st'];
      [apply IH | reflexivity].
  - apply IH.
Qed.

(** C6. When the peer's node has at most 50 messages,
    [fetchMissingHashesByNode] makes one call, [getAllSyncIdsByPrefix]
    with the prefix of the node, and returns the ids of the answer (none
    if the call fails). Otherwise it calls [fetchMissingHashesByPrefix]
    on the children of the peer's node whose hash is not that of the
    local child with the same key, in the order of the map, and on no
    other; a child that the local node does not have counts as
    different. *)
Theorem fetchMissingHashesByNode_cases (fuel : nat) (theirNode : NodeMetadata)
    (ourNode : option NodeMetadata) (w : World) (log : list (Call IdRegistryEvent)) :
  (node_numMessages theirNode <= HASHES_PER_FETCH ->
   byNode fuel theirNode ourNode (w, log) =
   (Some (match fst (getAllSyncIdsByPrefix (node_prefix theirNode) w) with
          | Ok ids => ids
          | Err _ => []
          end),
    (snd (getAllSyncIdsByPrefix (node_prefix theirNode) w),
     log ++ [Call_getAllSyncIdsByPrefix _ (node_prefix theirNode)])))
  /\ (HASHES_PER_FETCH < node_numMessages theirNode ->
      forall children, node_children theirNode = Some children ->
      byNode fuel theirNode ourNode (w, log) =
      walk fuel (map (fun e => node_prefix (snd e)) (to_visit ourNode children))
            [] (w, log)
      /\ forall char theirChild,
           In (char, theirChild) children ->
           (In (char, theirChild) (to_visit ourNode children) <->
            our_child_hash ourNode char <> Some (node_hash theirChild))).
Proof.
  unfold fetchMissingHashesByNode, fetchMissingHashesByNode_with. split.
  - intro H. apply Z.leb_le in H. rewrite H. unfold bind, call, ret. simpl.
    destruct (getAllSyncIdsByPrefix (node_prefix theirNode) w) as [r w'].
    reflexivity.
  - intros H children E. apply Z.leb_gt in H. rewrite H, E. split.
    + apply for_each_child_visit.
    + intros char theirChild I. unfold to_visit. rewrite filter_In. simpl.
      unfold hash_differs.
      destruct (our_child_hash ourNode char) as [h|].
      * rewrite negb_true_iff, String.eqb_neq. split.
        -- intros [_ N] [= E']. contradiction.
        -- intro N. split; [exact I|]. congruence.
      * split; [discriminate | tauto].
Qed.

(** C8, as amended. For a message with a fid,
    [syncUserAndRetryMessage] returns the error
    [unavailable.network_failure] when the fetch of the ID registry
    event from the peer fails, and [unavailable.storage_failure] when
    the merge of that event fails. When both succeed, the signer
    messages are fetched and at least one of them is merged, it merges
    the original message once more, once, and returns the result of
    that merge if it is a success, and otherwise the error
    [unavailable.storage_failure] with the error of that merge as its
    cause. *)
Theorem syncUserAndRetryMessage_outcomes (message : Message) (f : N)
    (w : World) (log : list (Call IdRegistryEvent)) :
  message_fid message = Some f ->
  (forall e w1,
      getIdRegistryEvent f w = (Err e, w1) ->
      fst (syncUser message (w, log)) =
      Err (HubError_message "unavailable.network_failure"
                            "Failed to fetch custody event"))
  /\ (forall event w1 e w2,
         getIdRegistryEvent f w = (Ok event, w1) ->
         mergeIdRegistryEvent event w1 = (Err e, w2) ->
         fst (syncUser message (w, log)) =
         Err (HubError_message "unavailable.storage_failure"
                               "Failed to merge custody event"))
  /\ (forall event w1 u w2 messages w3 results w4 retry w5,
         getIdRegistryEvent f w = (Ok event, w1) ->
         mergeIdRegistryEvent event w1 = (Ok u, w2) ->
         getAllSignerMessagesByFid f w2 = (Ok messages, w3) ->
         mergeMessages messages w3 = (results, w4) ->
         existsb isOk results = true ->
         mergeMessage message w4 = (retry, w5) ->
         syncUser message (w, log) =
         (mapErr (HubError_cause "unavailable.storage_failure") retry,
          (w5, log ++ [Call_getIdRegistryEvent _ f;
                       Call_mergeIdRegistryEvent event;
                       Call_getAllSignerMessagesByFid _ f;
                       Call_mergeMessages _ messages;
                       Call_mergeMessage _ message]))
         /\ isOk (fst (syncUser message (w, log))) = isOk retry).
Proof.
  intro F. unfold syncUserAndRetryMessage. rewrite F.
  unfold bind, call, ret. cbn [fst snd]. split; [|split].
  - intros e w1 E. rewrite E. reflexivity.
  - intros event w1 e w2 E1 E2. rewrite E1. cbn [fst snd]. rewrite E2.
    reflexivity.
  - intros event w1 u w2 messages w3 results w4 retry w5 E1 E2 E3 E4 X E5.
    rewrite E1. cbn [fst snd]. rewrite E2. cbn [fst snd]. rewrite E3.
    cbn [fst snd]. rewrite E4. cbn [fst snd].
    assert (A : forallb isErr results = false).
    { apply not_true_is_false. intro A. rewrite forallb_forall in A.
      apply existsb_exists in X as [r [I O]]. specialize (A r I).
      unfold isOk in O. rewrite A in O. discriminate. }
    rewrite A. cbn [fst snd]. rewrite E5. cbn [fst snd].
    rewrite <- !app_assoc. cbn [app].
    split; [reflexivity|]. now destruct retry.
Qed.

(** C9. For a message with a fid, when the ID registry event is fetched
    and merged and the peer answers the request for the signer messages
    with no message, for which the store returns no result,
    [syncUserAndRetryMessage] returns the error
    [unavailable.storage_failure] and does not merge the original
    message: the calls it has made are the four before the retry. *)
Theorem syncUserAndRetryMessage_no_signers (message : Message) (f : N)
    (w : World) (log : list (Call IdRegistryEvent)) event w1 u w2 w3 w4 :
  message_fid message = Some f ->
  getIdRegistryEvent f w = (Ok event, w1) ->
  mergeIdRegistryEvent event w1 = (Ok u, w2) ->
  getAllSignerMessagesByFid f w2 = (Ok [], w3) ->
  mergeMessages [] w3 = ([], w4) ->
  syncUser message (w, log) =
  (Err (HubError_message "unavailable.storage_failure"
                         "Failed to merge signer messages"),
   (w4, log ++ [Call_getIdRegistryEvent _ f;
                Call_mergeIdRegistryEvent event;
                Call_getAllSignerMessagesByFid _ f;
                Call_mergeMessages _ []]))
  /\ forall m, ~ In (Call_mergeMessage _ m)
                    [Call_getIdRegistryEvent _ f;
                     Call_mergeIdRegistryEvent event;
                     Call_getAllSignerMessagesByFid _ f;
                     Call_mergeMessages IdRegistryEvent []].
Proof.
  intros F E1 E2 E3 E4. unfold syncUserAndRetryMessage. rewrite F.
  unfold bind, call, ret. cbn [fst snd].
  rewrite E1. cbn [fst snd]. rewrite E2. cbn [fst snd]. rewrite E3.
  cbn [fst snd]. rewrite E4. cbn [fst snd forallb].
  rewrite <- !app_assoc. cbn [app]. split; [reflexivity|].
  intros m [H|[H|[H|[H|[]]]]]; discriminate H.
Qed.
End Facts.

Lemma fetchMissingHashesByNode_cases_witness :
  fetchMissingHashesByNode peer_getAllSyncIdsByPrefix peer_getSyncMetadataByPrefix
    local_getTrieNodeMetadata 0 small_node None (tt, []) =
  (Some [key_a], (tt, [Call_getAllSyncIdsByPrefix unit key_head]))
  /\ (@fetchMissingHashesByNode unit unit peer_getAllSyncIdsByPrefix
        peer_getSyncMetadataByPrefix local_getTrieNodeMetadata 1 large_node
        (Some local_node) (tt, []) =
      @visit unit unit peer_getAllSyncIdsByPrefix peer_getSyncMetadataByPrefix
        local_getTrieNodeMetadata 1 [key_head ++ [x0a]] [] (tt, [])
      /\ forall char theirChild,
           In (char, theirChild) large_children ->
           (In (char, theirChild) (to_visit (Some local_node) large_children) <->
            our_child_hash (Some local_node) char <> Some (node_hash theirChild))).
Proof.
  split.
  - apply (proj1 (@fetchMissingHashesByNode_cases unit unit
                    peer_getAllSyncIdsByPrefix peer_getSyncMetadataByPrefix
                    local_getTrieNodeMetadata 0 small_node None tt [])).
    unfold HASHES_PER_FETCH. simpl. lia.
  - exact (proj2 (@fetchMissingHashesByNode_cases unit unit
                    peer_getAllSyncIdsByPrefix peer_getSyncMetadataByPrefix
                    local_getTrieNodeMetadata 1 large_node (Some local_node)
                    tt [])
             eq_refl large_children eq_refl).
Defined.

Lemma syncUserAndRetryMessage_outcomes_witness :
  fst (syncUserAndRetryMessage peer_unreachable peer_getAllSignerMessagesByFid
         store_mergeIdRegistryEvent store_mergeMessages store_mergeMessage_fails
         example_message (tt, [])) =
  Err (HubError_message "unavailable.network_failure"
                        "Failed to fetch custody event")
  /\ fst (syncUserAndRetryMessage peer_getIdRegistryEvent
            peer_getAllSignerMessagesByFid store_mergeIdRegistryEvent_fails
            store_mergeMessages store_mergeMessage_fails
            example_message (tt, [])) =
     Err (HubError_message "unavailable.storage_failure"
                           "Failed to merge custody event")
  /\ syncUserAndRetryMessage peer_getIdRegistryEvent peer_getAllSignerMessagesByFid
       store_mergeIdRegistryEvent store_mergeMessages store_mergeMessage_fails
       example_message (tt, []) =
     (Err (HubError_cause "unavailable.storage_failure" invalid_signer),
      (tt, [Call_getIdRegistryEvent unit 7;
            Call_mergeIdRegistryEvent tt;
            Call_getAllSignerMessagesByFid unit 7;
            Call_mergeMessages unit [example_signer];
            Call_mergeMessage unit example_message])).
Proof.
  split; [|split].
  - apply (proj1 (@syncUserAndRetryMessage_outcomes unit unit
                    peer_unreachable peer_getAllSignerMessagesByFid
                    store_mergeIdRegistryEvent store_mergeMessages
                    store_mergeMessage_fails example_message 7%N tt []
                    eq_refl)
             (HubError_message "unavailable.network_failure" "connection refused")
             tt eq_refl).
  - apply (proj1 (proj2 (@syncUserAndRetryMessage_outcomes unit unit
                           peer_getIdRegistryEvent peer_getAllSignerMessagesByFid
                           store_mergeIdRegistryEvent_fails store_mergeMessages
                           store_mergeMessage_fails example_message 7%N tt []
                           eq_refl))
             tt tt (HubError_message "bad_request.conflict" "event conflicts") tt
             eq_refl eq_refl).
  - apply (proj2 (proj2 (@syncUserAndRetryMessage_outcomes unit unit
                           peer_getIdRegistryEvent peer_getAllSignerMessagesByFid
                           store_mergeIdRegistryEvent store_mergeMessages
                           store_mergeMessage_fails example_message 7%N tt []
                           eq_refl))
             tt tt tt tt [example_signer] tt [Ok tt] tt (Err invalid_signer) tt
             eq_refl eq_refl eq_refl eq_refl eq_refl eq_refl).
Defined.

(** C8 as stated fails: when the retry fails, what is returned is not the
    result of the retry but an error of another kind around it. *)
Lemma retry_result_counterexample :
  ~ (forall (World IdRegistryEvent : Type)
            (getIdRegistryEvent : N -> World -> HubResult IdRegistryEvent * World)
            (getAllSignerMessagesByFid : N -> World -> HubResult (list Message) * World)
            (mergeIdRegistryEvent : IdRegistryEvent -> World -> HubResult unit * World)
            (mergeMessages : list Message -> World -> list (HubResult unit) * World)
            (mergeMessage : Message -> World -> HubResult unit * World)
            message f w log event w1 u w2 messages w3 results w4 retry w5,
        message_fid message = Some f ->
        getIdRegistryEvent f w = (Ok event, w1) ->
        mergeIdRegistryEvent event w1 = (Ok u, w2) ->
        getAllSignerMessagesByFid f w2 = (Ok messages, w3) ->
        mergeMessages messages w3 = (results, w4) ->
        existsb isOk results = true ->
        mergeMessage message w4 = (retry, w5) ->
        fst (syncUserAndRetryMessage getIdRegistryEvent getAllSignerMessagesByFid
               mergeIdRegistryEvent mergeMessages mergeMessage message (w, log))
        = retry).
Proof.
  intro H.
  specialize (H unit unit peer_getIdRegistryEvent peer_getAllSignerMessagesByFid
                store_mergeIdRegistryEvent store_mergeMessages
                store_mergeMessage_fails example_message 7%N tt [] tt tt tt tt
                [example_signer] tt [Ok tt] tt (Err invalid_signer) tt
                eq_refl eq_refl eq_refl eq_refl eq_refl eq_refl eq_refl).
  vm_compute in H. discriminate.
Qed.

Lemma syncUserAndRetryMessage_no_signers_witness :
  syncUserAndRetryMessage peer_getIdRegistryEvent peer_no_signers
    store_mergeIdRegistryEvent store_mergeMessages store_mergeMessage_fails
    example_message (tt, []) =
  (Err (HubError_message "unavailable.storage_failure"
                         "Failed to merge signer messages"),
   (tt, [Call_getIdRegistryEvent unit 7;
         Call_mergeIdRegistryEvent tt;
         Call_getAllSignerMessagesByFid unit 7;
         Call_mergeMessages unit []])).
Proof.
  apply (proj1 (@syncUserAndRetryMessage_no_signers unit unit
                  peer_getIdRegistryEvent peer_no_signers
                  store_mergeIdRegistryEvent store_mergeMessages
                  store_mergeMessage_fails example_message 7%N tt [] tt tt tt tt
                  tt tt eq_refl eq_refl eq_refl eq_refl eq_refl)).
Defined.
End SyncEngineFacts.

(** * More on the trie: lookups, counts and convergence *)

Lemma snoc_path (s p : Uint8Array) c rest :
  s = p ++ c :: rest ->
  s = (p ++ [c]) ++ rest /\ S (List.length p) = List.length (p ++ [c])
  /\ firstn (List.length (p ++ [c])) s = p ++ [c].
Proof.
  intros ->. rewrite length_app. simpl. split; [now rewrite <- app_assoc|].
  split; [lia|].
  replace (p ++ c :: rest) with ((p ++ [c]) ++ rest) by now rewrite <- app_assoc.
  rewrite firstn_app, length_app. simpl.
  replace (List.length p + 1 - (List.length p + 1))%nat with 0%nat by lia.
  rewrite firstn_all2 by (rewrite length_app; simpl; lia).
  simpl. now rewrite app_nil_r.
Qed.

Section TrieLookup.
Context {B3 : Blake3}.
Variable L : nat.
Hypothesis L_timestamp : (TIMESTAMP_LENGTH < L)%nat.

Lemma rest_nonempty (s p rest : Uint8Array) :
  s = p ++ rest -> List.length s = L -> (List.length p < L)%nat ->
  exists c rest', rest = c :: rest'.
Proof.
  intros -> HL D. destruct rest as [|c rest']; [|eauto].
  rewrite app_nil_r in HL. lia.
Qed.

(** The child of a canonical node under which a key lies. *)
Lemma key_child p ch s c rest :
  StronglySorted key_lt (map fst ch) ->
  (forall n, ~ In (None, n) ch) ->
  (forall b n, In (Some b, n) ch -> Canon L (p ++ [b]) n) ->
  ch <> [] ->
  s = p ++ c :: rest ->
  In s (keys_of (internal_node ch)) ->
  exists m, Map_get ch (Some c) = Some m /\ In s (keys_of m).
Proof.
  intros Hsort Hnone Hch Hne Hs I.
  apply (proj1 (@In_keys_of_internal _ ch s Hne)) in I as [[[b|] m] [I K]];
    [|exfalso; eapply Hnone; eauto].
  simpl in K. destruct (Canon_keys (Hch _ _ I) _ K) as [_ F].
  destruct (snoc_path _ _ _ Hs) as (_ & _ & F').
  pose proof (child_byte _ _ _ _ F F') as ->.
  exists m. split; [|exact K].
  exact (@Map_get_sorted _ _ _ _ Hsort I).
Qed.

Lemma exists_at_Canon s (Hs : List.length s = L) :
  forall p n, Canon L p n ->
  forall rest idx, idx = List.length p -> s = p ++ rest ->
  exists b, exists_at s rest idx n = (n, Normal b)
            /\ (b = true <-> In s (keys_of n)).
Proof.
  induction 1 as [p k D DL Lk Fk | p ch Hne Hsort Hnone Hch IH H2];
    intros rest idx -> Hsp.
  - destruct (rest_nonempty _ _ Hsp Hs DL) as (c & rest' & ->).
    cbn [exists_at]. cbn [isLeaf leaf_node _children _key key_or_empty andb].
    destruct (list_eq_dec Byte.byte_eq_dec k s) as [->|Hneq].
    + rewrite bytesCompare_refl. exists true. rewrite keys_of_leaf. simpl. tauto.
    + rewrite bytesCompare_neq by assumption.
      unfold call_child. cbn [_children leaf_node Map_get].
      exists false. rewrite keys_of_leaf. simpl. split; [reflexivity|].
      split; [discriminate|]. intros [E|[]]. contradiction.
  - pose proof (@Canon_internal _ L p ch Hne Hsort Hnone Hch H2) as HC.
    destruct (rest_nonempty _ _ Hsp Hs (Canon_depth HC)) as (c & rest' & ->).
    cbn [exists_at].
    assert (Lf : isLeaf (internal_node ch) = false) by (destruct ch; [congruence|reflexivity]).
    rewrite Lf. cbn [andb]. unfold call_child.
    cbn [_children internal_node].
    destruct (Map_get ch (Some c)) as [m|] eqn:G.
    + destruct (snoc_path _ _ _ Hsp) as (Hsp' & Hi & F').
      destruct (IH c m (Map_get_In _ _ G) rest' (S (List.length p)) Hi Hsp')
        as (b & E & Hb).
      rewrite E. exists b. split.
      * unfold set_children. cbn [_hash _items _children _key].
        rewrite (Map_set_same _ _ G). rewrite orb_false_r. reflexivity.
      * rewrite Hb. split; intro K.
        -- eapply keys_of_child; [eapply Map_get_In; exact G | exact K].
        -- destruct (@key_child p ch s c rest' Hsort Hnone Hch Hne Hsp K) as (m' & G' & K').
           rewrite G in G'. now injection G' as <-.
    + exists false. split; [reflexivity|]. split; [discriminate|].
      intro K. destruct (@key_child p ch s c rest' Hsort Hnone Hch Hne Hsp K) as (m' & G' & _).
      rewrite G in G'. discriminate.
Qed.

Lemma delete_at_absent s (Hs : List.length s = L) :
  forall p n, Canon L p n ->
  forall rest idx, idx = List.length p -> s = p ++ rest ->
  ~ In s (keys_of n) -> delete_at s rest idx n = (n, Normal false).
Proof.
  induction 1 as [p k D DL Lk Fk | p ch Hne Hsort Hnone Hch IH H2];
    intros rest idx -> Hsp Hn.
  - rewrite keys_of_leaf in Hn.
    destruct rest; cbn [delete_at isLeaf leaf_node _children _key key_or_empty];
      rewrite bytesCompare_neq by (intros ->; apply Hn; now left); reflexivity.
  - pose proof (@Canon_internal _ L p ch Hne Hsort Hnone Hch H2) as HC.
    destruct (rest_nonempty _ _ Hsp Hs (Canon_depth HC)) as (c & rest' & ->).
    assert (Lf : isLeaf (internal_node ch) = false) by (destruct ch; [congruence|reflexivity]).
    cbn [delete_at]. rewrite Lf. unfold call_child. cbn [_children internal_node].
    destruct (Map_get ch (Some c)) as [m|] eqn:G; [|reflexivity].
    destruct (snoc_path _ _ _ Hsp) as (Hsp' & Hi & F').
    rewrite (IH c m (Map_get_In _ _ G) rest' (S (List.length p)) Hi Hsp').
    + unfold set_children. cbn [_hash _items _children _key].
      rewrite (Map_set_same _ _ G). reflexivity.
    + intro K. apply Hn. eapply keys_of_child; [eapply Map_get_In; exact G | exact K].
Qed.
End TrieLookup.
Lemma NoDup_flat_map {A B : Type} (f : A -> list B) (l : list A) :
  NoDup l -> (forall a, In a l -> NoDup (f a)) ->
  (forall a1 a2 b, In a1 l -> In a2 l -> In b (f a1) -> In b (f a2) -> a1 = a2) ->
  NoDup (flat_map f l).
Proof.
  induction 1 as [|a l Ha Hl IH]; intros Hf Hd; [constructor|].
  cbn [flat_map]. apply NoDup_app.
  - apply Hf. now left.
  - apply IH.
    + intros a' I. apply Hf. now right.
    + intros a1 a2 b I1 I2. apply Hd; now right.
  - intros b I1 I2. apply in_flat_map in I2 as [a' [I' I2]].
    apply Ha. rewrite (Hd a a' b); auto; [now left | now right].
Qed.

Lemma sorted_keys_NoDup (l : list MapKey) : StronglySorted key_lt l -> NoDup l.
Proof.
  induction 1 as [|a l _ IH Hall]; constructor; [|exact IH].
  intro I. rewrite Forall_forall in Hall. exact (key_lt_irrefl (Hall _ I)).
Qed.

Section TrieCount.
Context {B3 : Blake3}.
Variable L : nat.
Hypothesis L_timestamp : (TIMESTAMP_LENGTH < L)%nat.

Lemma Canon_items_keys p n :
  Canon L p n -> _items n = Z.of_nat (List.length (keys_of n)).
Proof.
  induction 1 as [p k D DL Lk Fk | p ch Hne Hsort Hnone Hch IH H2].
  - reflexivity.
  - rewrite keys_of_internal by exact Hne. cbn [internal_node _items].
    clear Hne Hsort H2 Hch.
    induction ch as [|[[b|] m] ch IHch].
    + reflexivity.
    + cbn [sum_items fold_right flat_map snd]. rewrite length_app, Nat2Z.inj_add.
      rewrite (IH b m (or_introl eq_refl)).
      unfold sum_items in IHch. rewrite IHch; [reflexivity| |].
      * intros n I. apply (Hnone n). now right.
      * intros b' n I. apply (IH b'). now right.
    + exfalso. apply (Hnone m). now left.
Qed.

Lemma Canon_NoDup_keys p n : Canon L p n -> NoDup (keys_of n).
Proof.
  induction 1 as [p k D DL Lk Fk | p ch Hne Hsort Hnone Hch IH H2].
  - rewrite keys_of_leaf. repeat constructor. intros [].
  - rewrite keys_of_internal by exact Hne. apply NoDup_flat_map.
    + eapply NoDup_map_inv. apply sorted_keys_NoDup. exact Hsort.
    + intros [[b|] m] I; [|exfalso; eapply Hnone; eauto]. simpl. eapply IH; eauto.
    + intros [[b1|] m1] e2 k I1 I2 K1 K2; [|exfalso; eapply Hnone; eauto].
      simpl in K1. destruct (Canon_keys (Hch _ _ I1) _ K1) as [_ F].
      symmetry. exact (@key_in_child _ L p ch b1 m1 k Hsort Hnone Hch I1 F e2 I2 K2).
Qed.

(** The keys of a root built by the operations. *)
Lemma RootInv_keys T :
  RootInv L T ->
  (keys_of T = [] /\ _items T = 0 /\ (T = new_TrieNode \/ T = empty_node))
  \/ (keys_of T <> [] /\ Canon L [] T).
Proof.
  intros [->|[->|HC]]; [left; auto | left; auto |].
  right. split; [|exact HC].
  destruct (Canon_nonempty HC) as [k K]. intros E. rewrite E in K. contradiction.
Qed.

(** Inserting a key that is there changes nothing. *)
Lemma insert_present T s :
  Reachable L T -> In s (keys_of T) -> insert s 0 T = (T, Normal false).
Proof.
  intros HR I. apply (Reachable_RootInv L_timestamp) in HR.
  destruct (RootInv_keys HR) as [[E _]|[_ HC]]; [rewrite E in I; contradiction|].
  destruct (Canon_keys HC _ I) as [Hs _].
  destruct (@insert_at_Canon _ L L_timestamp s Hs s [] 0%nat T HC eq_refl eq_refl)
    as (n' & r & E & Hout).
  unfold insert. cbn [skipn]. rewrite E.
  destruct r as [[|]|e]; cbn [insert_outcome] in Hout.
  - exfalso. destruct Hout as (HC' & Hit & _ & Hk).
    assert (En : n' = T).
    { apply (Canon_unique L_timestamp HC' HC). intro k. rewrite Hk.
      split; [intros [->|K]; assumption | now right]. }
    subst n'. lia.
  - destruct Hout as [-> _]. reflexivity.
  - exfalso. destruct Hout as (_ & k & Ik & Hne & F). apply Hne.
    exact (Canon_no_clash L_timestamp HC _ _ Ik I F).
Qed.
End TrieCount.
Section TrieDelete.
Context {B3 : Blake3}.
Variable L : nat.
Hypothesis L_timestamp : (TIMESTAMP_LENGTH < L)%nat.

(** Deleting a key that is there: the trie after is the canonical trie of
    the other keys. *)
Lemma delete_present T s :
  Reachable L T -> In s (keys_of T) ->
  exists T',
    delete s 0 T = (T', Normal true)
    /\ RootInv L T'
    /\ _items T' = _items T - 1
    /\ forall k, In k (keys_of T') <-> In k (keys_of T) /\ k <> s.
Proof.
  intros HR I. apply (Reachable_RootInv L_timestamp) in HR.
  destruct (RootInv_keys HR) as [[E _]|[_ HC]]; [rewrite E in I; contradiction|].
  destruct (Canon_keys HC _ I) as [Hs _].
  set (l := filter (fun k => negb (bytesCompare k s =? 0)) (keys_of T)).
  assert (Il : forall k, In k l <-> In k (keys_of T) /\ k <> s).
  { intro k. unfold l. rewrite filter_In, negb_true_iff.
    split; intros [K N]; split; try exact K.
    - intros ->. rewrite bytesCompare_refl in N. discriminate.
    - now apply bytesCompare_neq. }
  assert (HLl : Forall (fun k => List.length k = L) l).
  { apply Forall_forall. intros k K. apply Il in K as [K _].
    exact (proj1 (Canon_keys HC _ K)). }
  assert (NC : no_clash L (l ++ [])).
  { rewrite app_nil_r. intros k1 k2 K1 K2 F.
    apply Il in K1 as [K1 _]. apply Il in K2 as [K2 _].
    exact (Canon_no_clash L_timestamp HC _ _ K1 K2 F). }
  destruct (@insert_forEach_keys _ L L_timestamp l new_TrieNode [])
    as (T0 & _ & H0); [now left | exact HLl | exact NC |].
  rewrite app_nil_r in H0.
  destruct H0 as [[-> El]|[HC0 K0]].
  - (* s is the only key *)
    destruct (insert_blank_root L_timestamp EmptyString s Hs)
      as (T1 & _ & HC1 & D1 & K1).
    assert (E1 : T1 = T).
    { apply (Canon_unique L_timestamp HC1 HC). intro k. rewrite K1. simpl.
      split.
      - intros [<-|[]]. exact I.
      - intro K. destruct (list_eq_dec Byte.byte_eq_dec k s) as [->|N]; [now left|].
        exfalso. assert (Kl : In k l) by (apply Il; now split).
        rewrite El in Kl. contradiction. }
    subst T1. exists empty_node. split; [exact D1|].
    split; [right; now left|]. split.
    + rewrite (Canon_items_keys HC), K1. reflexivity.
    + intro k. simpl. rewrite <- Il, El. reflexivity.
  - destruct (@insert_at_Canon _ L L_timestamp s Hs s [] 0%nat T0 HC0 eq_refl eq_refl)
      as (n' & r & E & Hout).
    destruct r as [[|]|e]; cbn [insert_outcome] in Hout.
    + destruct Hout as (HC' & Hit & D & Hk).
      assert (E1 : n' = T).
      { apply (Canon_unique L_timestamp HC' HC). intro k. rewrite Hk, K0, Il.
        split.
        - intros [->|[K _]]; assumption.
        - intro K. destruct (list_eq_dec Byte.byte_eq_dec k s) as [->|N]; auto. }
      subst n'. exists T0. split; [exact D|].
      split; [right; now right|]. split; [lia|].
      intro k. rewrite K0. apply Il.
    + exfalso. destruct Hout as [_ Is]. apply K0, Il in Is as [_ N]. now apply N.
    + exfalso. destruct Hout as (_ & k & Ik & Hne & F). apply Hne.
      apply K0, Il in Ik as [Ik _].
      exact (Canon_no_clash L_timestamp HC _ _ Ik I F).
Qed.

Lemma delete_absent T s :
  Reachable L T -> List.length s = L -> ~ In s (keys_of T) ->
  delete s 0 T = (T, Normal false).
Proof.
  intros HR Hs N. apply (Reachable_RootInv L_timestamp) in HR.
  destruct HR as [->|[->|HC]].
  - apply (delete_blank_root L_timestamp); exact Hs.
  - apply (delete_blank_root L_timestamp); exact Hs.
  - unfold delete. cbn [skipn].
    exact (@delete_at_absent _ L L_timestamp s Hs [] T HC s 0%nat eq_refl eq_refl N).
Qed.

Lemma exists_root T s :
  Reachable L T -> List.length s = L ->
  exists b, exists_ s 0 T = (T, Normal b) /\ (b = true <-> In s (keys_of T)).
Proof.
  intros HR Hs. apply (Reachable_RootInv L_timestamp) in HR.
  destruct (key_nonempty L_timestamp s Hs) as (c & rest & -> & _).
  destruct HR as [->|[->|HC]].
  - exists false. split; [reflexivity|]. simpl. split; [discriminate | tauto].
  - exists false. split; [reflexivity|]. simpl. split; [discriminate | tauto].
  - unfold exists_. cbn [skipn].
    exact (@exists_at_Canon _ L L_timestamp (c :: rest) Hs [] T HC (c :: rest) 0%nat
             eq_refl eq_refl).
Qed.
End TrieDelete.
Lemma filter_all {A : Type} (f : A -> bool) (l : list A) :
  (forall x, In x l -> f x = true) -> filter f l = l.
Proof.
  induction l as [|a l IH]; intro H; [reflexivity|]. simpl.
  rewrite (H a) by now left. f_equal. apply IH. intros x I. apply H. now right.
Qed.

Lemma filter_none {A : Type} (f : A -> bool) (l : list A) :
  (forall x, In x l -> f x = false) -> filter f l = [].
Proof.
  induction l as [|a l IH]; intro H; [reflexivity|]. simpl.
  rewrite (H a) by now left. apply IH. intros x I. apply H. now right.
Qed.

Lemma filter_flat_map {A B : Type} (f : B -> bool) (g : A -> list B) (l : list A) :
  filter f (flat_map g l) = flat_map (fun a => filter f (g a)) l.
Proof.
  induction l as [|a l IH]; [reflexivity|]. simpl. now rewrite filter_app, IH.
Qed.

(** Of the lists below a map in which a key occurs once, only the one under
    that key is left. *)
Lemma flat_map_one {B : Type} (g : MapKey * TrieNode -> list B)
    (ch : list (MapKey * TrieNode)) (c : MapKey) (m : TrieNode) :
  NoDup (map fst ch) -> In (c, m) ch ->
  (forall e, In e ch -> fst e <> c -> g e = []) ->
  flat_map g ch = g (c, m).
Proof.
  induction ch as [|[c' m'] ch IH]; intros ND I H; [contradiction|].
  simpl in ND. apply NoDup_cons_iff in ND as [Nin ND]. cbn [flat_map].
  destruct I as [[= -> ->]|I].
  - assert (E0 : flat_map g ch = []).
    { clear IH ND. induction ch as [|e ch IHc]; [reflexivity|]. cbn [flat_map].
      rewrite (H e); [|right; now left|].
      - apply IHc.
        + intro I. apply Nin. now right.
        + intros e' Ie'. apply H. destruct Ie' as [Ie'|Ie']; [now left|right; now right].
      - intros E. apply Nin. left. exact E. }
    rewrite E0. apply app_nil_r.
  - rewrite (H (c', m')); [|now left|].
    + simpl. apply IH; auto. intros e Ie. apply H. now right.
    + simpl. intros ->. apply Nin. change c with (fst (c, m)). now apply in_map.
Qed.

Lemma starts_with_iff (pre k : Uint8Array) :
  starts_with pre k = true <-> firstn (List.length pre) k = pre.
Proof. unfold starts_with. rewrite Z.eqb_eq. apply bytesCompare_eq. Qed.

Lemma starts_with_split (p : Uint8Array) c pre k :
  starts_with (p ++ c :: pre) k = true ->
  exists rest, k = p ++ c :: rest.
Proof.
  intro H. apply starts_with_iff in H.
  exists (pre ++ skipn (List.length (p ++ c :: pre)) k).
  rewrite <- (firstn_skipn (List.length (p ++ c :: pre)) k) at 1.
  rewrite H, <- app_assoc. reflexivity.
Qed.
Section TriePrefix.
Context {B3 : Blake3}.
Variable L : nat.
Hypothesis L_timestamp : (TIMESTAMP_LENGTH < L)%nat.

(** The keys below a canonical node that start with a longer path are
    those below the child for the next byte of the path. *)
Lemma filter_child p ch c pre m :
  Canon L p (internal_node ch) -> ch <> [] ->
  StronglySorted key_lt (map fst ch) ->
  (forall n, ~ In (None, n) ch) ->
  (forall b n, In (Some b, n) ch -> Canon L (p ++ [b]) n) ->
  Map_get ch (Some c) = Some m ->
  filter (starts_with (p ++ c :: pre)) (keys_of (internal_node ch))
  = filter (starts_with (p ++ c :: pre)) (keys_of m).
Proof.
  intros HC Hne Hsort Hnone Hch G.
  rewrite keys_of_internal by exact Hne. rewrite filter_flat_map.
  rewrite (@flat_map_one _ _ ch (Some c) m); [reflexivity| | |].
  - apply sorted_keys_NoDup. exact Hsort.
  - apply Map_get_In. exact G.
  - intros [[b|] n] I N; [|exfalso; eapply Hnone; eauto]. simpl in *.
    apply filter_none. intros k K.
    destruct (starts_with (p ++ c :: pre) k) eqn:E; [|reflexivity].
    exfalso. apply starts_with_split in E as [rest ->].
    destruct (Canon_keys (Hch _ _ I) _ K) as [_ F].
    destruct (@snoc_path (p ++ c :: rest) p c rest eq_refl) as (_ & _ & F').
    apply N. f_equal. exact (child_byte _ _ _ _ F F').
Qed.

Lemma filter_no_child p ch c pre :
  Canon L p (internal_node ch) -> ch <> [] ->
  StronglySorted key_lt (map fst ch) ->
  (forall n, ~ In (None, n) ch) ->
  (forall b n, In (Some b, n) ch -> Canon L (p ++ [b]) n) ->
  Map_get ch (Some c) = None ->
  filter (starts_with (p ++ c :: pre)) (keys_of (internal_node ch)) = [].
Proof.
  intros HC Hne Hsort Hnone Hch G. apply filter_none. intros k K.
  destruct (starts_with (p ++ c :: pre) k) eqn:E; [|reflexivity].
  exfalso. apply starts_with_split in E as [rest E].
  destruct (@key_child _ L p ch k c rest Hsort Hnone Hch Hne E K)
    as (m & G' & _).
  rewrite G in G'. discriminate.
Qed.


End TriePrefix.
Section Recalculate.
Context {B3 : Blake3}.
Variable L : nat.
Hypothesis L_timestamp : (TIMESTAMP_LENGTH < L)%nat.

Lemma recalculateHash_Canon p n :
  Canon L p n ->
  exists digest, recalculateHash n = (n, digest) /\ _hash n = toString_hex digest.
Proof.
  induction 1 as [p k D DL Lk Fk | p ch Hne Hsort Hnone Hch IH H2].
  - exists (blake3 k). unfold leaf_node. cbn [recalculateHash blake3Truncate160].
    destruct (String.eqb_spec (toString_hex (blake3 k)) EmptyString) as [E|_];
      [now apply digest_hex_nonempty in E|]. split; reflexivity.
  - exists (blake3 (children_digests ch)). unfold internal_node.
    cbn [recalculateHash].
    match goal with
    | |- (let '(ch', digest) :=
            match ch with [] => _ | _ :: _ => (let '(ch'', fed) := ?each ch in _) end
          in _) = _ /\ _ =>
        assert (F : each ch = (ch, children_digests ch))
    end.
    { clear Hne Hsort H2 Hch. unfold children_digests.
      induction ch as [|[[b|] m] ch IHch]; [reflexivity| |].
      - destruct (IH b m (or_introl eq_refl)) as (d & E & Hd). rewrite E.
        rewrite IHch.
        + cbn [map List.concat snd]. rewrite Hd, Buffer_from_hex_toString.
          reflexivity.
        + intros n I. apply (Hnone n). now right.
        + intros b' n I. apply (IH b'). now right.
      - exfalso. apply (Hnone m). now left. }
    destruct ch as [|e0 ch0]; [congruence|]. rewrite F.
    destruct (String.eqb_spec (toString_hex (blake3 (children_digests (e0 :: ch0))))
                EmptyString) as [E|_];
      [now apply digest_hex_nonempty in E|]. split; reflexivity.
Qed.

Lemma recalculateHash_root T :
  Reachable L T ->
  exists T' digest,
    recalculateHash T = (T', digest)
    /\ _hash T' = toString_hex digest
    /\ (T <> new_TrieNode -> T' = T)
    /\ (T = new_TrieNode -> T' = empty_node).
Proof.
  intro HR. apply (Reachable_RootInv L_timestamp) in HR.
  destruct HR as [->|[->|HC]].
  - exists empty_node, (blake3 []). repeat split; try reflexivity. congruence.
  - exists empty_node, (blake3 []). cbn [recalculateHash empty_node].
    unfold EMPTY_HASH.
    destruct (String.eqb_spec (toString_hex (blake3 [])) EmptyString) as [E|_];
      [now apply digest_hex_nonempty in E|].
    repeat split; try reflexivity.
  - destruct (recalculateHash_Canon HC) as (d & E & Hd).
    exists T, d. repeat split; try assumption.
    intros ->. exfalso. eapply Canon_hash; [exact HC | reflexivity].
Qed.
End Recalculate.
Section Snapshot.
Context {B3 : Blake3}.

(** [getSnapshot] by the child that the map has for the byte of the
    prefix. *)
Lemma getSnapshot_step pre idx this :
  getSnapshot pre idx this =
  let char := nth_error pre idx in
  let excludedHash := _excludedHash char this in
  if Z.of_nat idx =? Z.of_nat (List.length pre) - 1 then
    (this, Normal {| prefix := pre;
                     excludedHashes := [snd excludedHash];
                     numMessages := fst excludedHash |})
  else
    match Map_get (_children this) char with
    | Some child =>
        match snd (getSnapshot pre (S idx) child) with
        | Normal inner =>
            (this, Normal {| prefix := prefix inner;
                             excludedHashes := snd excludedHash :: excludedHashes inner;
                             numMessages := fst excludedHash + numMessages inner |})
        | Abrupt e => (this, Abrupt e)
        end
    | None =>
        (this, Normal {| prefix := firstn (S idx) pre;
                         excludedHashes := [snd excludedHash];
                         numMessages := fst excludedHash + 0 |})
    end.
Proof.
  destruct this as [h i ch k]. cbn [getSnapshot _children]. cbv zeta.
  destruct (Z.of_nat idx =? Z.of_nat (List.length pre) - 1); [reflexivity|].
  match goal with
  | |- (let '(ch', innerSnapshot) := ?call ch in _) = _ =>
      assert (F : call ch =
                  match Map_get ch (nth_error pre idx) with
                  | Some child => (ch, Some (snd (getSnapshot pre (S idx) child)))
                  | None => (ch, None)
                  end)
  end.
  { induction ch as [|[c child] ch IHch]; [reflexivity|].
    cbn [Map_get]. destruct (MapKey_eqb c (nth_error pre idx)).
    - pose proof (getSnapshot_frame child pre (S idx)) as Fr.
      destruct (getSnapshot pre (S idx) child) as [child' r]. simpl in Fr.
      now subst child'.
    - rewrite IHch. now destruct (Map_get ch (nth_error pre idx)). }
  rewrite F. destruct (Map_get ch (nth_error pre idx)) as [child|]; [|reflexivity].
  now destruct (snd (getSnapshot pre (S idx) child)).
Qed.

(** [getSnapshot] returns, on every node: it gives one hash for each
    byte of the prefix that it returns, and this prefix is the start of
    the one that was asked for. *)
Lemma getSnapshot_shape this :
  forall pre idx, (idx < List.length pre)%nat ->
  exists s,
    getSnapshot pre idx this = (this, Normal s)
    /\ prefix s = firstn (idx + List.length (excludedHashes s)) pre
    /\ (1 <= List.length (excludedHashes s))%nat
    /\ (idx + List.length (excludedHashes s) <= List.length pre)%nat.
Proof.
  induction this as [h i ch k IH] using TrieNode_induction. intros pre idx Hi.
  rewrite getSnapshot_step. cbv zeta.
  destruct (Z.of_nat idx =? Z.of_nat (List.length pre) - 1) eqn:E.
  - apply Z.eqb_eq in E. eexists. split; [reflexivity|].
    cbn [prefix excludedHashes List.length].
    replace (idx + 1)%nat with (List.length pre) by lia.
    rewrite firstn_all. repeat split; lia.
  - apply Z.eqb_neq in E. cbn [_children].
    destruct (Map_get ch (nth_error pre idx)) as [child|] eqn:G.
    + apply Map_get_In in G. rewrite Forall_forall in IH.
      destruct (IH _ G pre (S idx)) as (inner & Ei & Hp & H1 & H2); [lia|].
      cbn [snd] in Ei. rewrite Ei. cbn [snd]. eexists. split; [reflexivity|].
      cbn [prefix excludedHashes List.length].
      rewrite Hp. split; [f_equal; lia|]. split; lia.
    + eexists. split; [reflexivity|]. cbn [prefix excludedHashes List.length].
      split; [f_equal; lia|]. split; lia.
Qed.
End Snapshot.
Section SnapshotCount.
Context {B3 : Blake3}.
Variable L : nat.
Hypothesis L_timestamp : (TIMESTAMP_LENGTH < L)%nat.

Lemma fold_items (l : list (MapKey * TrieNode)) :
  forall a, fold_left (fun excludedItems e => excludedItems + _items (snd e)) l a
            = a + sum_items l.
Proof.
  induction l as [|e l IH]; intro a; cbn [fold_left sum_items fold_right].
  - lia.
  - rewrite IH. unfold sum_items. lia.
Qed.

Lemma excludedHash_items (ch : list (MapKey * TrieNode)) (char : MapKey) h i k :
  NoDup (map fst ch) ->
  fst (_excludedHash char (Build_TrieNode h i ch k))
  = sum_items ch - match Map_get ch char with
                   | Some m => _items m
                   | None => 0
                   end.
Proof.
  intro ND. unfold _excludedHash. cbn [fst _children]. rewrite fold_items.
  induction ch as [|[c m] ch IH]; [reflexivity|].
  simpl in ND. apply NoDup_cons_iff in ND as [Nin ND].
  cbn [filter fst Map_get sum_items fold_right snd].
  destruct (MapKey_eqb c char) eqn:E; cbn [negb].
  - apply MapKey_eqb_eq in E. subst c.
    rewrite filter_all; [unfold sum_items; lia|].
    intros [c' m'] I. simpl. apply negb_true_iff, MapKey_eqb_neq.
    intros ->. apply Nin. change char with (fst (char, m')). now apply in_map.
  - cbn [sum_items fold_right snd]. specialize (IH ND).
    unfold sum_items in IH |- *. lia.
Qed.

Lemma getSnapshot_count :
  forall p n, Canon L p n ->
  forall c rest,
    (List.length (p ++ c :: rest) <= TIMESTAMP_LENGTH)%nat ->
    exists s,
      getSnapshot (p ++ c :: rest) (List.length p) n = (n, Normal s)
      /\ numMessages s
         = _items n
           - Z.of_nat (List.length (filter (starts_with (p ++ c :: rest)) (keys_of n))).
Proof.
  induction 1 as [p k D DL Lk Fk | p ch Hne Hsort Hnone Hch IH H2];
    intros c rest Hlen.
  { rewrite length_app in Hlen. simpl in Hlen. lia. }
  pose proof (@Canon_internal _ L p ch Hne Hsort Hnone Hch H2) as HC.
  rewrite getSnapshot_step. cbv zeta.
  assert (Ec : nth_error (p ++ c :: rest) (List.length p) = Some c).
  { rewrite nth_error_app2 by lia. now rewrite Nat.sub_diag. }
  rewrite Ec.
  assert (EH : fst (_excludedHash (Some c) (internal_node ch))
               = sum_items ch - match Map_get ch (Some c) with
                                | Some m => _items m
                                | None => 0
                                end).
  { apply excludedHash_items. apply sorted_keys_NoDup. exact Hsort. }
  rewrite !EH. cbn [_children _items internal_node].
  destruct (Z.of_nat (List.length p) =? Z.of_nat (List.length (p ++ c :: rest)) - 1)
    eqn:E.
  - apply Z.eqb_eq in E. rewrite length_app in E. simpl in E.
    destruct rest; [|simpl in E; lia].
    eexists. split; [reflexivity|]. cbn [numMessages].
    destruct (Map_get ch (Some c)) as [m|] eqn:G.
    + rewrite (@filter_child _ L p ch c [] m HC Hne Hsort Hnone Hch G).
      pose proof (Hch c m (Map_get_In _ _ G)) as HCm.
      rewrite filter_all.
      * rewrite (Canon_items_keys HCm). reflexivity.
      * intros x K. apply starts_with_iff. exact (proj2 (Canon_keys HCm _ K)).
    + rewrite (@filter_no_child _ L p ch c [] HC Hne Hsort Hnone Hch G).
      reflexivity.
  - apply Z.eqb_neq in E.
    destruct rest as [|c2 rest]; [rewrite length_app in E; simpl in E; lia|].
    destruct (Map_get ch (Some c)) as [m|] eqn:G.
    + destruct (IH c m (Map_get_In _ _ G) c2 rest) as (inner & Ei & Hn).
      { rewrite <- app_assoc. exact Hlen. }
      rewrite <- app_assoc in Ei, Hn. cbn [app] in Ei, Hn.
      replace (List.length (p ++ [c])) with (S (List.length p)) in Ei
        by (rewrite length_app; simpl; lia).
      rewrite Ei. cbn [snd]. eexists. split; [reflexivity|]. cbn [numMessages].
      rewrite Hn.
      rewrite (@filter_child _ L p ch c (c2 :: rest) m HC Hne Hsort Hnone Hch G).
      lia.
    + eexists. split; [reflexivity|]. cbn [numMessages].
      rewrite (@filter_no_child _ L p ch c (c2 :: rest) HC Hne Hsort Hnone Hch G).
      simpl. lia.
Qed.

Lemma getSnapshot_root T pre :
  Reachable L T -> pre <> [] -> (List.length pre <= TIMESTAMP_LENGTH)%nat ->
  exists s,
    getSnapshot pre 0 T = (T, Normal s)
    /\ numMessages s
       = _items T - Z.of_nat (List.length (filter (starts_with pre) (keys_of T))).
Proof.
  intros HR Hne Hlen. apply (Reachable_RootInv L_timestamp) in HR.
  destruct pre as [|c rest]; [congruence|].
  destruct HR as [->|[->|HC]].
  - rewrite getSnapshot_step. cbv zeta.
    destruct (Z.of_nat 0 =? _); eexists; split; reflexivity.
  - rewrite getSnapshot_step. cbv zeta.
    destruct (Z.of_nat 0 =? _); eexists; split; reflexivity.
  - exact (@getSnapshot_count [] T HC c rest Hlen).
Qed.
End SnapshotCount.
(** * Properties of the trie beyond the claims *)

Section TrieProperties.
Context {B3 : Blake3}.

(** X1. On a trie built by the operations, [exists] returns, leaves the
    trie as it is, and says whether the key is one of the keys of the
    trie (those that [getAllValues] returns): it throws nothing. *)
Theorem exists_iff_key (L : nat) (T : TrieNode) (s : Uint8Array) :
  (TIMESTAMP_LENGTH < L)%nat -> Reachable L T -> List.length s = L ->
  exists b, exists_ s 0 T = (T, Normal b) /\ (b = true <-> In s (keys_of T)).
Proof. intros HL HR Hs. eapply exists_root; eassumption. Qed.

(** X2. On a trie built by the operations, [getAllValues] returns every
    key once, each of the length of the keys, and [items] is their
    number. *)
Theorem items_count_keys (L : nat) (T : TrieNode) :
  (TIMESTAMP_LENGTH < L)%nat -> Reachable L T ->
  exists values,
    getAllValues T = (T, Normal values)
    /\ _items T = Z.of_nat (List.length values)
    /\ NoDup values
    /\ Forall (fun k => List.length k = L) values.
Proof.
  intros HL HR. exists (keys_of T). split; [apply getAllValues_keys_of|].
  apply (Reachable_RootInv HL) in HR. destruct HR as [->|[->|HC]].
  - repeat split; constructor.
  - repeat split; constructor.
  - split; [exact (Canon_items_keys HC)|]. split; [exact (Canon_NoDup_keys HC)|].
    apply Forall_forall. intros k K. exact (proj1 (Canon_keys HC _ K)).
Qed.

(** X3. Inserting a key that the trie has returns [false] and changes
    nothing, hashes included. *)
Theorem insert_present_unchanged (L : nat) (T : TrieNode) (s : Uint8Array) :
  (TIMESTAMP_LENGTH < L)%nat -> Reachable L T -> In s (keys_of T) ->
  insert s 0 T = (T, Normal false).
Proof. intros HL HR I. eapply insert_present; eassumption. Qed.

(** X4. Inserting a key that differs from every key of the trie before
    its last byte returns [true]; the trie after has one item more, its
    keys are the key and those it had, and [exists] finds the key. *)
Theorem insert_new_key (L : nat) (T : TrieNode) (s : Uint8Array) :
  (TIMESTAMP_LENGTH < L)%nat -> Reachable L T -> List.length s = L ->
  (forall k, In k (keys_of T) -> firstn (L - 1) k <> firstn (L - 1) s) ->
  exists T',
    insert s 0 T = (T', Normal true)
    /\ _items T' = _items T + 1
    /\ (forall k, In k (keys_of T') <-> k = s \/ In k (keys_of T))
    /\ exists_ s 0 T' = (T', Normal true).
Proof.
  intros HL HR Hs Hclash.
  assert (G : exists T', insert s 0 T = (T', Normal true)
                         /\ _items T' = _items T + 1
                         /\ (forall k, In k (keys_of T') <-> k = s \/ In k (keys_of T))).
  { destruct (Reachable_RootInv HL HR) as [->|[->|HC]].
    - destruct (insert_blank_root HL EmptyString s Hs) as (T' & E & HC & _ & K).
      exists T'. split; [exact E|]. split.
      + rewrite (Canon_items_keys HC), K. reflexivity.
      + intro k. rewrite K. simpl. intuition.
    - destruct (insert_blank_root HL EMPTY_HASH s Hs) as (T' & E & HC & _ & K).
      exists T'. split; [exact E|]. split.
      + rewrite (Canon_items_keys HC), K. reflexivity.
      + intro k. rewrite K. simpl. intuition.
    - destruct (@insert_at_Canon _ L HL s Hs s [] 0%nat T HC eq_refl eq_refl)
        as (n' & r & E & Hout).
      unfold insert. cbn [skipn]. rewrite E.
      destruct r as [[|]|e]; cbn [insert_outcome] in Hout.
      + exists n'. split; [reflexivity|]. split; apply Hout.
      + exfalso. destruct Hout as [_ Is]. now apply (Hclash s Is).
      + exfalso. destruct Hout as (_ & k & Ik & _ & F). now apply (Hclash k Ik). }
  destruct G as (T' & E & Hit & Hk). exists T'.
  split; [exact E|]. split; [exact Hit|]. split; [exact Hk|].
  assert (HR' : Reachable L T') by (eapply Reachable_insert; eassumption).
  destruct (@exists_root _ L HL T' s HR' Hs) as ([|] & Ee & Hb); [exact Ee|].
  exfalso. assert (In s (keys_of T')) by (apply Hk; now left).
  apply Hb in H. discriminate.
Qed.

(** X5. Deleting a key that the trie does not have returns [false] and
    changes nothing. *)
Theorem delete_absent_unchanged (L : nat) (T : TrieNode) (s : Uint8Array) :
  (TIMESTAMP_LENGTH < L)%nat -> Reachable L T -> List.length s = L ->
  ~ In s (keys_of T) ->
  delete s 0 T = (T, Normal false).
Proof. intros HL HR Hs N. eapply delete_absent; eassumption. Qed.

(** X6. Deleting a key that the trie has returns [true]; the trie after
    has one item less, its keys are the other keys, and [exists] no
    longer finds the key. *)
Theorem delete_present_removes (L : nat) (T : TrieNode) (s : Uint8Array) :
  (TIMESTAMP_LENGTH < L)%nat -> Reachable L T -> In s (keys_of T) ->
  exists T',
    delete s 0 T = (T', Normal true)
    /\ _items T' = _items T - 1
    /\ (forall k, In k (keys_of T') <-> In k (keys_of T) /\ k <> s)
    /\ exists_ s 0 T' = (T', Normal false).
Proof.
  intros HL HR I.
  destruct (@delete_present _ L HL T s HR I) as (T' & E & _ & Hit & Hk).
  exists T'. split; [exact E|]. split; [exact Hit|]. split; [exact Hk|].
  assert (Hs : List.length s = L).
  { destruct (Reachable_RootInv HL HR) as [->|[->|HC]]; try contradiction.
    exact (proj1 (Canon_keys HC _ I)). }
  assert (HR' : Reachable L T') by (eapply Reachable_delete; eassumption).
  destruct (@exists_root _ L HL T' s HR' Hs) as ([|] & Ee & Hb); [|exact Ee].
  exfalso. pose proof (proj1 Hb eq_refl) as K. apply Hk in K as [_ N]. now apply N.
Qed.

(** X7. Two tries built by the operations, in whatever order and with
    whatever deletions on the way, that hold the same keys, at least one,
    are the same trie: the same structure, counts and hashes. *)
Theorem same_keys_same_trie (L : nat) (T1 T2 : TrieNode) :
  (TIMESTAMP_LENGTH < L)%nat -> Reachable L T1 -> Reachable L T2 ->
  keys_of T1 <> [] ->
  (forall k, In k (keys_of T1) <-> In k (keys_of T2)) ->
  T1 = T2.
Proof.
  intros HL HR1 HR2 Hne E.
  apply (Reachable_RootInv HL) in HR1, HR2.
  destruct (RootInv_keys HR1) as [[E1 _]|[_ HC1]]; [contradiction|].
  destruct (RootInv_keys HR2) as [[E2 _]|[_ HC2]].
  - exfalso. destruct (keys_of T1) as [|k l]; [congruence|].
    assert (I : In k (keys_of T2)) by (apply E; now left).
    rewrite E2 in I. contradiction.
  - exact (Canon_unique HL HC1 HC2 E).
Qed.


(** X11. On every node and for every prefix that is not empty,
    [getSnapshot] returns; the prefix of the snapshot is a start of the
    prefix asked for, and the snapshot has one excluded hash for each of
    its bytes, at least one. *)
Theorem getSnapshot_prefix_and_hashes (this : TrieNode) (pre : Uint8Array) :
  pre <> [] ->
  exists s,
    getSnapshot pre 0 this = (this, Normal s)
    /\ prefix s = firstn (List.length (excludedHashes s)) pre
    /\ (1 <= List.length (excludedHashes s) <= List.length pre)%nat.
Proof.
  intro Hne.
  destruct (getSnapshot_shape this pre (idx := 0)) as (s & E & Hp & H1 & H2).
  { destruct pre; [congruence | simpl; lia]. }
  exists s. repeat split; assumption.
Qed.

(** X12. On a trie built by the operations and for a prefix of one to
    ten bytes (a start of a timestamp), [numMessages] of the snapshot is
    the number of the items of the trie whose keys do not start with the
    prefix. *)
Theorem getSnapshot_numMessages (L : nat) (T : TrieNode) (pre : Uint8Array) :
  (TIMESTAMP_LENGTH < L)%nat -> Reachable L T ->
  pre <> [] -> (List.length pre <= TIMESTAMP_LENGTH)%nat ->
  exists s,
    getSnapshot pre 0 T = (T, Normal s)
    /\ numMessages s
       = _items T - Z.of_nat (List.length (filter (starts_with pre) (keys_of T))).
Proof. intros HL HR Hne Hlen. eapply getSnapshot_root; eassumption. Qed.

(** X13. On a trie built by the operations, [recalculateHash] returns
    the digest of which the hash of the root is the hex image: the hashes
    kept up to date by [insert] and [delete] are those computed from
    scratch. It leaves the trie as it is, except a new trie, whose hash it
    sets from the empty string to [EMPTY_HASH]. *)
Theorem recalculateHash_agrees (L : nat) (T : TrieNode) :
  (TIMESTAMP_LENGTH < L)%nat -> Reachable L T ->
  exists T' digest,
    recalculateHash T = (T', digest)
    /\ _hash T' = toString_hex digest
    /\ (T <> new_TrieNode -> T' = T)
    /\ (T = new_TrieNode -> T' = empty_node).
Proof. intros HL HR. eapply recalculateHash_root; eassumption. Qed.
End TrieProperties.
Section TriePropertiesExamples.
#[local] Existing Instance Checksum160.

Lemma timestamp_36 : (TIMESTAMP_LENGTH < 36)%nat.
Proof. unfold TIMESTAMP_LENGTH. lia. Qed.

Lemma Reachable_trie_ca : Reachable 36 trie_ca.
Proof.
  apply Reachable_insert with (T := fst (insert key_c 0 new_TrieNode))
                              (key := key_a) (b := true);
    [|reflexivity | vm_compute; reflexivity].
  apply Reachable_insert with (T := new_TrieNode) (key := key_c) (b := true);
    [constructor | reflexivity | vm_compute; reflexivity].
Qed.

Lemma exists_iff_key_witness :
  exists b, exists_ key_a 0 trie_ac = (trie_ac, Normal b)
            /\ (b = true <-> In key_a (keys_of trie_ac)).
Proof.
  apply (@exists_iff_key Checksum160 36 trie_ac key_a).
  - exact timestamp_36.
  - exact Reachable_trie_ac.
  - reflexivity.
Defined.

Lemma items_count_keys_witness :
  exists values,
    getAllValues trie_ac = (trie_ac, Normal values)
    /\ _items trie_ac = Z.of_nat (List.length values)
    /\ NoDup values
    /\ Forall (fun k => List.length k = 36%nat) values.
Proof.
  apply (@items_count_keys Checksum160 36 trie_ac).
  - exact timestamp_36.
  - exact Reachable_trie_ac.
Defined.

Lemma insert_present_unchanged_witness :
  insert key_a 0 trie_ac = (trie_ac, Normal false).
Proof.
  apply (@insert_present_unchanged Checksum160 36 trie_ac key_a).
  - exact timestamp_36.
  - exact Reachable_trie_ac.
  - vm_compute. auto.
Defined.

Lemma insert_new_key_witness :
  exists T',
    insert key_c 0 trie_a = (T', Normal true)
    /\ _items T' = _items trie_a + 1
    /\ (forall k, In k (keys_of T') <-> k = key_c \/ In k (keys_of trie_a))
    /\ exists_ key_c 0 T' = (T', Normal true).
Proof.
  apply (@insert_new_key Checksum160 36 trie_a key_c).
  - exact timestamp_36.
  - exact Reachable_trie_a.
  - reflexivity.
  - intros k I. vm_compute in I. destruct I as [<-|[]]. vm_compute. discriminate.
Defined.

Lemma delete_absent_unchanged_witness :
  delete key_c 0 trie_a = (trie_a, Normal false).
Proof.
  apply (@delete_absent_unchanged Checksum160 36 trie_a key_c).
  - exact timestamp_36.
  - exact Reachable_trie_a.
  - reflexivity.
  - vm_compute. intros [H|[]]. discriminate H.
Defined.

Lemma delete_present_removes_witness :
  exists T',
    delete key_a 0 trie_ac = (T', Normal true)
    /\ _items T' = _items trie_ac - 1
    /\ (forall k, In k (keys_of T') <-> In k (keys_of trie_ac) /\ k <> key_a)
    /\ exists_ key_a 0 T' = (T', Normal false).
Proof.
  apply (@delete_present_removes Checksum160 36 trie_ac key_a).
  - exact timestamp_36.
  - exact Reachable_trie_ac.
  - vm_compute. auto.
Defined.

Lemma same_keys_same_trie_witness : trie_ac = trie_ca.
Proof.
  apply (@same_keys_same_trie Checksum160 36 trie_ac trie_ca).
  - exact timestamp_36.
  - exact Reachable_trie_ac.
  - exact Reachable_trie_ca.
  - vm_compute. discriminate.
  - intro k. vm_compute. tauto.
Defined.

Lemma insert_clash_throws_witness :
  exists T', insert key_b 0 trie_a
             = (T', Abrupt (ThrowString "Key length exceeded")).
Proof.
  apply (@insert_clash_throws Checksum160 36 timestamp_36 trie_a key_b key_a).
  - exact Reachable_trie_a.
  - reflexivity.
  - vm_compute. auto.
  - vm_compute. discriminate.
  - vm_compute. reflexivity.
Defined.

Lemma insert_order_independent_witness :
  exists T,
    insert_forEach [key_a; key_c] new_TrieNode = (T, Normal tt)
    /\ insert_forEach [key_c; key_a] new_TrieNode = (T, Normal tt).
Proof.
  apply (@insert_order_independent Checksum160 36 timestamp_36
           [key_a; key_c] [key_c; key_a]).
  - apply perm_swap.
  - repeat constructor.
  - intros k1 k2 [<-|[<-|[]]] [<-|[<-|[]]] F; try reflexivity;
      vm_compute in F; discriminate F.
Defined.


(** A prefix that reaches beyond a leaf finds nothing: [trie_a] holds
    [key_a] in a leaf at depth ten, and for the first twelve bytes of
    [key_a] the engine returns no id. *)
Lemma getAllSyncIdsByPrefix_beyond_leaf :
  snd (SyncEngine_getAllSyncIdsByPrefix (firstn 12 key_a) trie_a) = Normal []
  /\ filter (starts_with (firstn 12 key_a)) (keys_of trie_a) = [key_a].
Proof. split; vm_compute; reflexivity. Qed.

Lemma getSnapshot_prefix_and_hashes_witness :
  exists s,
    getSnapshot (firstn 10 key_a) 0 trie_ac = (trie_ac, Normal s)
    /\ prefix s = firstn (List.length (excludedHashes s)) (firstn 10 key_a)
    /\ (1 <= List.length (excludedHashes s) <= List.length (firstn 10 key_a))%nat.
Proof.
  apply (@getSnapshot_prefix_and_hashes Checksum160 trie_ac (firstn 10 key_a)).
  vm_compute. discriminate.
Defined.

Lemma getSnapshot_numMessages_witness :
  exists s,
    getSnapshot (firstn 10 key_a) 0 trie_ac = (trie_ac, Normal s)
    /\ numMessages s
       = _items trie_ac
         - Z.of_nat (List.length (filter (starts_with (firstn 10 key_a))
                                         (keys_of trie_ac))).
Proof.
  apply (@getSnapshot_numMessages Checksum160 36 trie_ac (firstn 10 key_a)).
  - exact timestamp_36.
  - exact Reachable_trie_ac.
  - vm_compute. discriminate.
  - vm_compute. constructor.
Defined.

Lemma recalculateHash_agrees_witness :
  exists T' digest,
    recalculateHash trie_ac = (T', digest)
    /\ _hash T' = toString_hex digest
    /\ (trie_ac <> new_TrieNode -> T' = trie_ac)
    /\ (trie_ac = new_TrieNode -> T' = empty_node).
Proof.
  apply (@recalculateHash_agrees Checksum160 36 trie_ac).
  - exact timestamp_36.
  - exact Reachable_trie_ac.
Defined.
End TriePropertiesExamples.
(** * More on the SyncId *)

Lemma list_byte_of_string_append (a b : string) :
  list_byte_of_string (a ++ b) = list_byte_of_string a ++ list_byte_of_string b.
Proof.
  unfold list_byte_of_string. induction a as [|c a IH]; [reflexivity|].
  simpl. now rewrite IH.
Qed.

Lemma list_byte_of_string_length (s : string) :
  List.length (list_byte_of_string s) = String.length s.
Proof.
  unfold list_byte_of_string. induction s as [|c s IH]; [reflexivity|].
  simpl. now rewrite IH.
Qed.

Lemma zeros_bytes (m : nat) :
  list_byte_of_string (string_of_list_ascii (repeat "0"%char m)) = repeat x30 m.
Proof.
  unfold list_byte_of_string. induction m as [|m IH]; [reflexivity|].
  simpl. f_equal. exact IH.
Qed.

Lemma uint_string_length (d : Decimal.uint) :
  String.length (NilEmpty.string_of_uint d) = Decimal.nb_digits d.
Proof. induction d; simpl; try reflexivity; f_equal; assumption. Qed.

Lemma uint_digits (d : Decimal.uint) :
  forallb is_digit (list_byte_of_string (NilEmpty.string_of_uint d)) = true.
Proof.
  unfold list_byte_of_string. induction d; simpl; try reflexivity; assumption.
Qed.

Lemma number_toString_NilEmpty (n : N) :
  number_toString n = NilEmpty.string_of_uint (N.to_uint n).
Proof.
  unfold number_toString, NilZero.string_of_uint.
  destruct (N.to_uint n) eqn:E; try reflexivity.
  destruct n as [|p]; [discriminate|].
  now apply DecimalPos.Unsigned.to_uint_nonnil in E.
Qed.

Lemma uint_value_acc (d : Decimal.uint) :
  forall acc : positive,
    fold_left (fun a b => 10 * a + digit_value b)
              (list_byte_of_string (NilEmpty.string_of_uint d)) (Z.pos acc)
    = Z.pos (Pos.of_uint_acc d acc).
Proof.
  unfold list_byte_of_string.
  induction d; intro acc; [reflexivity|..];
    cbn [NilEmpty.string_of_uint list_ascii_of_string map fold_left Pos.of_uint_acc];
    match goal with
    | |- fold_left _ _ ?a = Z.pos (Pos.of_uint_acc _ ?p) =>
        replace a with (Z.pos p)
          by (match goal with
              | |- context [digit_value ?b] =>
                  let v := eval vm_compute in (digit_value b) in
                  change (digit_value b) with v
              end; lia)
    end;
    apply IHd.
Qed.

Lemma uint_value (d : Decimal.uint) :
  decimal_value (list_byte_of_string (NilEmpty.string_of_uint d))
  = Z.of_N (Pos.of_uint d).
Proof.
  unfold decimal_value.
  induction d; try reflexivity;
    try (change (Pos.of_uint (Decimal.D0 d)) with (Pos.of_uint d); exact IHd);
    unfold list_byte_of_string; simpl;
    match goal with
    | |- fold_left _ _ ?a = _ =>
        let v := eval vm_compute in a in change a with v
    end;
    apply uint_value_acc.
Qed.

Lemma number_toString_value (n : N) :
  decimal_value (list_byte_of_string (number_toString n)) = Z.of_N n.
Proof.
  rewrite number_toString_NilEmpty, uint_value.
  change (Pos.of_uint (N.to_uint n)) with (N.of_uint (N.to_uint n)).
  now rewrite DecimalN.Unsigned.of_to.
Qed.

Lemma of_uint_acc_ge (d : Decimal.uint) :
  forall acc : positive,
    Z.pos acc * 10 ^ Z.of_nat (Decimal.nb_digits d) <= Z.pos (Pos.of_uint_acc d acc).
Proof.
  induction d; intro acc; cbn [Decimal.nb_digits Pos.of_uint_acc];
    [simpl; lia|..];
    rewrite Nat2Z.inj_succ, Z.pow_succ_r by lia;
    match goal with
    | |- _ <= Z.pos (Pos.of_uint_acc d ?a) =>
        specialize (IHd a);
        assert (0 <= 10 ^ Z.of_nat (Decimal.nb_digits d)) by (apply Z.pow_nonneg; lia);
        nia
    end.
Qed.

Lemma to_uint_normal (n : N) : Decimal.unorm (N.to_uint n) = N.to_uint n.
Proof.
  rewrite <- DecimalN.Unsigned.to_of. now rewrite DecimalN.Unsigned.of_to.
Qed.

Lemma unorm_D0 (d : Decimal.uint) :
  Decimal.unorm (Decimal.D0 d) = Decimal.D0 d -> d = Decimal.Nil.
Proof.
  unfold Decimal.unorm. cbn [Decimal.nzhead].
  pose proof (DecimalFacts.nb_digits_nzhead d) as H.
  destruct (Decimal.nzhead d) eqn:E; intro U;
    try (injection U as <-; reflexivity);
    rewrite U in H; cbn [Decimal.nb_digits] in H; lia.
Qed.

(** A number below 10^10 is written with at most ten digits. *)
Lemma number_toString_length (n : N) :
  (n < 10 ^ 10)%N -> (String.length (number_toString n) <= 10)%nat.
Proof.
  intro H. rewrite number_toString_NilEmpty, uint_string_length.
  pose proof (to_uint_normal n) as U.
  pose proof (DecimalN.Unsigned.of_to n) as V. unfold N.of_uint in V.
  destruct (N.to_uint n) as [|d|d|d|d|d|d|d|d|d|d] eqn:E;
    [simpl; lia
    | apply unorm_D0 in U; subst d; simpl; lia
    | ..];
    cbn [Pos.of_uint] in V; cbn [Decimal.nb_digits];
    match type of V with
    | N.pos (Pos.of_uint_acc d ?a) = _ => pose proof (of_uint_acc_ge d a) as G
    end;
    destruct (le_lt_dec (Decimal.nb_digits d) 9) as [?|B]; try lia;
    exfalso;
    assert (P : 10 ^ 10 <= 10 ^ Z.of_nat (Decimal.nb_digits d))
      by (apply Z.pow_le_mono_r; lia);
    assert (Q1 : Z.of_N n < 10 ^ 10) by (change (10 ^ 10) with (Z.of_N (10 ^ 10)); lia);
    rewrite <- V in Q1; simpl Z.of_N in Q1; nia.
Qed.

Lemma decimal_value_snoc (ds : Uint8Array) (d : byte) :
  decimal_value (ds ++ [d]) = 10 * decimal_value ds + digit_value d.
Proof. unfold decimal_value. now rewrite fold_left_app. Qed.

Lemma decimal_value_zeros (m : nat) (ds : Uint8Array) :
  decimal_value (repeat x30 m ++ ds) = decimal_value ds.
Proof.
  unfold decimal_value. rewrite fold_left_app. f_equal.
  induction m as [|m IH]; [reflexivity|]. exact IH.
Qed.

Lemma digit_value_range (b : byte) : is_digit b = true -> 0 <= digit_value b <= 9.
Proof. intro H. apply is_digit_range in H. unfold digit_value. lia. Qed.

Lemma digit_value_inj (a b : byte) :
  is_digit a = true -> is_digit b = true -> digit_value a = digit_value b -> a = b.
Proof. intros _ _ E. apply to_N_inj. unfold digit_value in E. lia. Qed.

(** Two runs of digits of one length that denote the same number are the
    same. *)
Lemma digits_inj (l1 : Uint8Array) :
  forall l2, List.length l1 = List.length l2 ->
             forallb is_digit l1 = true -> forallb is_digit l2 = true ->
             decimal_value l1 = decimal_value l2 -> l1 = l2.
Proof.
  induction l1 as [|d1 l1 IH] using rev_ind; intros l2 HL D1 D2 E.
  - destruct l2; [reflexivity | discriminate].
  - destruct (exists_last (l := l2)) as (l2' & d2 & ->).
    { intros ->. rewrite length_app in HL. simpl in HL. lia. }
    rewrite !length_app in HL. simpl in HL.
    rewrite forallb_app in D1, D2. simpl in D1, D2.
    apply andb_true_iff in D1 as [D1 Hd1]. apply andb_true_iff in D2 as [D2 Hd2].
    rewrite andb_true_r in Hd1, Hd2.
    rewrite !decimal_value_snoc in E.
    pose proof (digit_value_range _ Hd1). pose proof (digit_value_range _ Hd2).
    assert (Ev : decimal_value l1 = decimal_value l2') by lia.
    assert (Ed : digit_value d1 = digit_value d2) by lia.
    rewrite (IH l2'); [|lia|assumption|assumption|assumption].
    now rewrite (digit_value_inj _ _ Hd1 Hd2 Ed).
Qed.

(** A number below 10^10, written and padded to ten places. *)
Lemma padded_digits (n : N) :
  (n < 10 ^ 10)%N ->
  let ts := Buffer_from_string (padStart_0 TIMESTAMP_LENGTH (number_toString n)) in
  List.length ts = TIMESTAMP_LENGTH /\ forallb is_digit ts = true
  /\ decimal_value ts = Z.of_N n.
Proof.
  intros H ts. subst ts. unfold Buffer_from_string, padStart_0, TIMESTAMP_LENGTH.
  pose proof (number_toString_length H) as HL.
  rewrite list_byte_of_string_append, zeros_bytes. split; [|split].
  - rewrite length_app, repeat_length, list_byte_of_string_length. lia.
  - rewrite forallb_app. apply andb_true_iff. split.
    + clear. induction (10 - _)%nat; [reflexivity | exact IHn0].
    + rewrite number_toString_NilEmpty. apply uint_digits.
  - rewrite decimal_value_zeros. apply number_toString_value.
Qed.

Lemma integer_toString_nonneg (z : Z) :
  0 <= z -> integer_toString z = number_toString (Z.to_N z).
Proof. destruct z; intro H; try reflexivity. lia. Qed.

Lemma Qfloor_range (t : Q) (b : Z) :
  (0 <= t)%Q -> (t < inject_Z b)%Q -> 0 <= Qfloor t < b.
Proof.
  intros H0 Hb. split.
  - change 0 with (Qfloor (inject_Z 0)) at 1. rewrite Qfloor_Z at 1.
    apply (Qfloor_resp_le _ _ H0).
  - rewrite Zlt_Qlt. eapply Qle_lt_trans; [apply Qfloor_le | exact Hb].
Qed.
Lemma timestamp_prefix_parse (timestamp : Q) :
  (0 <= timestamp)%Q -> (timestamp < inject_Z (10 ^ 10))%Q ->
  let ts := Buffer_from_string (timestampToPaddedTimestampPrefix timestamp) in
  List.length ts = TIMESTAMP_LENGTH
  /\ forallb is_digit ts = true
  /\ parseInt10 ts = Num (Qfloor timestamp).
Proof.
  intros H0 Hb ts. subst ts. unfold timestampToPaddedTimestampPrefix.
  destruct (@Qfloor_range timestamp (10 ^ 10) H0 Hb) as [F0 Fb].
  rewrite integer_toString_nonneg by exact F0.
  destruct (@padded_digits (Z.to_N (Qfloor timestamp))) as (HL & HD & HV).
  { change (10 ^ 10)%N with (Z.to_N (10 ^ 10)). lia. }
  split; [exact HL|]. split; [exact HD|].
  rewrite parseInt10_digits; [|intro E; rewrite E in HL; discriminate|exact HD].
  rewrite HV. f_equal. lia.
Qed.

(** X14. For a timestamp from 0 to below 10^10 (whole or not),
    [timestampToPaddedTimestampPrefix] gives ten decimal digits, and
    [parseInt] reads from them the whole part of the timestamp: the number
    that [pkFromSyncId] writes into the store key. *)
Theorem timestamp_prefix_round_trip (timestamp : Q) :
  (0 <= timestamp)%Q -> (timestamp < inject_Z (10 ^ 10))%Q ->
  let ts := Buffer_from_string (timestampToPaddedTimestampPrefix timestamp) in
  List.length ts = TIMESTAMP_LENGTH
  /\ forallb is_digit ts = true
  /\ parseInt10 ts = Num (Qfloor timestamp).
Proof. exact (@timestamp_prefix_parse timestamp). Qed.

(** X15. The prefix at which the engine takes its snapshot,
    [timestampToPaddedTimestampPrefix(snapshotTimestamp / 10)], is not the
    first nine digits of the padded timestamp: it is the digit 0 followed
    by these nine digits, a prefix of ten bytes. *)
Theorem snapshot_prefix_zero_padded (snapshotTimestamp : Z) :
  0 <= snapshotTimestamp < 10 ^ 10 ->
  snapshot_prefix (inject_Z snapshotTimestamp)
  = x30 :: firstn 9 (Buffer_from_string
                       (timestampToPaddedTimestampPrefix (inject_Z snapshotTimestamp))).
Proof.
  intros [H0 Hb]. unfold snapshot_prefix, timestampToPaddedTimestampPrefix.
  rewrite <- Zdiv_Qdiv, Qfloor_Z.
  assert (D0 : 0 <= snapshotTimestamp / 10) by (apply Z.div_pos; lia).
  assert (Db : snapshotTimestamp / 10 < 10 ^ 10).
  { apply Z.div_lt_upper_bound; [lia|]. change (10 ^ 10) with 10000000000 in *. lia. }
  rewrite !integer_toString_nonneg by assumption.
  destruct (@padded_digits (Z.to_N (snapshotTimestamp / 10))) as (HL1 & HD1 & HV1).
  { change (10 ^ 10)%N with (Z.to_N (10 ^ 10)). lia. }
  destruct (@padded_digits (Z.to_N snapshotTimestamp)) as (HL2 & HD2 & HV2).
  { change (10 ^ 10)%N with (Z.to_N (10 ^ 10)). lia. }
  set (A := Buffer_from_string
              (padStart_0 TIMESTAMP_LENGTH (number_toString (Z.to_N (snapshotTimestamp / 10))))) in *.
  set (B := Buffer_from_string
              (padStart_0 TIMESTAMP_LENGTH (number_toString (Z.to_N snapshotTimestamp)))) in *.
  unfold TIMESTAMP_LENGTH in HL1, HL2.
  destruct (exists_last (l := B)) as (B' & d & EB).
  { intros E. rewrite E in HL2. discriminate. }
  rewrite EB in HL2, HD2, HV2 |- *.
  rewrite length_app in HL2. simpl in HL2.
  rewrite forallb_app in HD2. simpl in HD2.
  apply andb_true_iff in HD2 as [HD2 Hd]. rewrite andb_true_r in Hd.
  rewrite decimal_value_snoc in HV2.
  pose proof (digit_value_range _ Hd) as R.
  rewrite firstn_app, firstn_all2 by lia.
  replace (9 - List.length B')%nat with 0%nat by lia. cbn [firstn]. rewrite app_nil_r.
  apply digits_inj.
  - simpl. lia.
  - exact HD1.
  - simpl. exact HD2.
  - rewrite HV1. change (x30 :: B') with (repeat x30 1 ++ B').
    rewrite decimal_value_zeros, Z2N.id by exact D0.
    rewrite Z2N.id in HV2 by exact H0. rewrite <- HV2.
    rewrite (Z.mul_comm 10), Z.div_add_l, Z.div_small by lia. lia.
Qed.


(** X16. The round trip of a SyncId. When the key of the message in the
    store, made by [makeMessagePrimaryKey] from the fid, the set and the
    hash, has 26 bytes (6 for the prefix, the fid and the set, 20 for the
    hash) and the timestamp fits 32 bits, [syncId()] gives 36 bytes, and
    [pkFromSyncId] gives back that key with the four bytes of the timestamp
    put in front of the hash. *)
Theorem pkFromSyncId_of_syncId
    (makeMessagePrimaryKey : N -> N -> Uint8Array -> Completion Uint8Array)
    (typeToSetPostfix : N -> Completion N)
    (this : SyncId.SyncId) (postfix : N) (buf : Uint8Array) :
  typeToSetPostfix (SyncId._type this) = Normal postfix ->
  makeMessagePrimaryKey (SyncId._fid this) postfix (SyncId._hash this) = Normal buf ->
  List.length buf = 26%nat ->
  (SyncId._timestamp this <= 4294967295)%N ->
  exists id,
    SyncId.syncId makeMessagePrimaryKey typeToSetPostfix this = Normal id
    /\ List.length id = 36%nat
    /\ pkFromSyncId true id
       = Normal (firstn 6 buf ++ uint32BE (Z.of_N (SyncId._timestamp this))
                 ++ skipn 6 buf).
Proof.
  intros Ep Eb HL Ht. unfold SyncId.syncId. rewrite Ep, Eb.
  destruct (@timestamp_prefix_parse (inject_Z (Z.of_N (SyncId._timestamp this))))
    as (HLt & HD & HP).
  { change (inject_Z 0 <= inject_Z (Z.of_N (SyncId._timestamp this)))%Q.
    rewrite <- Zle_Qle. lia. }
  { rewrite <- Zlt_Qlt. change (10 ^ 10) with 10000000000. lia. }
  rewrite Qfloor_Z in HP.
  set (ts := Buffer_from_string _) in *. exists (ts ++ buf).
  split; [reflexivity|]. unfold TIMESTAMP_LENGTH in HLt.
  split; [rewrite length_app; lia|].
  unfold pkFromSyncId, Uint8Array_toString, TIMESTAMP_LENGTH, FID_BYTES, HASH_LENGTH.
  rewrite firstn_app, firstn_all2 by lia.
  replace (10 - List.length ts)%nat with 0%nat by lia. cbn [firstn]. rewrite app_nil_r, HP.
  rewrite skipn_app, skipn_all2 by lia.
  replace (10 - List.length ts)%nat with 0%nat by lia. cbn [skipn app].
  unfold writeUInt32BE.
  replace (Z.of_N (SyncId._timestamp this) >? 4294967295) with false
    by (symmetry; rewrite Z.gtb_ltb; apply Z.ltb_ge; lia).
  replace (Z.of_N (SyncId._timestamp this) <? 0) with false
    by (symmetry; apply Z.ltb_ge; lia).
  cbn [orb].
  pose proof (uint32BE_length (Z.of_N (SyncId._timestamp this))) as H4.
  destruct (uint32BE (Z.of_N (SyncId._timestamp this)))
    as [|t0 [|t1 [|t2 [|t3 [|t4 tl]]]]]; try discriminate H4.
  do 27 (destruct buf as [|? buf]; try discriminate HL).
  reflexivity.
Qed.
(** * More on the sync engine *)

Module SyncEngineMetadata.
Import SyncEngine SyncEngineSpec SyncEngineMerge.

(** ** The conversion of the metadata of a node *)

Lemma NodeMetadata_eta (n : NodeMetadata) :
  Build_NodeMetadata (node_prefix n) (node_numMessages n) (node_hash n)
                     (node_children n) = n.
Proof. now destruct n. Qed.

Lemma from_children_fold (children : list (MapKey * NodeMetadata)) :
  forall acc,
    NoDup (map fst acc ++ map fst children) ->
    (forall c child, In (c, child) children ->
        node_children child = None
        /\ node_prefix child <> []
        /\ c = nth_error (node_prefix child) (List.length (node_prefix child) - 1)) ->
    fold_left
      (fun children child =>
         let prefix := response_prefix child in
         if (0 <? List.length prefix)%nat then
           let char := nth_error prefix (List.length prefix - 1) in
           Map_set children char
             (Build_NodeMetadata prefix (response_numMessages child)
                                 (response_hash child) None)
         else children)
      (map (fun e =>
              Build_TrieNodeMetadataResponse
                (node_prefix (snd e)) (node_numMessages (snd e))
                (node_hash (snd e)) [])
           children)
      acc
    = acc ++ children.
Proof.
  match goal with |- forall acc, _ -> _ -> fold_left ?g _ _ = _ => set (f := g) end.
  induction children as [|[c child] children IH]; intros acc ND H.
  - now rewrite app_nil_r.
  - destruct (H c child (or_introl eq_refl)) as (Hc & Hp & Hk).
    cbn [map fold_left snd].
    assert (E : f acc (Build_TrieNodeMetadataResponse
                         (node_prefix child) (node_numMessages child)
                         (node_hash child) [])
                = Map_set acc c child).
    { unfold f. cbn [response_prefix response_numMessages response_hash]. cbv zeta.
      replace (0 <? List.length (node_prefix child))%nat with true
        by (symmetry; apply Nat.ltb_lt; destruct (node_prefix child);
            [congruence|simpl; lia]).
      now rewrite <- Hk, <- Hc, NodeMetadata_eta. }
    rewrite E. rewrite Map_set_new.
    + rewrite IH.
      * now rewrite <- app_assoc.
      * rewrite map_app. simpl. rewrite <- app_assoc. exact ND.
      * intros c' child' I. apply H. now right.
    + apply Map_get_None. simpl in ND. intro I.
      apply NoDup_remove_2 in ND. apply ND. apply in_or_app. now left.
Qed.

(** X18. The round trip of the metadata of a node through the RPC: for
    metadata with one level of children, each under the last byte of its
    prefix, what [fromNodeMetadataResponse] makes of the response that
    [toTrieNodeMetadataResponse] builds is the metadata itself. *)
Theorem fromNodeMetadataResponse_toTrieNodeMetadataResponse (metadata : NodeMetadata) :
  one_level metadata ->
  fromNodeMetadataResponse (toTrieNodeMetadataResponse (Some metadata)) = metadata.
Proof.
  intros (children & Ec & ND & H).
  unfold fromNodeMetadataResponse, toTrieNodeMetadataResponse. rewrite Ec.
  pose proof (from_children_fold children [] ND H) as F. cbn [app] in F.
  cbv zeta. cbn [response_prefix response_numMessages response_hash response_children].
  cbv zeta in F. rewrite F.
  destruct metadata as [p n h c]. simpl in Ec. now subst c.
Qed.
End SyncEngineMetadata.
Module SyncEngineShouldSync.
Import SyncEngine SyncEngineSpec SyncEngineMerge.

(** ** shouldSync *)

Lemma every_index_eq (ours : list string) :
  forall theirs pre,
    List.length ours = List.length theirs ->
    forallb (fun iv => match nth_error (pre ++ theirs) (fst iv) with
                       | Some h => String.eqb (snd iv) h
                       | None => false
                       end)
            (combine (seq (List.length pre) (List.length ours)) ours) = true
    <-> ours = theirs.
Proof.
  induction ours as [|a ours IH]; intros [|b theirs] pre HL;
    try discriminate HL.
  - simpl. tauto.
  - cbn [List.length seq combine forallb fst snd].
    rewrite nth_error_app2 by lia. rewrite Nat.sub_diag. cbn [nth_error].
    rewrite andb_true_iff, String.eqb_eq.
    specialize (IH theirs (pre ++ [b]) (eq_add_S _ _ HL)).
    rewrite <- app_assoc, length_app in IH. cbn [app List.length] in IH.
    replace (List.length pre + 1)%nat with (S (List.length pre)) in IH by lia.
    rewrite IH. split; [intros [-> ->]; reflexivity | intros [= -> ->]; auto].
Qed.

(** X19. [shouldSync] says that no sync is needed while one is going on;
    otherwise it passes on the failure of the snapshot or answers
    [false] exactly when the excluded hashes of the snapshot are those of
    the peer, one by one: lists of different lengths always differ. *)
Theorem shouldSync_iff_hashes_differ (_isSyncing : bool)
    (snapshot : HubResult TrieSnapshot) (excludedHashes : list string) :
  (_isSyncing = true -> shouldSync _isSyncing snapshot excludedHashes = Ok false)
  /\ (_isSyncing = false ->
      match snapshot with
      | Err e => shouldSync _isSyncing snapshot excludedHashes = Err e
      | Ok ourSnapshot =>
          exists b, shouldSync _isSyncing snapshot excludedHashes = Ok b
                    /\ (b = false <->
                        excludedHashes_of ourSnapshot = excludedHashes)
      end).
Proof.
  split; intros ->; [reflexivity|]. destruct snapshot as [s|e]; [|reflexivity].
  unfold shouldSync. eexists. split; [reflexivity|].
  rewrite negb_false_iff, andb_true_iff, Nat.eqb_eq.
  split.
  - intros [HL H]. now apply (every_index_eq _ _ [] HL).
  - intros <-. split; [reflexivity|]. now apply (every_index_eq _ _ [] eq_refl).
Qed.
End SyncEngineShouldSync.
Module SyncEngineCalls.
Import SyncEngine SyncEngineSpec SyncEngineMerge.

Section Calls.
Variables (World IdRegistryEvent : Type).
Variable getIdRegistryEvent : N -> World -> HubResult IdRegistryEvent * World.
Variable getAllSignerMessagesByFid : N -> World -> HubResult (list Message) * World.
Variable getAllSyncIdsByPrefix :
  Uint8Array -> World -> HubResult (list Uint8Array) * World.
Variable getSyncMetadataByPrefix :
  Uint8Array -> World -> HubResult TrieNodeMetadataResponse * World.
Variable mergeIdRegistryEvent : IdRegistryEvent -> World -> HubResult unit * World.
Variable mergeMessages_engine : list Message -> World -> list (HubResult unit) * World.
Variable mergeMessage : Message -> World -> HubResult unit * World.
Variable getTrieNodeMetadata : Uint8Array -> option NodeMetadata.
Variable error_message : HubError -> string.

Abbreviation fetchByPrefix :=
  (@fetchMissingHashesByPrefix World IdRegistryEvent getAllSyncIdsByPrefix
     getSyncMetadataByPrefix getTrieNodeMetadata).
Abbreviation fetchByNode :=
  (@fetchMissingHashesByNode World IdRegistryEvent getAllSyncIdsByPrefix
     getSyncMetadataByPrefix getTrieNodeMetadata).
Abbreviation retryUser :=
  (@syncUserAndRetryMessage World IdRegistryEvent getIdRegistryEvent
     getAllSignerMessagesByFid mergeIdRegistryEvent mergeMessages_engine
     mergeMessage).
Abbreviation mergeAll :=
  (@mergeMessages World IdRegistryEvent getIdRegistryEvent
     getAllSignerMessagesByFid mergeIdRegistryEvent mergeMessages_engine
     mergeMessage error_message).

Lemma only_calls_ret {A : Type} kind (a : A) : only_calls kind (@ret World IdRegistryEvent A a).
Proof. intros w log. exists []. split; [now rewrite app_nil_r | reflexivity]. Qed.

Lemma only_calls_bind {A B : Type} kind (m : M World IdRegistryEvent A)
    (k : A -> M World IdRegistryEvent B) :
  only_calls kind m -> (forall a, only_calls kind (k a)) ->
  only_calls kind (bind m k).
Proof.
  intros Hm Hk w log. unfold bind.
  destruct (Hm w log) as (c1 & E1 & F1).
  destruct (m (w, log)) as [a [w1 log1]]. simpl in E1. subst log1.
  destruct (Hk a w1 (log ++ c1)) as (c2 & E2 & F2).
  exists (c1 ++ c2). split.
  - rewrite E2. now rewrite app_assoc.
  - rewrite forallb_app. now rewrite F1, F2.
Qed.

Lemma only_calls_call {A : Type} (kind : Call IdRegistryEvent -> bool) c
    (op : World -> A * World) :
  kind c = true -> only_calls kind (call c op).
Proof.
  intros K w log. unfold call. cbn [fst snd]. destruct (op w) as [a w'].
  exists [c]. split; [reflexivity|]. simpl. now rewrite K.
Qed.

Lemma for_each_child_reads byPrefix ourNode entries :
  (forall p, only_calls peer_read (byPrefix p)) ->
  forall acc, only_calls peer_read
                (@for_each_child World IdRegistryEvent byPrefix ourNode entries acc).
Proof.
  intro H. induction entries as [|[c child] entries IH]; intro acc;
    cbn [for_each_child].
  - apply only_calls_ret.
  - destruct (hash_differs _ _); [|apply IH].
    apply only_calls_bind; [apply H|].
    intros [ids|]; [apply IH | apply only_calls_ret].
Qed.

Lemma fetchByNode_with_reads byPrefix theirNode ourNode :
  (forall p, only_calls peer_read (byPrefix p)) ->
  only_calls peer_read
    (@fetchMissingHashesByNode_with World IdRegistryEvent getAllSyncIdsByPrefix
       byPrefix theirNode ourNode).
Proof.
  intro H. unfold fetchMissingHashesByNode_with.
  destruct (_ <=? _).
  - apply only_calls_bind; [now apply only_calls_call|].
    intro r. apply only_calls_ret.
  - destruct (node_children theirNode);
      [now apply for_each_child_reads | apply only_calls_ret].
Qed.

Lemma fetchByPrefix_reads fuel :
  forall prefix, only_calls peer_read (fetchByPrefix fuel prefix).
Proof.
  induction fuel as [|fuel IH]; intro prefix; cbn [fetchMissingHashesByPrefix].
  - apply only_calls_ret.
  - apply only_calls_bind; [now apply only_calls_call|].
    intros [theirNode|e]; [|apply only_calls_ret].
    now apply fetchByNode_with_reads.
Qed.

(** X20. The walk that looks for the missing hashes only reads from
    the peer: whatever the peer answers and however deep the walk goes,
    the calls that [fetchMissingHashesByPrefix] and
    [fetchMissingHashesByNode] make are [getSyncMetadataByPrefix] and
    [getAllSyncIdsByPrefix], none that merges anything into the
    store. *)
Theorem fetchMissingHashes_only_reads (fuel : nat) (prefix : Uint8Array)
    (theirNode : NodeMetadata) (ourNode : option NodeMetadata)
    (w : World) (log : list (Call IdRegistryEvent)) :
  (exists calls,
      snd (snd (fetchByPrefix fuel prefix (w, log))) = log ++ calls
      /\ forallb peer_read calls = true)
  /\ (exists calls,
         snd (snd (fetchByNode fuel theirNode ourNode (w, log))) = log ++ calls
         /\ forallb peer_read calls = true).
Proof.
  split.
  - apply fetchByPrefix_reads.
  - apply fetchByNode_with_reads. apply fetchByPrefix_reads.
Qed.

End Calls.
End SyncEngineCalls.
Module SyncEngineMergeFacts.
Import SyncEngine SyncEngineSpec SyncEngineMerge.

(** ** The sort of the messages *)

Lemma insert_by_timestamp_perm m l : Permutation (m :: l) (insert_by_timestamp m l).
Proof.
  induction l as [|x l IH]; cbn [insert_by_timestamp]; [reflexivity|].
  destruct (_ <? _)%N; [reflexivity|].
  rewrite perm_swap. now constructor.
Qed.

Lemma sort_by_timestamp_perm l : Permutation l (sort_by_timestamp l).
Proof.
  unfold sort_by_timestamp.
  assert (G : forall acc, Permutation (acc ++ l)
                            (fold_left (fun sorted m => insert_by_timestamp m sorted) l acc)).
  { induction l as [|m l IH]; intro acc; cbn [fold_left].
    - now rewrite app_nil_r.
    - rewrite <- IH. rewrite <- Permutation_middle.
      change (m :: acc ++ l) with ((m :: acc) ++ l).
      apply Permutation_app_tail. apply insert_by_timestamp_perm. }
  exact (G []).
Qed.

Lemma insert_by_timestamp_sorted m l :
  StronglySorted (fun a b => (message_timestamp a <= message_timestamp b)%N) l ->
  StronglySorted (fun a b => (message_timestamp a <= message_timestamp b)%N)
                 (insert_by_timestamp m l).
Proof.
  induction 1 as [|x l S IH F]; cbn [insert_by_timestamp].
  - repeat constructor.
  - destruct (_ <? _)%N eqn:E.
    + apply N.ltb_lt in E. constructor; [now constructor|].
      constructor; [lia|]. rewrite Forall_forall in *. intros y I.
      specialize (F y I). cbv beta in F. lia.
    + apply N.ltb_ge in E. constructor; [exact IH|].
      rewrite Forall_forall in *. intros y I.
      apply (Permutation_in _ (Permutation_sym (insert_by_timestamp_perm m l))) in I.
      destruct I as [<-|I]; [exact E | exact (F y I)].
Qed.

Lemma sort_by_timestamp_sorted l :
  StronglySorted (fun a b => (message_timestamp a <= message_timestamp b)%N)
                 (sort_by_timestamp l).
Proof.
  unfold sort_by_timestamp.
  assert (G : forall acc,
             StronglySorted (fun a b => (message_timestamp a <= message_timestamp b)%N) acc ->
             StronglySorted (fun a b => (message_timestamp a <= message_timestamp b)%N)
               (fold_left (fun sorted m => insert_by_timestamp m sorted) l acc)).
  { induction l as [|m l IH]; intros acc S; cbn [fold_left]; [exact S|].
    apply IH. now apply insert_by_timestamp_sorted. }
  apply G. constructor.
Qed.

Section Merge.
Variables (World IdRegistryEvent : Type).
Variable getIdRegistryEvent : N -> World -> HubResult IdRegistryEvent * World.
Variable getAllSignerMessagesByFid : N -> World -> HubResult (list Message) * World.
Variable mergeIdRegistryEvent : IdRegistryEvent -> World -> HubResult unit * World.
Variable mergeMessages_engine : list Message -> World -> list (HubResult unit) * World.
Variable mergeMessage : Message -> World -> HubResult unit * World.
Variable error_message : HubError -> string.

Abbreviation mergeEach :=
  (@merge_each World IdRegistryEvent getIdRegistryEvent
     getAllSignerMessagesByFid mergeIdRegistryEvent mergeMessages_engine
     mergeMessage error_message).
Abbreviation mergeAll :=
  (@mergeMessages World IdRegistryEvent getIdRegistryEvent
     getAllSignerMessagesByFid mergeIdRegistryEvent mergeMessages_engine
     mergeMessage error_message).

Lemma merge_each_length messages :
  forall mergeResults st,
    List.length (fst (mergeEach messages mergeResults st))
    = (List.length mergeResults + List.length messages)%nat.
Proof.
  induction messages as [|msg messages IH]; intros acc st; cbn [merge_each].
  - unfold ret. simpl. lia.
  - unfold bind at 1.
    destruct (call _ _ st) as [result st1].
    destruct (unknown_user error_message result).
    + unfold bind.
      destruct (syncUserAndRetryMessage _ _ _ _ _ msg st1) as [result' st2].
      rewrite IH, length_app. simpl. lia.
    + rewrite IH, length_app. simpl. lia.
Qed.

(** X22. [mergeMessages] of the sync engine returns one result for each
    message, whatever the store and the peer answer. *)
Theorem mergeMessages_one_result_each (messages : list Message)
    (w : World) (log : list (Call IdRegistryEvent)) :
  List.length (fst (mergeAll messages (w, log))) = List.length messages.
Proof.
  unfold mergeMessages. rewrite merge_each_length. simpl.
  symmetry. apply Permutation_length, sort_by_timestamp_perm.
Qed.

Lemma merge_each_known messages :
  (forall m w, unknown_user error_message (fst (mergeMessage m w)) = false) ->
  forall mergeResults w log,
    snd (snd (mergeEach messages mergeResults (w, log)))
    = log ++ map (Call_mergeMessage IdRegistryEvent) messages.
Proof.
  intro K. induction messages as [|msg messages IH]; intros acc w log;
    cbn [merge_each map].
  - unfold ret. simpl. now rewrite app_nil_r.
  - unfold bind at 1. unfold call. cbn [fst snd].
    pose proof (K msg w) as Km.
    destruct (mergeMessage msg w) as [result w1]. cbn [fst] in Km. rewrite Km.
    rewrite IH, <- app_assoc. reflexivity.
Qed.

(** X23. When the store rejects no message for an unknown user,
    [mergeMessages] asks nothing of the peer: its calls are one merge
    for each message, in the order of the timestamps (a message without
    data counts as of time 0). *)
Theorem mergeMessages_known_users (messages : list Message)
    (w : World) (log : list (Call IdRegistryEvent)) :
  (forall m w, unknown_user error_message (fst (mergeMessage m w)) = false) ->
  exists sorted,
    snd (snd (mergeAll messages (w, log)))
    = log ++ map (Call_mergeMessage IdRegistryEvent) sorted
    /\ Permutation messages sorted
    /\ StronglySorted
         (fun a b => (message_timestamp a <= message_timestamp b)%N) sorted.
Proof.
  intro K. exists (sort_by_timestamp messages). split; [|split].
  - unfold mergeMessages. now apply merge_each_known.
  - apply sort_by_timestamp_perm.
  - apply sort_by_timestamp_sorted.
Qed.
End Merge.
End SyncEngineMergeFacts.
(** * Examples for the properties of the SyncId and of the engine *)

Section MoreExamples.
Import SyncEngine SyncEngineSpec SyncEngineMerge SyncEngineExamples.

Lemma timestamp_prefix_round_trip_witness :
  let ts := Buffer_from_string (timestampToPaddedTimestampPrefix (3330364665 # 2)) in
  List.length ts = TIMESTAMP_LENGTH
  /\ forallb is_digit ts = true
  /\ parseInt10 ts = Num (Qfloor (3330364665 # 2)).
Proof.
  apply (@timestamp_prefix_round_trip (3330364665 # 2)).
  - unfold Qle. simpl. lia.
  - unfold Qlt. simpl. lia.
Defined.

Lemma snapshot_prefix_zero_padded_witness :
  snapshot_prefix (inject_Z 1665182330)
  = x30 :: firstn 9 (Buffer_from_string
                       (timestampToPaddedTimestampPrefix (inject_Z 1665182330))).
Proof.
  apply (@snapshot_prefix_zero_padded 1665182330).
  split; [vm_compute; discriminate | vm_compute; reflexivity].
Defined.

Lemma pkFromSyncId_of_syncId_witness :
  exists id,
    SyncId.syncId example_makeMessagePrimaryKey example_typeToSetPostfix
      (SyncId.new_SyncId example_message) = Normal id
    /\ List.length id = 36%nat
    /\ pkFromSyncId true id
       = Normal (firstn 6 ([x01; x00; x00; x00; x07; x02] ++ repeat x09 20)
                 ++ uint32BE 1665182332
                 ++ skipn 6 ([x01; x00; x00; x00; x07; x02] ++ repeat x09 20)).
Proof.
  apply (@pkFromSyncId_of_syncId example_makeMessagePrimaryKey
           example_typeToSetPostfix (SyncId.new_SyncId example_message) 2%N
           ([x01; x00; x00; x00; x07; x02] ++ repeat x09 20)).
  - reflexivity.
  - vm_compute. reflexivity.
  - reflexivity.
  - vm_compute. discriminate.
Defined.


Lemma one_level_large_node : one_level large_node.
Proof.
  exists large_children. split; [reflexivity|]. split.
  - repeat constructor; simpl; intuition discriminate.
  - intros c child [[= <- <-]|[[= <- <-]|[]]]; repeat split; discriminate.
Qed.

Lemma fromNodeMetadataResponse_toTrieNodeMetadataResponse_witness :
  fromNodeMetadataResponse (toTrieNodeMetadataResponse (Some large_node)) = large_node.
Proof.
  apply (@SyncEngineMetadata.fromNodeMetadataResponse_toTrieNodeMetadataResponse large_node).
  exact one_level_large_node.
Defined.

Lemma shouldSync_iff_hashes_differ_witness :
  shouldSync true (Ok example_snapshot) ["aa"; "cc"]%string = Ok false
  /\ exists b, shouldSync false (Ok example_snapshot) ["aa"; "cc"]%string = Ok b
               /\ (b = false <-> excludedHashes_of example_snapshot = ["aa"; "cc"]%string).
Proof.
  split.
  - apply (proj1 (SyncEngineShouldSync.shouldSync_iff_hashes_differ true (Ok example_snapshot)
                    ["aa"; "cc"]%string)). reflexivity.
  - apply (proj2 (SyncEngineShouldSync.shouldSync_iff_hashes_differ false (Ok example_snapshot)
                    ["aa"; "cc"]%string)). reflexivity.
Defined.


Lemma mergeMessages_known_users_witness :
  exists sorted,
    snd (snd (mergeMessages peer_getIdRegistryEvent peer_getAllSignerMessagesByFid
                store_mergeIdRegistryEvent store_mergeMessages store_mergeMessage_ok
                example_error_message [later_message; example_message] (tt, [])))
    = [] ++ map (Call_mergeMessage unit) sorted
    /\ Permutation [later_message; example_message] sorted
    /\ StronglySorted
         (fun a b => (message_timestamp a <= message_timestamp b)%N) sorted.
Proof.
  apply (@SyncEngineMergeFacts.mergeMessages_known_users unit unit
           peer_getIdRegistryEvent peer_getAllSignerMessagesByFid
           store_mergeIdRegistryEvent store_mergeMessages store_mergeMessage_ok
           example_error_message [later_message; example_message] tt []).
  intros m w. reflexivity.
Defined.
End MoreExamples.
